(** * homeapp: transports, synchronization facade and scene engine

    A shallow embedding of the TypeScript sources

      - [src/api/types.ts]                   (entities)
      - [src/contexts/HomeAssistantContext.tsx] (facade: the entity table)
      - [src/contexts/SceneContext.tsx]      (scene engine)
      - [src/api/homeAssistantApi.ts]        (pull transport, [RestApiAdapter])
      - [src/api/homeAssistantWebSocket.ts]  (push transport)

    Objects that the code mutates in place become explicit state records;
    callbacks and promises are first-order handles whose invocations and
    settlements are recorded, so that what a subscriber or an awaiting caller
    observes can be stated. *)

From Stdlib Require Import ZArith Ascii String List.
From stdpp Require Import base option list gmap strings pretty.

Open Scope string_scope.

#[global] Set Warnings "-register-all".

(** ** A state monad for code that mutates [this] or React state *)

Definition State (S A : Type) : Type := S -> A * S.

#[global] Instance state_ret {S} : MRet (State S) := fun A a s => (a, s).
#[global] Instance state_bind {S} : MBind (State S) :=
  fun A B f m s => let '(a, s') := m s in f a s'.

(** The state in which a computation leaves the object, and its result. *)
Definition exec {S A} (m : State S A) (s : S) : S := snd (m s).
Definition eval {S A} (m : State S A) (s : S) : A := fst (m s).

(** A [for (const x of xs)] loop. *)
Fixpoint for_of {S A} (xs : list A) (body : A -> State S unit) : State S unit :=
  match xs with
  | [] => mret tt
  | x :: rest => body x ;; for_of rest body
  end.

(** How far a call of an [async] function gets: to its end (the promise it
    returned is settled), or to an [await] on a promise that never settles,
    where it stays for good. *)
Inductive Completion : Type := Returned | Suspended.

(** A [for (const x of xs)] loop whose body awaits: the loop goes no
    further than a body that is suspended. *)
Fixpoint for_await {S A} (xs : list A) (body : A -> State S Completion)
  : State S Completion :=
  match xs with
  | [] => mret Returned
  | x :: rest =>
      done ← body x;
      match done with
      | Returned => for_await rest body
      | Suspended => mret Suspended
      end
  end.

(** Hoare triples for such computations. *)
Definition hoare {S A} (P : S -> Prop) (m : State S A) (Q : A -> S -> Prop) : Prop :=
  forall s, P s -> Q (eval m s) (exec m s).

(** [m] keeps the invariant, and its result satisfies [R]. *)
Definition keeps {S A} (Inv : S -> Prop) (m : State S A) (R : A -> Prop) : Prop :=
  hoare Inv m (fun a s => R a /\ Inv s).

(** ** JSON values and plain JavaScript objects *)

Module Json.

(** The [any] values of the code are what [JSON.parse] produces.  Numbers
    are restricted to the integers (the code only copies and compares
    them). *)
Inductive JSON : Type :=
| JNull
| JBool (b : bool)
| JNum (z : Z)
| JStr (s : string)
| JArr (items : list JSON)
| JObj (props : list (string * JSON)).

(** A [Record<string, any>]: own enumerable properties in insertion
    order. *)
Definition Obj : Type := list (string * JSON).

(** [o[k]], with [None] for [undefined]. *)
Fixpoint get (k : string) (o : Obj) : option JSON :=
  match o with
  | [] => None
  | (k', v) :: rest => if bool_decide (k' = k) then Some v else get k rest
  end.

(** [o[k] = v]: overwrite in place or append. *)
Fixpoint set (k : string) (v : JSON) (o : Obj) : Obj :=
  match o with
  | [] => [(k, v)]
  | (k', v') :: rest =>
      if bool_decide (k' = k) then (k', v) :: rest else (k', v') :: set k v rest
  end.

(** [Object.keys(o)]. *)
Definition keys (o : Obj) : list string := map fst o.

(** [Object.assign(target, source)]. *)
Definition assign (target source : Obj) : Obj :=
  fold_left (fun acc kv => set (fst kv) (snd kv) acc) source target.

(** The property names that the object literal [{}] inherits from
    [Object.prototype].  Reading one of them from an object that has no own
    property of that name gives a function (for [__proto__], the prototype
    object): a truthy value without a [push] method and without an
    [originalStates] property. *)
Definition inherited : list string :=
  [ "constructor"; "__defineGetter__"; "__defineSetter__"; "hasOwnProperty";
    "__lookupGetter__"; "__lookupSetter__"; "isPrototypeOf"; "propertyIsEnumerable";
    "toString"; "valueOf"; "__proto__"; "toLocaleString" ].

End Json.

(** ** src/api/types.ts *)

Module Types.
Import Json.

Record Context : Type := {
  ctx_id : string;
  parent_id : option string;
  user_id : option string
}.

Record Entity : Type := {
  entity_id : string;
  state : string;
  attributes : Obj;
  last_changed : string;
  last_updated : string;
  context : Context
}.

(** [Error] and its subclass [ApiError] ([status] is [undefined] on a plain
    [Error]). *)
Record Error : Type := {
  message : string;
  status : option Z
}.

Definition mkError (msg : string) : Error := {| message := msg; status := None |}.

(** What an awaited call gives its caller once it settles: the value it
    resolves with, or the error it rejects with. *)
Inductive Outcome (A : Type) : Type :=
| Resolved (a : A)
| Rejected (e : Error).
Arguments Resolved {A} a.
Arguments Rejected {A} e.

(** What awaiting a promise gives: its outcome if it settles.  Whoever
    awaits a promise that never settles goes no further. *)
Inductive Awaited (A : Type) : Type :=
| Settles (o : Outcome A)
| NeverSettles.
Arguments Settles {A} o.
Arguments NeverSettles {A}.

End Types.

(** ** src/contexts/HomeAssistantContext.tsx: the entity table *)

Module Facade.
Import Json Types.

(** [Array.prototype.findIndex], with [None] for [-1]. *)
Fixpoint findIndex {A : Type} (p : A -> bool) (l : list A) : option nat :=
  match l with
  | [] => None
  | x :: rest => if p x then Some 0 else S <$> findIndex p rest
  end.

(** The state updater run by [handleEntityStateChange]: the function from
    [prevEntities] to the next [entities]. *)
Definition handleEntityStateChange
    (entityId : string) (newState oldState : option Entity)
    (prevEntities : list Entity) : list Entity :=
  match newState with
  | None => prevEntities
  | Some newState =>
      match findIndex (fun e => bool_decide (entity_id e = entityId)) prevEntities with
      | Some index => <[index := newState]> prevEntities
      | None => prevEntities ++ [newState]
      end
  end.

Definition getEntity (entities : list Entity) (entityId : string) : option Entity :=
  find (fun entity => bool_decide (entity_id entity = entityId)) entities.

Definition getEntitiesByDomain (entities : list Entity) (domain : string) : list Entity :=
  filter (fun entity => String.prefix (domain ++ ".") (entity_id entity) = true) entities.

(** One change notification, as passed to a [StateChangedCallback]. *)
Record Notification : Type := {
  n_entityId : string;
  n_newState : option Entity;
  n_oldState : option Entity
}.

Definition deliver (entities : list Entity) (n : Notification) : list Entity :=
  handleEntityStateChange (n_entityId n) (n_newState n) (n_oldState n) entities.

(** The table after a sequence of notifications, in arrival order. *)
Definition deliverAll (ns : list Notification) (entities : list Entity) : list Entity :=
  fold_left deliver ns entities.

(** The entity carried by the last notification that carries one. *)
Fixpoint lastDelivered (ns : list Notification) : option Entity :=
  match ns with
  | [] => None
  | n :: rest =>
      match lastDelivered rest with
      | Some e => Some e
      | None => n_newState n
      end
  end.

(** A notification for [entityId]: the id argument is [entityId], and so is
    the id inside the entity it carries. *)
Definition notificationFor (entityId : string) (n : Notification) : Prop :=
  n_entityId n = entityId /\
  forall e, n_newState n = Some e -> entity_id e = entityId.

End Facade.

(** ** src/contexts/SceneContext.tsx: the scene engine *)

Module SceneContext.
Import Json Types.

Record EntityState : Type := {
  entityId : string;
  es_state : string;
  es_attributes : Obj
}.

Record ActiveSceneState : Type := {
  sceneId : string;
  originalStates : list EntityState
}.

Record ServiceCall : Type := {
  call_domain : string;
  call_service : string;
  call_data : Obj
}.

(** What the provider does that can be seen from outside, in the order in
    which it does it: updates of the [activeScenes] state, the calls it
    makes on the facade, and console output. *)
Inductive Effect : Type :=
| SetActiveScene (sceneId : string) (record : ActiveSceneState)
| DeleteActiveScene (sceneId : string)
| RefreshEntities
| CallService (call : ServiceCall)
| ConsoleWarn (msg : string)
| ConsoleError (msg : string) (e : Error).

Record SceneState : Type := {
  activeScenes : gmap string ActiveSceneState;
  effects : list Effect
}.

(** The facade as the provider sees it through [useHomeAssistant]: what
    awaiting [refreshEntities] and each [callService] gives.  Over the pull
    transport the promise of a call that the controller refuses is
    rejected; over the push transport it never settles
    ([WebSocketApi.handleResult]). *)
Record Env : Type := {
  refreshEntities_result : Awaited (list Entity);
  callService_result : ServiceCall -> Awaited JSON
}.

Local Abbreviation M := (State SceneState).

Definition emit (e : Effect) : M unit :=
  fun st => (tt, {| activeScenes := activeScenes st; effects := effects st ++ [e] |}).

(** [setActiveScenes(prev => f(prev))]. *)
Definition setActiveScenes
    (f : gmap string ActiveSceneState -> gmap string ActiveSceneState) : M unit :=
  fun st => (tt, {| activeScenes := f (activeScenes st); effects := effects st |}).

Definition readActiveScenes : M (gmap string ActiveSceneState) :=
  fun st => (activeScenes st, st).

Definition refreshEntities (env : Env) : M (Awaited (list Entity)) :=
  emit RefreshEntities ;; mret (refreshEntities_result env).

Definition callService (env : Env) (domain service : string) (data : Obj)
  : M (Awaited JSON) :=
  let call := {| call_domain := domain; call_service := service; call_data := data |} in
  emit (CallService call) ;; mret (callService_result env call).

(** JavaScript truthiness of a JSON value. *)
Definition truthy (v : JSON) : bool :=
  match v with
  | JNull => false
  | JBool b => b
  | JNum z => negb (z =? 0)%Z
  | JStr s => negb (bool_decide (s = EmptyString))
  | JArr _ | JObj _ => true
  end.

(** [Object.keys(v)] for a JSON value: property names of an object, the
    indices of an array or of a string, nothing for other primitives. *)
Definition objectKeys (v : JSON) : list string :=
  match v with
  | JObj props => keys props
  | JArr items => map pretty (seq 0 (length items))
  | JStr s => map pretty (seq 0 (String.length s))
  | _ => []
  end.

Definition getSceneEntities (scene : Entity) : M (list string) :=
  match get "entities" (attributes scene) with
  | Some v =>
      if truthy v then mret (objectKeys v)
      else emit (ConsoleWarn ("Scene has no entities defined: " ++ entity_id scene)) ;;
           mret []
  | None =>
      emit (ConsoleWarn ("Scene has no entities defined: " ++ entity_id scene)) ;;
      mret []
  end.

(** [if (src[k] !== undefined) dst[k] = src[k]]. *)
Definition copyIfDefined (k : string) (src dst : Obj) : Obj :=
  match get k src with
  | Some v => set k v dst
  | None => dst
  end.

(** The callback mapped over the ids by [captureEntityStates]; [entities]
    is the table that the provider's [getEntity] reads. *)
Definition captureEntityState (entities : list Entity) (entityId : string)
  : M EntityState :=
  match Facade.getEntity entities entityId with
  | None =>
      emit (ConsoleWarn ("Entity " ++ entityId ++ " not found when capturing state")) ;;
      mret {| entityId := entityId; es_state := "unknown"; es_attributes := [] |}
  | Some entity =>
      let attributes0 : Obj := [] in
      let attributes1 :=
        if String.prefix "light." entityId then
          copyIfDefined "rgb_color" (attributes entity)
            (copyIfDefined "color_temp" (attributes entity)
              (copyIfDefined "brightness" (attributes entity) attributes0))
        else assign attributes0 (attributes entity) in
      mret {| entityId := entityId; es_state := state entity; es_attributes := attributes1 |}
  end.

(** The closing [filter(state => state !== null)] keeps every element: the
    callback never returns [null]. *)
Definition captureEntityStates (entities : list Entity) (entityIds : list string)
  : M (list EntityState) :=
  mapM (captureEntityState entities) entityIds.

(** [activeScenes[sceneId]].  [activeScenes] is a plain object; the map
    holds its own properties, which are the records, and a name that is not
    among them is looked up in [Object.prototype]. *)
Inductive Property : Type :=
| Own (record : ActiveSceneState)
| Inherited
| Undefined.

Definition lookupScene (scenes : gmap string ActiveSceneState) (sceneId : string)
  : Property :=
  match scenes !! sceneId with
  | Some record => Own record
  | None => if bool_decide (sceneId ∈ inherited) then Inherited else Undefined
  end.

(** [!!activeScenes[sceneId]]. *)
Definition isSceneActive (st : SceneState) (sceneId : string) : bool :=
  match lookupScene (activeScenes st) sceneId with
  | Undefined => false
  | _ => true
  end.

(** The [catch] block of [activateScene]. *)
Definition activateScene_catch (sceneId : string) (error : Error) : M Completion :=
  emit (ConsoleError "Failed to activate scene:" error) ;;
  emit (DeleteActiveScene sceneId) ;;
  setActiveScenes (delete sceneId) ;;
  mret Returned.

Definition activateScene (entities : list Entity) (env : Env) (sceneId : string)
  : M Completion :=
  match Facade.getEntity entities sceneId with
  | None => activateScene_catch sceneId (mkError ("Scene " ++ sceneId ++ " not found"))
  | Some sceneEntity =>
      affectedEntityIds ← getSceneEntities sceneEntity;
      refreshed ← refreshEntities env;
      match refreshed with
      | NeverSettles => mret Suspended
      | Settles (Rejected error) => activateScene_catch sceneId error
      | Settles (Resolved _) =>
          originalStates ← captureEntityStates entities affectedEntityIds;
          let record := {| sceneId := sceneId; originalStates := originalStates |} in
          emit (SetActiveScene sceneId record) ;;
          setActiveScenes (insert sceneId record) ;;
          called ← callService env "scene" "turn_on" [("entity_id", JStr sceneId)];
          match called with
          | NeverSettles => mret Suspended
          | Settles (Rejected error) => activateScene_catch sceneId error
          | Settles (Resolved _) => mret Returned
          end
      end
  end.

(** [entityId.split('.')[0]]. *)
Fixpoint domainOf (entityId : string) : string :=
  match entityId with
  | EmptyString => EmptyString
  | String c rest =>
      if Ascii.eqb c "."%char then EmptyString else String c (domainOf rest)
  end.

Definition optProp (k : string) (v : option JSON) : Obj :=
  match v with Some v => [(k, v)] | None => [] end.

(** The [switch (domain)] of [deactivateScene]: the call that restores one
    entity, if there is one. *)
Definition restoreCall (entityState : EntityState) : option ServiceCall :=
  let domain := domainOf (entityId entityState) in
  let call service data :=
    Some {| call_domain := domain; call_service := service; call_data := data |} in
  let id := ("entity_id", JStr (entityId entityState)) in
  if bool_decide (domain = "light") then
    if bool_decide (es_state entityState = "on") then
      let lightAttributes : Obj := [id; ("transition", JNum 1)] in
      call "turn_on"
        (copyIfDefined "rgb_color" (es_attributes entityState)
          (copyIfDefined "color_temp" (es_attributes entityState)
            (copyIfDefined "brightness" (es_attributes entityState) lightAttributes)))
    else call "turn_off" [id; ("transition", JNum 1)]
  else if bool_decide (domain = "switch") || bool_decide (domain = "input_boolean") then
    call (if bool_decide (es_state entityState = "on") then "turn_on" else "turn_off") [id]
  else if bool_decide (domain = "cover") then
    if bool_decide (es_state entityState = "open")
       || bool_decide (es_state entityState = "opening") then
      (* a [position] that is [undefined] is not sent *)
      call "set_cover_position"
        (id :: optProp "position" (get "current_position" (es_attributes entityState)))
    else call "close_cover" [id]
  else if bool_decide (es_state entityState = "on") then call "turn_on" [id]
  else if bool_decide (es_state entityState = "off") then call "turn_off" [id]
  else None.

(** The body of the restoring loop, with its own [try]/[catch]. *)
Definition restoreEntity (env : Env) (entityState : EntityState) : M Completion :=
  match restoreCall entityState with
  | None => mret Returned
  | Some call =>
      called ← callService env (call_domain call) (call_service call) (call_data call);
      match called with
      | NeverSettles => mret Suspended
      | Settles (Rejected err) =>
          emit (ConsoleError ("Failed to restore " ++ entityId entityState ++ ":") err) ;;
          mret Returned
      | Settles (Resolved _) => mret Returned
      end
  end.

(** For a name that [activeScenes] only inherits, [activeScene] is a
    function or the prototype object: it passes the test, and the loop
    over its [originalStates], which is [undefined], throws the [TypeError]
    that the outer [catch] logs (the text of its message is the engine's). *)
Definition deactivateScene (env : Env) (sceneId : string) : M Completion :=
  scenes ← readActiveScenes;
  match lookupScene scenes sceneId with
  | Undefined => mret Returned
  | Own activeScene =>
      emit (DeleteActiveScene sceneId) ;;
      setActiveScenes (delete sceneId) ;;
      for_await (originalStates activeScene) (restoreEntity env)
  | Inherited =>
      emit (DeleteActiveScene sceneId) ;;
      setActiveScenes (delete sceneId) ;;
      emit (ConsoleError "Failed to deactivate scene:"
              (mkError "activeScene.originalStates is not iterable")) ;;
      mret Returned
  end.

Definition toggleScene (entities : list Entity) (env : Env) (sceneId : string)
  : M Completion :=
  fun st =>
    if isSceneActive st sceneId then deactivateScene env sceneId st
    else activateScene entities env sceneId st.

(** The scene-activation call of [activateScene]. *)
Definition activationCall (sceneId : string) : ServiceCall :=
  {| call_domain := "scene"; call_service := "turn_on";
     call_data := [("entity_id", JStr sceneId)] |}.

(** The service calls among a list of effects, in order. *)
Definition serviceCalls (l : list Effect) : list ServiceCall :=
  omap (fun e => match e with CallService c => Some c | _ => None end) l.

(** Of the calls that a loop is to await one after the other, those that
    get made: all up to the first whose promise never settles. *)
Fixpoint issued (env : Env) (calls : list ServiceCall) : list ServiceCall :=
  match calls with
  | [] => []
  | call :: rest =>
      call :: match callService_result env call with
              | Settles _ => issued env rest
              | NeverSettles => []
              end
  end.

End SceneContext.

(** ** Connection states and parsed wire messages
       (src/api/homeAssistantWebSocket.ts, shared by both transports) *)

Module Protocol.
Import Json Types.

Inductive ConnectionState : Type :=
| CLOSED | CONNECTING | AUTHENTICATING | CONNECTED | RECONNECTING | ERROR.

#[global] Instance ConnectionState_eq_dec : EqDecision ConnectionState.
Proof. solve_decision. Defined.

(** [WebSocket.readyState]. *)
Inductive ReadyState : Type :=
| WS_CONNECTING | WS_OPEN | WS_CLOSING | WS_CLOSED.

#[global] Instance ReadyState_eq_dec : EqDecision ReadyState.
Proof. solve_decision. Defined.

Record ResultError : Type := {
  code : string;
  error_message : string
}.

Record StateChangedEventData : Type := {
  data_entity_id : string;
  new_state : option Entity;
  old_state : option Entity
}.

(** An incoming message after [JSON.parse], by its [type]. *)
Inductive Message : Type :=
| AuthRequired
| AuthOk
| AuthInvalid (message : string)
| Result (id : Z) (success : bool) (result : option JSON) (error : option ResultError)
| Event (id : Z) (event_type : string) (data : StateChangedEventData)
| Pong
| OtherType (type : string).

(** The text received on the socket: what [JSON.parse] returns, or the
    [SyntaxError] that it throws. *)
Inductive Incoming : Type :=
| Parsed (m : Message)
| Unparsable (e : Error).

(** What the client sends: the authentication message, the object
    [{ id, type: command, ...params }] that [sendCommand] builds, and the
    ping of the heartbeat. *)
Inductive Outgoing : Type :=
| OutAuth (access_token : string)
| OutCommand (message : Obj)
| OutPing (id : Z).

End Protocol.

(** ** src/api/homeAssistantApi.ts: [RestApiAdapter], the pull transport *)

Module RestApiAdapter.
Import Json Types Protocol.

(** Calls of the registered callbacks; a callback is named by the position
    at which it was registered with the program that uses the adapter. *)
Inductive Effect : Type :=
| EntityCallback (cb : nat) (entityId : string) (newState : Entity)
    (oldState : option Entity)
| ConnectionCallback (cb : nat) (state : ConnectionState)
| ErrorCallback (cb : nat) (error : Error).

(** The fields of the adapter ([pollingInterval] holds the period of the
    running interval timer), and the calls made so far. *)
Record Adapter : Type := {
  connected : bool;
  pollingInterval : option Z;
  entityCallbacks : list nat;
  connectionCallbacks : list nat;
  errorCallbacks : list nat;
  lastStates : gmap string Entity;
  effects : list Effect
}.

Definition set_connected (v : bool) (st : Adapter) : Adapter :=
  {| connected := v;
     pollingInterval := pollingInterval st;
     entityCallbacks := entityCallbacks st;
     connectionCallbacks := connectionCallbacks st;
     errorCallbacks := errorCallbacks st;
     lastStates := lastStates st;
     effects := effects st |}.

Definition set_pollingInterval (v : option Z) (st : Adapter) : Adapter :=
  {| connected := connected st;
     pollingInterval := v;
     entityCallbacks := entityCallbacks st;
     connectionCallbacks := connectionCallbacks st;
     errorCallbacks := errorCallbacks st;
     lastStates := lastStates st;
     effects := effects st |}.

Definition set_entityCallbacks (v : list nat) (st : Adapter) : Adapter :=
  {| connected := connected st;
     pollingInterval := pollingInterval st;
     entityCallbacks := v;
     connectionCallbacks := connectionCallbacks st;
     errorCallbacks := errorCallbacks st;
     lastStates := lastStates st;
     effects := effects st |}.

Definition set_connectionCallbacks (v : list nat) (st : Adapter) : Adapter :=
  {| connected := connected st;
     pollingInterval := pollingInterval st;
     entityCallbacks := entityCallbacks st;
     connectionCallbacks := v;
     errorCallbacks := errorCallbacks st;
     lastStates := lastStates st;
     effects := effects st |}.

Definition set_errorCallbacks (v : list nat) (st : Adapter) : Adapter :=
  {| connected := connected st;
     pollingInterval := pollingInterval st;
     entityCallbacks := entityCallbacks st;
     connectionCallbacks := connectionCallbacks st;
     errorCallbacks := v;
     lastStates := lastStates st;
     effects := effects st |}.

Definition set_lastStates (v : gmap string Entity) (st : Adapter) : Adapter :=
  {| connected := connected st;
     pollingInterval := pollingInterval st;
     entityCallbacks := entityCallbacks st;
     connectionCallbacks := connectionCallbacks st;
     errorCallbacks := errorCallbacks st;
     lastStates := v;
     effects := effects st |}.

Definition set_effects (v : list Effect) (st : Adapter) : Adapter :=
  {| connected := connected st;
     pollingInterval := pollingInterval st;
     entityCallbacks := entityCallbacks st;
     connectionCallbacks := connectionCallbacks st;
     errorCallbacks := errorCallbacks st;
     lastStates := lastStates st;
     effects := v |}.

Definition pollingFrequency : Z := 3000.

Definition new : Adapter :=
  {| connected := false; pollingInterval := None; entityCallbacks := [];
     connectionCallbacks := []; errorCallbacks := []; lastStates := ∅;
     effects := [] |}.

Local Abbreviation M := (State Adapter).

Definition gets {A} (f : Adapter -> A) : M A := fun st => (f st, st).
Definition modify (f : Adapter -> Adapter) : M unit := fun st => (tt, f st).

(** [for (const callback of callbacks) callback(...)]. *)
Definition callAll (callbacks : list nat) (call : nat -> Effect) : M unit :=
  modify (fun st => set_effects (effects st ++ map call callbacks) st).

Definition _notifyConnectionState (state : ConnectionState) : M unit :=
  callbacks ← gets connectionCallbacks;
  callAll callbacks (fun cb => ConnectionCallback cb state).

Definition _notifyError (error : Error) : M unit :=
  callbacks ← gets errorCallbacks;
  callAll callbacks (fun cb => ErrorCallback cb error).

Definition disconnect : M unit :=
  modify (set_connected false) ;;
  modify (set_pollingInterval None) ;;
  _notifyConnectionState CLOSED.

Definition isConnected (st : Adapter) : bool := connected st.

Definition getConnectionState (st : Adapter) : ConnectionState :=
  if connected st then CONNECTED else CLOSED.

(** The errors that reach [_handleApiError] are [Error] objects. *)
Definition _handleApiError (error : Error) : M unit :=
  _notifyError error ;;
  match status error with
  | Some s =>
      if (s =? 401)%Z then disconnect
      else if (500 <=? s)%Z then _notifyConnectionState ERROR
      else mret tt
  | None => _notifyConnectionState ERROR
  end.

(** [_startPolling] restarts the interval timer.  The poll that it issues
    at once, like every tick of the timer, completes later, as a
    [_pollEntities] of its own. *)
Definition _startPolling : M unit :=
  modify (set_pollingInterval (Some pollingFrequency)).

(** [connect], given the outcome of its test request. *)
Definition connect (tested : Outcome (list Entity)) : M (Outcome unit) :=
  match tested with
  | Resolved _ =>
      modify (set_connected true) ;;
      _notifyConnectionState CONNECTED ;;
      callbacks ← gets entityCallbacks;
      (if (0 <? length callbacks)%nat then _startPolling else mret tt) ;;
      mret (Resolved tt)
  | Rejected error =>
      modify (set_connected false) ;;
      _notifyConnectionState ERROR ;;
      _notifyError error ;;
      mret (Rejected error)
  end.

Definition subscribeToEntities (callback : nat) : M unit :=
  modify (fun st => set_entityCallbacks (entityCallbacks st ++ [callback]) st) ;;
  st ← gets id;
  if connected st && negb (bool_decide (is_Some (pollingInterval st)))
  then _startPolling else mret tt.

Definition subscribeToConnectionState (callback : nat) : M unit :=
  modify (fun st => set_connectionCallbacks (connectionCallbacks st ++ [callback]) st) ;;
  st ← gets id;
  callAll [callback] (fun cb => ConnectionCallback cb (getConnectionState st)).

Definition subscribeToErrors (callback : nat) : M unit :=
  modify (fun st => set_errorCallbacks (errorCallbacks st ++ [callback]) st).

Section Polling.
(** [JSON.stringify] on attribute objects. *)
Variable stringify : Obj -> string.

(** The test that makes the loop of [_pollEntities] [continue]. *)
Definition unchanged (oldState : option Entity) (entity : Entity) : bool :=
  match oldState with
  | Some oldState =>
      bool_decide (state oldState = state entity)
      && bool_decide (stringify (attributes oldState) = stringify (attributes entity))
  | None => false
  end.

(** The body of the loop over the fetched entities. *)
Definition pollEntity (entity : Entity) : M unit :=
  let entityId := entity_id entity in
  oldState ← gets (fun st => lastStates st !! entityId);
  if unchanged oldState entity then mret tt
  else
    callbacks ← gets entityCallbacks;
    callAll callbacks (fun cb => EntityCallback cb entityId entity oldState) ;;
    modify (fun st => set_lastStates (<[entityId := entity]> (lastStates st)) st).

(** The test with which [_pollEntities] begins: whether it returns at
    once, without making its request.  It is made once, before the
    request. *)
Definition pollReturns (st : Adapter) : bool :=
  negb (connected st) || (length (entityCallbacks st) =? 0)%nat.

(** What [_pollEntities] does once its [getStates] request has settled:
    the part after the [await], which tests nothing again and reads the
    listeners and the remembered states as they are by then. *)
Definition pollSettled (fetched : Outcome (list Entity)) : M unit :=
  match fetched with
  | Resolved entities => for_of entities pollEntity
  | Rejected error => _handleApiError error
  end.

(** A poll cycle during whose request nothing else happens to the
    adapter; [fetched] is the outcome of the request.  (A cycle during
    whose request something does happen is a [pollReturns] that gives
    [false], what happens, and then [pollSettled].) *)
Definition _pollEntities (fetched : Outcome (list Entity)) : M unit :=
  st ← gets id;
  if pollReturns st then mret tt else pollSettled fetched.

End Polling.

(** The errors passed to error callbacks among a list of effects. *)
Definition errorsRaised (l : list Effect) : list Error :=
  omap (fun e => match e with ErrorCallback _ err => Some err | _ => None end) l.

(** An effect is a change notification for [entityId]. *)
Definition notifies (entityId : string) (e : Effect) : Prop :=
  match e with
  | EntityCallback _ id _ _ => id = entityId
  | _ => False
  end.

(** An effect is the call of a registered callback with a fetched entity,
    under its own id, that failed the test against the old state passed
    along. *)
Definition firedForChange (stringify : Obj -> string) (callbacks : list nat)
    (fetched : list Entity) (e : Effect) : Prop :=
  match e with
  | EntityCallback cb id newState oldState =>
      cb ∈ callbacks /\ newState ∈ fetched /\ id = entity_id newState /\
      unchanged stringify oldState newState = false
  | _ => False
  end.

(** An entity agrees with another in state value and serialised
    attributes. *)
Definition sameAs (stringify : Obj -> string) (e1 e2 : Entity) : Prop :=
  state e2 = state e1 /\ stringify (attributes e2) = stringify (attributes e1).

End RestApiAdapter.

(** ** src/api/homeAssistantWebSocket.ts: the push transport *)

Module WebSocketApi.
Import Json Types Protocol.

(** A promise: pending, or settled once and for all. *)
Inductive Promise : Type :=
| Pending
| Fulfilled (v : option JSON)
| RejectedWith (e : Error).

(** A [WebSocket] object made by [connect]: its ready state, and the
    promise whose [resolve] and [reject] its handlers hold. *)
Record SocketObj : Type := {
  readyState : ReadyState;
  connectPromise : nat
}.

(** Calls of registered callbacks (named by the program that registers
    them) and calls on sockets. *)
Inductive Effect : Type :=
| StateChanged (cb : nat) (entityId : string) (newState oldState : option Entity)
| ConnectionStateChanged (cb : nat) (state : ConnectionState)
| ErrorRaised (cb : nat) (error : Error)
| Send (socket : nat) (msg : Outgoing)
| Close (socket : nat).

(** The fields of [HomeAssistantWebSocketApi], followed by the objects it
    has created ([socket] and the values of [pendingCommands] point into
    them) and the calls it has made.  A timer field holds the delay of the
    timer that is running.  The value stored under an id in
    [pendingCommands] is the callback that resolves that promise. *)
Record Api : Type := {
  accessToken : string;
  socket : option nat;
  connectionState : ConnectionState;
  messageId : Z;
  pendingCommands : gmap Z nat;
  stateChangedCallbacks : list nat;
  connectionStateCallbacks : list nat;
  errorCallbacks : list nat;
  reconnectTimer : option Z;
  heartbeatTimer : option Z;
  reconnectAttempts : Z;
  sockets : list SocketObj;
  promises : list Promise;
  effects : list Effect
}.

Definition set_socket (v : option nat) (st : Api) : Api :=
  {| accessToken := accessToken st;
     socket := v;
     connectionState := connectionState st;
     messageId := messageId st;
     pendingCommands := pendingCommands st;
     stateChangedCallbacks := stateChangedCallbacks st;
     connectionStateCallbacks := connectionStateCallbacks st;
     errorCallbacks := errorCallbacks st;
     reconnectTimer := reconnectTimer st;
     heartbeatTimer := heartbeatTimer st;
     reconnectAttempts := reconnectAttempts st;
     sockets := sockets st;
     promises := promises st;
     effects := effects st |}.

Definition set_connectionState (v : ConnectionState) (st : Api) : Api :=
  {| accessToken := accessToken st;
     socket := socket st;
     connectionState := v;
     messageId := messageId st;
     pendingCommands := pendingCommands st;
     stateChangedCallbacks := stateChangedCallbacks st;
     connectionStateCallbacks := connectionStateCallbacks st;
     errorCallbacks := errorCallbacks st;
     reconnectTimer := reconnectTimer st;
     heartbeatTimer := heartbeatTimer st;
     reconnectAttempts := reconnectAttempts st;
     sockets := sockets st;
     promises := promises st;
     effects := effects st |}.

Definition set_messageId (v : Z) (st : Api) : Api :=
  {| accessToken := accessToken st;
     socket := socket st;
     connectionState := connectionState st;
     messageId := v;
     pendingCommands := pendingCommands st;
     stateChangedCallbacks := stateChangedCallbacks st;
     connectionStateCallbacks := connectionStateCallbacks st;
     errorCallbacks := errorCallbacks st;
     reconnectTimer := reconnectTimer st;
     heartbeatTimer := heartbeatTimer st;
     reconnectAttempts := reconnectAttempts st;
     sockets := sockets st;
     promises := promises st;
     effects := effects st |}.

Definition set_pendingCommands (v : gmap Z nat) (st : Api) : Api :=
  {| accessToken := accessToken st;
     socket := socket st;
     connectionState := connectionState st;
     messageId := messageId st;
     pendingCommands := v;
     stateChangedCallbacks := stateChangedCallbacks st;
     connectionStateCallbacks := connectionStateCallbacks st;
     errorCallbacks := errorCallbacks st;
     reconnectTimer := reconnectTimer st;
     heartbeatTimer := heartbeatTimer st;
     reconnectAttempts := reconnectAttempts st;
     sockets := sockets st;
     promises := promises st;
     effects := effects st |}.

Definition set_stateChangedCallbacks (v : list nat) (st : Api) : Api :=
  {| accessToken := accessToken st;
     socket := socket st;
     connectionState := connectionState st;
     messageId := messageId st;
     pendingCommands := pendingCommands st;
     stateChangedCallbacks := v;
     connectionStateCallbacks := connectionStateCallbacks st;
     errorCallbacks := errorCallbacks st;
     reconnectTimer := reconnectTimer st;
     heartbeatTimer := heartbeatTimer st;
     reconnectAttempts := reconnectAttempts st;
     sockets := sockets st;
     promises := promises st;
     effects := effects st |}.

Definition set_connectionStateCallbacks (v : list nat) (st : Api) : Api :=
  {| accessToken := accessToken st;
     socket := socket st;
     connectionState := connectionState st;
     messageId := messageId st;
     pendingCommands := pendingCommands st;
     stateChangedCallbacks := stateChangedCallbacks st;
     connectionStateCallbacks := v;
     errorCallbacks := errorCallbacks st;
     reconnectTimer := reconnectTimer st;
     heartbeatTimer := heartbeatTimer st;
     reconnectAttempts := reconnectAttempts st;
     sockets := sockets st;
     promises := promises st;
     effects := effects st |}.

Definition set_errorCallbacks (v : list nat) (st : Api) : Api :=
  {| accessToken := accessToken st;
     socket := socket st;
     connectionState := connectionState st;
     messageId := messageId st;
     pendingCommands := pendingCommands st;
     stateChangedCallbacks := stateChangedCallbacks st;
     connectionStateCallbacks := connectionStateCallbacks st;
     errorCallbacks := v;
     reconnectTimer := reconnectTimer st;
     heartbeatTimer := heartbeatTimer st;
     reconnectAttempts := reconnectAttempts st;
     sockets := sockets st;
     promises := promises st;
     effects := effects st |}.

Definition set_reconnectTimer (v : option Z) (st : Api) : Api :=
  {| accessToken := accessToken st;
     socket := socket st;
     connectionState := connectionState st;
     messageId := messageId st;
     pendingCommands := pendingCommands st;
     stateChangedCallbacks := stateChangedCallbacks st;
     connectionStateCallbacks := connectionStateCallbacks st;
     errorCallbacks := errorCallbacks st;
     reconnectTimer := v;
     heartbeatTimer := heartbeatTimer st;
     reconnectAttempts := reconnectAttempts st;
     sockets := sockets st;
     promises := promises st;
     effects := effects st |}.

Definition set_heartbeatTimer (v : option Z) (st : Api) : Api :=
  {| accessToken := accessToken st;
     socket := socket st;
     connectionState := connectionState st;
     messageId := messageId st;
     pendingCommands := pendingCommands st;
     stateChangedCallbacks := stateChangedCallbacks st;
     connectionStateCallbacks := connectionStateCallbacks st;
     errorCallbacks := errorCallbacks st;
     reconnectTimer := reconnectTimer st;
     heartbeatTimer := v;
     reconnectAttempts := reconnectAttempts st;
     sockets := sockets st;
     promises := promises st;
     effects := effects st |}.

Definition set_reconnectAttempts (v : Z) (st : Api) : Api :=
  {| accessToken := accessToken st;
     socket := socket st;
     connectionState := connectionState st;
     messageId := messageId st;
     pendingCommands := pendingCommands st;
     stateChangedCallbacks := stateChangedCallbacks st;
     connectionStateCallbacks := connectionStateCallbacks st;
     errorCallbacks := errorCallbacks st;
     reconnectTimer := reconnectTimer st;
     heartbeatTimer := heartbeatTimer st;
     reconnectAttempts := v;
     sockets := sockets st;
     promises := promises st;
     effects := effects st |}.

Definition set_sockets (v : list SocketObj) (st : Api) : Api :=
  {| accessToken := accessToken st;
     socket := socket st;
     connectionState := connectionState st;
     messageId := messageId st;
     pendingCommands := pendingCommands st;
     stateChangedCallbacks := stateChangedCallbacks st;
     connectionStateCallbacks := connectionStateCallbacks st;
     errorCallbacks := errorCallbacks st;
     reconnectTimer := reconnectTimer st;
     heartbeatTimer := heartbeatTimer st;
     reconnectAttempts := reconnectAttempts st;
     sockets := v;
     promises := promises st;
     effects := effects st |}.

Definition set_promises (v : list Promise) (st : Api) : Api :=
  {| accessToken := accessToken st;
     socket := socket st;
     connectionState := connectionState st;
     messageId := messageId st;
     pendingCommands := pendingCommands st;
     stateChangedCallbacks := stateChangedCallbacks st;
     connectionStateCallbacks := connectionStateCallbacks st;
     errorCallbacks := errorCallbacks st;
     reconnectTimer := reconnectTimer st;
     heartbeatTimer := heartbeatTimer st;
     reconnectAttempts := reconnectAttempts st;
     sockets := sockets st;
     promises := v;
     effects := effects st |}.

Definition set_effects (v : list Effect) (st : Api) : Api :=
  {| accessToken := accessToken st;
     socket := socket st;
     connectionState := connectionState st;
     messageId := messageId st;
     pendingCommands := pendingCommands st;
     stateChangedCallbacks := stateChangedCallbacks st;
     connectionStateCallbacks := connectionStateCallbacks st;
     errorCallbacks := errorCallbacks st;
     reconnectTimer := reconnectTimer st;
     heartbeatTimer := heartbeatTimer st;
     reconnectAttempts := reconnectAttempts st;
     sockets := sockets st;
     promises := promises st;
     effects := v |}.

Definition maxReconnectAttempts : Z := 5.
Definition reconnectDelay : Z := 1000.

Definition new (token : string) : Api :=
  {| accessToken := token; socket := None; connectionState := CLOSED;
     messageId := 1; pendingCommands := ∅; stateChangedCallbacks := [];
     connectionStateCallbacks := []; errorCallbacks := [];
     reconnectTimer := None; heartbeatTimer := None; reconnectAttempts := 0;
     sockets := []; promises := []; effects := [] |}.

Local Abbreviation M := (State Api).

Definition gets {A} (f : Api -> A) : M A := fun st => (f st, st).
Definition modify (f : Api -> Api) : M unit := fun st => (tt, f st).

Definition emit (e : Effect) : M unit :=
  modify (fun st => set_effects (effects st ++ [e]) st).

(** [for (const callback of callbacks) callback(...)]. *)
Definition callAll (callbacks : list nat) (call : nat -> Effect) : M unit :=
  modify (fun st => set_effects (effects st ++ map call callbacks) st).

(** [new Promise(...)], and the [resolve] and [reject] of a promise, which
    do nothing once it is settled. *)
Definition newPromise (initial : Promise) : M nat :=
  fun st => (length (promises st), set_promises (promises st ++ [initial]) st).

Definition settle (p : nat) (outcome : Promise) : M unit :=
  modify (fun st =>
    match promises st !! p with
    | Some Pending => set_promises (<[p := outcome]> (promises st)) st
    | _ => st
    end).

Definition resolve (p : nat) (v : option JSON) : M unit := settle p (Fulfilled v).
Definition reject (p : nat) (e : Error) : M unit := settle p (RejectedWith e).

Definition getConnectionState (st : Api) : ConnectionState := connectionState st.

Definition updateConnectionState (state : ConnectionState) : M unit :=
  current ← gets connectionState;
  if bool_decide (current = state) then mret tt
  else
    modify (set_connectionState state) ;;
    callbacks ← gets connectionStateCallbacks;
    callAll callbacks (fun cb => ConnectionStateChanged cb state).

Definition notifyError (error : Error) : M unit :=
  callbacks ← gets errorCallbacks;
  callAll callbacks (fun cb => ErrorRaised cb error).

Definition clearTimers : M unit :=
  modify (set_heartbeatTimer None) ;;
  modify (set_reconnectTimer None).

Definition setupHeartbeat : M unit :=
  clearTimers ;;
  modify (set_heartbeatTimer (Some 30000%Z)).

(** [this.socket.readyState], when there is a socket. *)
Definition socketReadyState (st : Api) : option ReadyState :=
  s ← socket st; readyState <$> sockets st !! s.

Definition setReadyState (s : nat) (rs : ReadyState) : M unit :=
  modify (fun st =>
    match sockets st !! s with
    | Some o =>
        set_sockets
          (<[s := {| readyState := rs; connectPromise := connectPromise o |}]> (sockets st))
          st
    | None => st
    end).

(** The executor that [connect] passes to [new Promise], given whether
    [new WebSocket(wsUrl)] returns or throws; [p] is the promise whose
    [resolve] and [reject] it receives. *)
Definition connectExecutor (created : Outcome unit) (p : nat) : M unit :=
  rs ← gets socketReadyState;
  if bool_decide (rs = Some WS_OPEN) || bool_decide (rs = Some WS_CONNECTING) then
    resolve p None
  else
    updateConnectionState CONNECTING ;;
    match created with
    | Resolved _ =>
        s ← gets (fun st => length (sockets st));
        modify (fun st =>
          set_sockets (sockets st ++ [{| readyState := WS_CONNECTING; connectPromise := p |}]) st) ;;
        modify (set_socket (Some s))
    | Rejected error =>
        updateConnectionState ERROR ;;
        notifyError error ;;
        reject p error
    end.

(** [connect]; the result is the promise returned. *)
Definition connect (created : Outcome unit) : M nat :=
  p ← newPromise Pending;
  connectExecutor created p ;;
  mret p.

Definition disconnect : M unit :=
  clearTimers ;;
  s ← gets socket;
  match s with
  | Some s =>
      emit (Close s) ;;
      rs ← gets (fun st => readyState <$> sockets st !! s);
      (if bool_decide (rs = Some WS_OPEN) || bool_decide (rs = Some WS_CONNECTING)
       then setReadyState s WS_CLOSING else mret tt) ;;
      modify (set_socket None)
  | None => mret tt
  end ;;
  updateConnectionState CLOSED.

(** [this.messageId++] leaves [increment n] in the counter, for the values
    that the counter takes: it starts at 1 and is only ever incremented.
    It is a JavaScript number, a double: up to [2 ^ 53] the increment is
    exact, and [2 ^ 53 + 1] rounds back to [2 ^ 53], where the counter
    stays for good. *)
Definition increment (n : Z) : Z :=
  if (n <? 2 ^ 53)%Z then (n + 1)%Z else n.
Arguments increment : simpl never.

(** [{ id, type: command, ...params }]: the properties of [params] come
    last, so that an [id] or a [type] among them replaces the one that
    [sendCommand] has put there. *)
Definition commandMessage (id : Z) (command : string) (params : Obj) : Obj :=
  assign [("id", JNum id); ("type", JStr command)] params.

(** The executor that [sendCommand] passes to [new Promise]. *)
Definition sendCommandExecutor (command : string) (params : Obj) (p : nat) : M unit :=
  st ← gets id;
  match socket st with
  | Some s =>
      if bool_decide (socketReadyState st = Some WS_OPEN)
         && bool_decide (connectionState st = CONNECTED) then
        let id := messageId st in
        modify (set_messageId (increment id)) ;;
        modify (fun st => set_pendingCommands (<[id := p]> (pendingCommands st)) st) ;;
        emit (Send s (OutCommand (commandMessage id command params)))
      else reject p (mkError "WebSocket not connected")
  | None => reject p (mkError "WebSocket not connected")
  end.

(** [sendCommand]; the result is the promise returned. *)
Definition sendCommand (command : string) (params : Obj) : M nat :=
  p ← newPromise Pending;
  sendCommandExecutor command params p ;;
  mret p.

Definition subscribeEntities (callback : nat) (entityIds : option (list string)) : M nat :=
  modify (fun st => set_stateChangedCallbacks (stateChangedCallbacks st ++ [callback]) st) ;;
  current ← gets connectionState;
  if bool_decide (current = CONNECTED) then
    sendCommand "subscribe_events"
      (("event_type", JStr "state_changed")
       :: match entityIds with
          | Some ids => [("entity_ids", JArr (map JStr ids))]
          | None => []
          end)
  else newPromise (Fulfilled (Some (JNum (-1)))).

Definition subscribeConnectionState (callback : nat) : M unit :=
  modify (fun st => set_connectionStateCallbacks (connectionStateCallbacks st ++ [callback]) st) ;;
  current ← gets connectionState;
  callAll [callback] (fun cb => ConnectionStateChanged cb current).

Definition subscribeError (callback : nat) : M unit :=
  modify (fun st => set_errorCallbacks (errorCallbacks st ++ [callback]) st).

Definition getStates : M nat := sendCommand "get_states" [].
Definition getServices : M nat := sendCommand "get_services" [].
Definition getConfig : M nat := sendCommand "get_config" [].

Definition callService (domain service : string) (data : Obj) : M nat :=
  sendCommand "call_service"
    [("domain", JStr domain); ("service", JStr service); ("service_data", JObj data)].

Definition authenticate : M unit :=
  s ← gets socket;
  match s with
  | None => mret tt
  | Some s => token ← gets accessToken; emit (Send s (OutAuth token))
  end.

(** [message.error?.message || 'Unknown error']. *)
Definition failureText (error : option ResultError) : string :=
  match error with
  | Some e => if bool_decide (error_message e = EmptyString) then "Unknown error" else error_message e
  | None => "Unknown error"
  end.

Definition handleResult (id : Z) (success : bool) (result : option JSON)
    (error : option ResultError) : M unit :=
  callback ← gets (fun st => pendingCommands st !! id);
  match callback with
  | Some callback =>
      modify (fun st => set_pendingCommands (delete id (pendingCommands st)) st) ;;
      if success then resolve callback result
      else notifyError (mkError ("Command failed: " ++ failureText error))
  | None => mret tt
  end.

Definition handleEvent (event_type : string) (data : StateChangedEventData) : M unit :=
  if bool_decide (event_type = "state_changed") then
    callbacks ← gets stateChangedCallbacks;
    callAll callbacks
      (fun cb => StateChanged cb (data_entity_id data) (new_state data) (old_state data))
  else mret tt.

(** [handleMessage]; [connectP] is the promise whose [resolveConnect] and
    [rejectConnect] are passed in. *)
Definition handleMessage (data : Incoming) (connectP : nat) : M unit :=
  match data with
  | Unparsable error => notifyError error
  | Parsed AuthRequired =>
      updateConnectionState AUTHENTICATING ;;
      authenticate
  | Parsed AuthOk =>
      updateConnectionState CONNECTED ;;
      resolve connectP None
  | Parsed (AuthInvalid message) =>
      updateConnectionState ERROR ;;
      let error := mkError ("Authentication failed: " ++ message) in
      notifyError error ;;
      reject connectP error
  | Parsed (Result id success result error) => handleResult id success result error
  | Parsed (Event _ event_type data) => handleEvent event_type data
  | Parsed Pong => mret tt
  | Parsed (OtherType _) => mret tt
  end.

Definition attemptReconnect : M unit :=
  timer ← gets reconnectTimer;
  match timer with
  | Some _ => mret tt
  | None =>
      attempts ← gets reconnectAttempts;
      if (maxReconnectAttempts <=? attempts)%Z then
        updateConnectionState ERROR ;;
        notifyError (mkError "Failed to reconnect after 5 attempts")
      else
        updateConnectionState RECONNECTING ;;
        let delay := (reconnectDelay * 2 ^ attempts)%Z in
        modify (set_reconnectTimer (Some delay))
  end.

(** *** The handlers that [connect] installs on the socket it creates

    Each takes the socket on which the browser fires the event; the ready
    state of that socket has changed by the time its handler runs. *)

Definition onopen (s : nat) : M unit :=
  setReadyState s WS_OPEN ;;
  modify (set_reconnectAttempts 0%Z) ;;
  setupHeartbeat.

Definition onmessage (s : nat) (data : Incoming) : M unit :=
  o ← gets (fun st => sockets st !! s);
  match o with
  | Some o => handleMessage data (connectPromise o)
  | None => mret tt
  end.

Definition onclose (s : nat) : M unit :=
  setReadyState s WS_CLOSED ;;
  updateConnectionState CLOSED ;;
  clearTimers ;;
  attemptReconnect.

(** [description] is [error.toString()] of the event; the promise is
    rejected with the event. *)
Definition onerror (s : nat) (description : string) : M unit :=
  o ← gets (fun st => sockets st !! s);
  match o with
  | Some o =>
      updateConnectionState ERROR ;;
      notifyError (mkError ("WebSocket error: " ++ description)) ;;
      reject (connectPromise o) (mkError description)
  | None => mret tt
  end.

(** *** Timers: a timer that has been cleared does not fire *)

Definition heartbeatTick : M unit :=
  timer ← gets heartbeatTimer;
  match timer with
  | None => mret tt
  | Some _ =>
      st ← gets id;
      match socket st with
      | Some s =>
          if bool_decide (socketReadyState st = Some WS_OPEN) then
            let id := messageId st in
            modify (set_messageId (increment id)) ;;
            emit (Send s (OutPing id))
          else mret tt
      | None => mret tt
      end
  end.

(** The callback given to [setTimeout] by [attemptReconnect]; a rejection
    of the promise of [connect] is caught and dropped. *)
Definition reconnectTimeout (created : Outcome unit) : M unit :=
  timer ← gets reconnectTimer;
  match timer with
  | None => mret tt
  | Some _ =>
      modify (set_reconnectTimer None) ;;
      modify (fun st => set_reconnectAttempts (reconnectAttempts st + 1)%Z st) ;;
      connect created ;;
      mret tt
  end.

(** *** Scenarios *)

(** A reconnection attempt that fails: the timer fires, the new socket
    reports an error and closes without having opened. *)
Definition failedAttempt : M unit :=
  reconnectTimeout (Resolved tt) ;;
  s ← gets socket;
  match s with
  | Some s => onerror s "[object Event]" ;; onclose s
  | None => mret tt
  end.

Fixpoint failedAttempts (n : nat) : M unit :=
  match n with
  | O => mret tt
  | S n => failedAttempts n ;; failedAttempt
  end.





(** *** Everything that can happen to the client

    The calls of its public methods, the events on the sockets that it has
    made, and its timers. *)

Inductive Input : Type :=
| Connect (created : Outcome unit)
| Disconnect
| SendCommand (command : string) (params : Obj)
| SubscribeEntities (callback : nat) (entityIds : option (list string))
| SubscribeConnectionState (callback : nat)
| SubscribeError (callback : nat)
| SocketOpen (s : nat)
| SocketMessage (s : nat) (data : Incoming)
| SocketClose (s : nat)
| SocketError (s : nat) (description : string)
| HeartbeatTick
| ReconnectTimeout (created : Outcome unit).

Definition step (i : Input) : M unit :=
  match i with
  | Connect created => connect created ;; mret tt
  | Disconnect => disconnect
  | SendCommand command params => sendCommand command params ;; mret tt
  | SubscribeEntities callback entityIds => subscribeEntities callback entityIds ;; mret tt
  | SubscribeConnectionState callback => subscribeConnectionState callback
  | SubscribeError callback => subscribeError callback
  | SocketOpen s => onopen s
  | SocketMessage s data => onmessage s data
  | SocketClose s => onclose s
  | SocketError s description => onerror s description
  | HeartbeatTick => heartbeatTick
  | ReconnectTimeout created => reconnectTimeout created
  end.

Definition run (inputs : list Input) : M unit := for_of inputs step.

(** *** The promises, the pending commands and the sockets *)

(** Two states with the same promises, pending commands and sockets. *)
Definition sameHeap (st st' : Api) : Prop :=
  promises st' = promises st /\ pendingCommands st' = pendingCommands st /\
  sockets st' = sockets st.

(** No callback in [pendingCommands] and no handler of a socket can settle
    the promise [p]. *)
Definition unreferenced (st : Api) (p : nat) : Prop :=
  (forall id, pendingCommands st !! id <> Some p) /\
  (forall s o, sockets st !! s = Some o -> connectPromise o <> p).

(** A pending promise that nothing can settle any more. *)
Definition abandoned (st : Api) (p : nat) : Prop :=
  promises st !! p = Some Pending /\ unreferenced st p.

(** A promise that exists and to which nothing refers yet. *)
Definition fresh (st : Api) (q : nat) : Prop :=
  (q < length (promises st))%nat /\ unreferenced st q.

(** The callbacks in [pendingCommands] and the handlers of the sockets hold
    promises that exist, and no two of them hold the same promise. *)
Definition wellFormed (st : Api) : Prop :=
  (forall id q, pendingCommands st !! id = Some q -> (q < length (promises st))%nat) /\
  (forall s o, sockets st !! s = Some o -> (connectPromise o < length (promises st))%nat) /\
  (forall id1 id2 q, pendingCommands st !! id1 = Some q ->
     pendingCommands st !! id2 = Some q -> id1 = id2) /\
  (forall s o id, sockets st !! s = Some o ->
     pendingCommands st !! id <> Some (connectPromise o)).

(** An invocation is outstanding: its id is in [pendingCommands] and its
    promise is pending. *)
Definition outstanding (st : Api) (id : Z) (p : nat) : Prop :=
  pendingCommands st !! id = Some p /\ promises st !! p = Some Pending.

(** Every invocation outstanding when [disconnect] is called fails. *)
Definition disconnectCancels (st : Api) : Prop :=
  forall id p, outstanding st id p ->
    exists e, promises (exec disconnect st) !! p = Some (RejectedWith e).

(** A client with one error listener (0) and one connection-state listener
    (7), in the middle of the handshake, connected, and with a service call
    in flight. *)
Definition authenticating : list Input :=
  [SubscribeError 0; SubscribeConnectionState 7; Connect (Resolved tt);
   SocketOpen 0; SocketMessage 0 (Parsed AuthRequired)].

Definition authenticatingApi : Api := exec (run authenticating) (new "token").

Definition connectedApi : Api :=
  exec (run (authenticating ++ [SocketMessage 0 (Parsed AuthOk)])) (new "token").

Definition inflightApi : Api :=
  exec (run (authenticating ++
             [SocketMessage 0 (Parsed AuthOk);
              SendCommand "call_service"
                [("domain", JStr "light"); ("service", JStr "turn_on");
                 ("service_data", JObj [("entity_id", JStr "light.lamp")])]]))
       (new "token").

(** The connected client with the activation of a scene in flight: the
    call that [activateScene] awaits through the facade. *)
Definition activatingApi : Api :=
  exec (run (authenticating ++
             [SocketMessage 0 (Parsed AuthOk);
              SendCommand "call_service"
                [("domain", JStr "scene"); ("service", JStr "turn_on");
                 ("service_data", JObj [("entity_id", JStr "scene.movie_night")])]]))
       (new "token").

(** After [k] failed attempts the client waits for the next one, which is
    due after [reconnectDelay * 2 ^ k]; after the fifth it has given up. *)
Definition reconnecting (k : Z) (st : Api) : Prop :=
  reconnectAttempts st = k /\
  heartbeatTimer st = None /\
  socketReadyState st <> Some WS_OPEN /\
  socketReadyState st <> Some WS_CONNECTING /\
  if (k <? maxReconnectAttempts)%Z then
    connectionState st = RECONNECTING /\
    reconnectTimer st = Some (reconnectDelay * 2 ^ k)%Z
  else
    connectionState st = ERROR /\ reconnectTimer st = None.

(** The errors passed to error callbacks among a list of effects. *)
Definition errorsRaised (l : list Effect) : list Error :=
  omap (fun e => match e with ErrorRaised _ err => Some err | _ => None end) l.

(** *** What the listeners have been told, and the ids that have been sent *)

(** The state that the effect [e] passes to the connection-state listener
    [cb], if it is a call of that listener. *)
Definition notified (cb : nat) (e : Effect) : option ConnectionState :=
  match e with
  | ConnectionStateChanged cb' state => if bool_decide (cb' = cb) then Some state else None
  | _ => None
  end.

(** The state passed to [cb] by its latest call. *)
Definition lastNotified (cb : nat) (l : list Effect) : option ConnectionState :=
  last (omap (notified cb) l).

(** Every registered connection-state listener has been called, and its
    latest call gave it the state that the client is in. *)
Definition informed (st : Api) : Prop :=
  forall cb, cb ∈ connectionStateCallbacks st ->
    lastNotified cb (effects st) = Some (connectionState st).

(** The number that a command or a ping written to a socket carries as its
    [id]. *)
Definition sentId (e : Effect) : option Z :=
  match e with
  | Send _ (OutCommand message) =>
      match get "id" message with
      | Some (JNum id) => Some id
      | _ => None
      end
  | Send _ (OutPing id) => Some id
  | _ => None
  end.

Definition sentIds (l : list Effect) : list Z := omap sentId l.

(** The ids sent so far are strictly increasing, and all of them are below
    the id that the next message will get, the value of the counter, which
    is a positive integer. *)
Definition idsFresh (st : Api) : Prop :=
  (forall i j x y, (i < j)%nat -> sentIds (effects st) !! i = Some x ->
     sentIds (effects st) !! j = Some y -> (x < y)%Z) /\
  (forall x, x ∈ sentIds (effects st) -> (x < messageId st)%Z) /\
  (0 < messageId st)%Z.

(** A call of [sendCommand] whose parameters have no [id] of their own to
    put in the place of the one that the client assigns. *)
Definition plainCommand (i : Input) : Prop :=
  match i with
  | SendCommand _ params => get "id" params = None
  | _ => True
  end.

(** An effect that is neither a call of a connection-state listener nor a
    message that carries an id. *)
Definition silent (e : Effect) : Prop :=
  (forall cb, notified cb e = None) /\ sentId e = None.

(** Two states with the same connection state, connection-state listeners,
    next message id and effects. *)
Definition sameSignals (st st' : Api) : Prop :=
  connectionState st' = connectionState st /\
  connectionStateCallbacks st' = connectionStateCallbacks st /\
  messageId st' = messageId st /\
  effects st' = effects st.

End WebSocketApi.

(** ** src/api/homeAssistant.ts: the REST client *)

Module RestClient.
Import Json Types.

(** What [fetch] gives: a response with its status line and the outcome of
    reading its body as JSON, or the [Error] with which it rejects (a
    [TypeError] when the host cannot be reached). *)
Record Response (A : Type) : Type := {
  resp_status : Z;
  resp_statusText : string;
  resp_json : Outcome A
}.
Arguments resp_status {A} _.
Arguments resp_statusText {A} _.
Arguments resp_json {A} _.

Inductive Fetched (A : Type) : Type :=
| FetchFailed (e : Error)
| Responded (r : Response A).
Arguments FetchFailed {A} e.
Arguments Responded {A} r.

(** [response.ok]. *)
Definition ok {A} (r : Response A) : bool :=
  (200 <=? resp_status r)%Z && (resp_status r <=? 299)%Z.

(** The [ApiError] thrown for a response that is not [ok]. *)
Definition apiError {A} (r : Response A) : Error :=
  {| message := "API request failed: " ++ pretty (resp_status r) ++ " " ++ resp_statusText r;
     status := Some (resp_status r) |}.

(** [request], given what [fetch] gave. *)
Definition request {A} (fetched : Fetched A) : Outcome A :=
  match fetched with
  | FetchFailed e => Rejected e
  | Responded r => if ok r then resp_json r else Rejected (apiError r)
  end.

End RestClient.

(** ** src/api/types.ts: grouping entities by domain *)

Module Grouping.
Import Json Types.

(** [entities.forEach(...)] on the object [domains], whose own properties
    are the groups made so far; [None] when the callback throws: for a
    domain that is one of the [inherited] names, [domains[domain]] is truthy
    and [domains[domain].push] is not a function. *)
Fixpoint forEach (domains : gmap string (list Entity)) (entities : list Entity)
  : option (gmap string (list Entity)) :=
  match entities with
  | [] => Some domains
  | entity :: rest =>
      let domain := SceneContext.domainOf (entity_id entity) in
      match domains !! domain with
      | Some group => forEach (<[domain := (group ++ [entity])%list]> domains) rest
      | None =>
          if bool_decide (domain ∈ inherited) then None
          else forEach (<[domain := [entity]]> domains) rest
      end
  end.

Definition groupEntitiesByDomain (entities : list Entity)
  : option (gmap string (list Entity)) :=
  forEach ∅ entities.

(** The entities of a domain, in the order of the list. *)
Definition ofDomain (domain : string) (entities : list Entity) : list Entity :=
  filter (fun entity => SceneContext.domainOf (entity_id entity) = domain) entities.

End Grouping.

(** ** Concrete data for the scenarios *)

Module Examples.
Import Json Types Protocol.

Definition quote : string := String (ascii_of_nat 34) EmptyString.

(** A serialiser for attribute objects in the format of [JSON.stringify]
    (strings are written without escapes). *)
Fixpoint serialize (v : JSON) : string :=
  match v with
  | JNull => "null"
  | JBool b => if b then "true" else "false"
  | JNum z => pretty z
  | JStr s => quote ++ s ++ quote
  | JArr items =>
      "[" ++ (fix go (l : list JSON) : string :=
                match l with
                | [] => EmptyString
                | [x] => serialize x
                | x :: rest => serialize x ++ "," ++ go rest
                end) items ++ "]"
  | JObj props =>
      "{" ++ (fix go (l : list (string * JSON)) : string :=
                match l with
                | [] => EmptyString
                | [(k, x)] => quote ++ k ++ quote ++ ":" ++ serialize x
                | (k, x) :: rest =>
                    quote ++ k ++ quote ++ ":" ++ serialize x ++ "," ++ go rest
                end) props ++ "}"
  end.

Definition stringify (o : Obj) : string := serialize (JObj o).

Definition mkEntity (id st : string) (attrs : Obj) (stamp : string) : Entity :=
  {| entity_id := id; state := st; attributes := attrs;
     last_changed := stamp; last_updated := stamp;
     context := {| ctx_id := "ctx"; parent_id := None; user_id := None |} |}.

Definition lampOn : Entity :=
  mkEntity "light.lamp" "on"
    [("brightness", JNum 180); ("friendly_name", JStr "Lamp");
     ("supported_color_modes", JArr [JStr "brightness"])]
    "2024-05-01T20:00:00+00:00".

(** The lamp switched off, with an earlier timestamp than [lampOn]. *)
Definition lampOffEarlier : Entity :=
  mkEntity "light.lamp" "off" [("friendly_name", JStr "Lamp")]
    "2024-05-01T19:00:00+00:00".

Definition fanOff : Entity :=
  mkEntity "switch.fan" "off" [("friendly_name", JStr "Fan")]
    "2024-05-01T20:00:00+00:00".

Definition movieNight : Entity :=
  mkEntity "scene.movie_night" "scening"
    [("entities",
      JObj [("light.lamp", JObj [("state", JStr "on"); ("brightness", JNum 40)]);
            ("switch.fan", JObj [("state", JStr "on")])])]
    "2024-05-01T18:00:00+00:00".

Definition table : list Entity := [movieNight; lampOn; fanOff].

(** The lamp is reported on, then off by an entity that is older. *)
Definition lampNotifications : list Facade.Notification :=
  [ {| Facade.n_entityId := "light.lamp"; Facade.n_newState := Some lampOn;
       Facade.n_oldState := None |};
    {| Facade.n_entityId := "light.lamp"; Facade.n_newState := None;
       Facade.n_oldState := Some lampOn |};
    {| Facade.n_entityId := "light.lamp"; Facade.n_newState := Some lampOffEarlier;
       Facade.n_oldState := Some lampOn |} ].

(** A facade on which every call succeeds; one over the pull transport on
    which the controller refuses every service call, whose promise is then
    rejected; and one over the push transport on which it does, whose
    promise then never settles. *)
Definition envOk : SceneContext.Env :=
  {| SceneContext.refreshEntities_result := Settles (Resolved table);
     SceneContext.callService_result := fun _ => Settles (Resolved JNull) |}.

Definition envRejecting : SceneContext.Env :=
  {| SceneContext.refreshEntities_result := Settles (Resolved table);
     SceneContext.callService_result := fun _ =>
       Settles (Rejected (mkError "API request failed: 500 Internal Server Error")) |}.

Definition envPushRefused : SceneContext.Env :=
  {| SceneContext.refreshEntities_result := Settles (Resolved table);
     SceneContext.callService_result := fun _ => NeverSettles |}.

Definition noScenes : SceneContext.SceneState :=
  {| SceneContext.activeScenes := ∅; SceneContext.effects := [] |}.

(** A connected pull transport with one listener of each kind. *)
Definition polling : RestApiAdapter.Adapter :=
  exec (RestApiAdapter.subscribeToConnectionState 0 ;;
        RestApiAdapter.subscribeToErrors 1 ;;
        RestApiAdapter.subscribeToEntities 2 ;;
        RestApiAdapter.connect (Resolved table))
       RestApiAdapter.new.

End Examples.

(* ------------------------------------------------------------------ *)
(** * Properties *)

Lemma exec_for_of_cons {S A} (x : A) (xs : list A) (body : A -> State S unit) (s : S) :
  exec (for_of (x :: xs) body) s = exec (for_of xs body) (exec (body x) s).
Proof.
  unfold exec. simpl. unfold mbind, state_bind.
  by destruct (body x s) as [[] s'].
Qed.

Lemma exec_bind {S A B} (m : State S A) (k : A -> State S B) (s : S) :
  exec (m ≫= k) s = exec (k (eval m s)) (exec m s).
Proof. unfold exec, eval, mbind, state_bind. by destruct (m s). Qed.

Lemma exec_for_of_nil {S A} (body : A -> State S unit) (s : S) :
  exec (for_of [] body) s = s.
Proof. reflexivity. Qed.

(** ** The entity table *)

Section FacadeProperties.
Import Json Types Facade.

Lemma findIndex_Some_find {A} (p : A -> bool) (l : list A) (i : nat) :
  findIndex p l = Some i ->
  exists x, l !! i = Some x /\ p x = true /\ find p (take i l) = None.
Proof.
  revert i. induction l as [|a l IH]; intros i; simpl; [done|].
  destruct (p a) eqn:Hp.
  - intros [= <-]. exists a. by rewrite take_0.
  - destruct (findIndex p l) as [j|] eqn:Hj; simpl; [|done].
    intros [= <-]. destruct (IH j eq_refl) as (x & Hx & Hpx & Hpre).
    exists x. simpl. by rewrite Hp.
Qed.

Lemma findIndex_None_find {A} (p : A -> bool) (l : list A) :
  findIndex p l = None -> find p l = None.
Proof.
  induction l as [|a l IH]; simpl; [done|].
  destruct (p a); [done|].
  destruct (findIndex p l); simpl; [done|]. auto.
Qed.

Lemma find_app_None {A} (p : A -> bool) (l1 l2 : list A) :
  find p l1 = None -> find p (l1 ++ l2) = find p l2.
Proof.
  induction l1 as [|a l1 IH]; simpl; [done|].
  destruct (p a); [done|]. auto.
Qed.

(** A delivered entity becomes the one that a query by its id returns. *)
Lemma getEntity_handle_Some entityId e oldState entities :
  entity_id e = entityId ->
  getEntity (handleEntityStateChange entityId (Some e) oldState entities) entityId
  = Some e.
Proof.
  intros He. unfold getEntity, handleEntityStateChange.
  set (p := fun x : Entity => bool_decide (entity_id x = entityId)).
  assert (Hpe : p e = true) by (unfold p; by apply bool_decide_eq_true).
  destruct (findIndex p entities) as [i|] eqn:Hi.
  - destruct (findIndex_Some_find _ _ _ Hi) as (x & Hx & _ & Hpre).
    rewrite (insert_take_drop entities i e);
      [|by eapply lookup_lt_Some].
    rewrite find_app_None; [|done]. simpl. by rewrite Hpe.
  - rewrite find_app_None; [|by apply findIndex_None_find].
    simpl. by rewrite Hpe.
Qed.

Lemma deliverAll_snoc ns n entities :
  deliverAll (ns ++ [n]) entities = deliver (deliverAll ns entities) n.
Proof. unfold deliverAll. by rewrite fold_left_app. Qed.

Lemma lastDelivered_snoc ns n :
  lastDelivered (ns ++ [n]) =
    match n_newState n with Some e => Some e | None => lastDelivered ns end.
Proof.
  induction ns as [|m ns IH]; simpl.
  - by destruct (n_newState n).
  - rewrite IH. by destruct (n_newState n).
Qed.

(** C1: after any sequence of change notifications for one entity id,
    delivered in arrival order, a query of the entity table by that id
    returns the entity carried by the last notification that carries one
    (and what it returned before the sequence if none does).  Nothing in
    the statement looks at the timestamps of the entities. *)
Theorem last_write_wins entityId (ns : list Notification) (entities : list Entity) :
  Forall (notificationFor entityId) ns ->
  getEntity (deliverAll ns entities) entityId =
    match lastDelivered ns with
    | Some e => Some e
    | None => getEntity entities entityId
    end.
Proof.
  induction ns as [|n ns IH] using rev_ind; intros Hall; [done|].
  apply Forall_app in Hall as [Hns Hn].
  apply Forall_singleton in Hn as [Hid Hent].
  rewrite deliverAll_snoc, lastDelivered_snoc. unfold deliver.
  destruct (n_newState n) as [e|] eqn:Hnew.
  - rewrite Hid. apply getEntity_handle_Some. by apply Hent.
  - simpl. by apply IH.
Qed.

(** The theorem on the lamp: reported on, then a notification without an
    entity, then reported off by an entity with an earlier timestamp; the
    table ends with the last one. *)
Lemma last_write_wins_witness :
  Forall (notificationFor "light.lamp") Examples.lampNotifications /\
  getEntity (deliverAll Examples.lampNotifications Examples.table) "light.lamp"
  = Some Examples.lampOffEarlier.
Proof.
  assert (H : Forall (notificationFor "light.lamp") Examples.lampNotifications).
  { repeat constructor; simpl; intros e He; inversion He; reflexivity. }
  split; [exact H|].
  exact (last_write_wins "light.lamp" Examples.lampNotifications Examples.table H).
Defined.

(** C10: a notification whose new entity is [null] leaves the whole table
    as it was. *)
Theorem null_notification_keeps_table entityId oldState (entities : list Entity) :
  handleEntityStateChange entityId None oldState entities = entities.
Proof. reflexivity. Qed.

End FacadeProperties.

(** ** The scene engine *)

Section SceneProperties.
Import Json Types Facade SceneContext.
Local Open Scope list_scope.

Local Ltac run_state :=
  unfold exec, eval, mbind, state_bind, mret, state_ret; simpl.

Lemma serviceCalls_app l1 l2 :
  serviceCalls (l1 ++ l2) = serviceCalls l1 ++ serviceCalls l2.
Proof. apply omap_app. Qed.

Lemma captureEntityStates_cons entities id ids :
  captureEntityStates entities (id :: ids) =
    (y ← captureEntityState entities id;
     k ← captureEntityStates entities ids;
     mret (y :: k)).
Proof. reflexivity. Qed.

(** Capturing states only writes to the console. *)
Lemma captureEntityStates_effects entities ids st :
  activeScenes (exec (captureEntityStates entities ids) st) = activeScenes st /\
  exists pre,
    effects (exec (captureEntityStates entities ids) st) = effects st ++ pre /\
    serviceCalls pre = [].
Proof.
  revert st. induction ids as [|id ids IH]; intros st.
  - split; [done|]. exists []. by rewrite app_nil_r.
  - rewrite captureEntityStates_cons. unfold captureEntityState.
    destruct (getEntity entities id) as [e|]; run_state.
    + destruct (IH st) as [Ha (pre & Hpre & Hcalls)]. revert Ha Hpre.
      run_state. destruct (captureEntityStates entities ids st) as [l st1].
      simpl. eauto.
    + match goal with |- context [captureEntityStates entities ids ?s] =>
        destruct (IH s) as [Ha (pre & Hpre & Hcalls)]; revert Ha Hpre;
        run_state; destruct (captureEntityStates entities ids s) as [l st1] end.
      simpl. intros -> ->. split; [done|].
      eexists (_ :: pre). rewrite <- app_assoc. split; [done|]. done.
Qed.

Lemma getSceneEntities_effects scene st :
  activeScenes (exec (getSceneEntities scene) st) = activeScenes st /\
  exists pre,
    effects (exec (getSceneEntities scene) st) = effects st ++ pre /\
    serviceCalls pre = [].
Proof.
  unfold getSceneEntities.
  destruct (get "entities" (attributes scene)) as [v|]; [destruct (truthy v)|];
    run_state; (split; [done|]); eexists; split;
    try reflexivity; try (symmetry; apply app_nil_r); done.
Qed.

(** The snapshots captured do not depend on what has been logged. *)
Lemma captureEntityStates_eval entities ids st st0 :
  eval (captureEntityStates entities ids) st =
  eval (captureEntityStates entities ids) st0.
Proof.
  revert st st0. induction ids as [|id ids IH]; intros st st0; [done|].
  rewrite captureEntityStates_cons. unfold captureEntityState.
  destruct (getEntity entities id) as [e|]; run_state.
  - specialize (IH st st0). revert IH. run_state.
    destruct (captureEntityStates entities ids st) as [l st1],
      (captureEntityStates entities ids st0) as [l0 st2]. simpl. congruence.
  - match goal with
    | |- context [captureEntityStates entities ids ?s1] =>
        match goal with
        | |- context [captureEntityStates entities ids ?s2] =>
            lazymatch s1 with
            | s2 => fail
            | _ => specialize (IH s1 s2); revert IH; run_state;
                   destruct (captureEntityStates entities ids s1) as [l st1],
                     (captureEntityStates entities ids s2) as [l0 st2]
            end
        end
    end.
    simpl. congruence.
Qed.

(** The records that are own properties of [activeScenes] decide what
    [isSceneActive] gives, but for the inherited names. *)
Lemma isSceneActive_own st sceneId record :
  activeScenes st !! sceneId = Some record -> isSceneActive st sceneId = true.
Proof. intros H. unfold isSceneActive, lookupScene. by rewrite H. Qed.

Lemma isSceneActive_none st sceneId :
  activeScenes st !! sceneId = None ->
  isSceneActive st sceneId = bool_decide (sceneId ∈ inherited).
Proof.
  intros H. unfold isSceneActive, lookupScene. rewrite H.
  by destruct (bool_decide (sceneId ∈ inherited)).
Qed.

(** C2 (what the code does): when the scene is in the entity table,
    [activateScene] makes no service call before it has stored the record
    holding the captured snapshots, and its only call is the scene
    activation.  When the promise of that call is rejected, the error is
    written to the console and the record just stored is deleted;
    [isSceneActive] is then false, unless the id is one of the names that
    [activeScenes] inherits.  When it resolves the record stays.  When it
    never settles, which is what the push transport makes of a call that
    the controller refuses, [activateScene] stays at its [await]: the
    record is kept, the scene is active and nothing is written to the
    console.  (When the refresh that precedes the snapshot is rejected,
    neither a record is stored nor a call made; when it never settles,
    nothing more happens at all.) *)
Theorem activate_records_before_call_and_rolls_back
    entities env sceneId sceneEntity st :
  getEntity entities sceneId = Some sceneEntity ->
  let st' := exec (activateScene entities env sceneId) st in
  let completion := eval (activateScene entities env sceneId) st in
  let members := eval (getSceneEntities sceneEntity) st in
  let record :=
    {| SceneContext.sceneId := sceneId;
       originalStates := eval (captureEntityStates entities members) st |} in
  exists pre,
    serviceCalls pre = [] /\
    match refreshEntities_result env with
    | NeverSettles =>
        completion = Suspended /\
        effects st' = effects st ++ pre /\
        activeScenes st' = activeScenes st
    | Settles (Rejected error) =>
        completion = Returned /\
        effects st' = effects st ++ pre ++
          [ConsoleError "Failed to activate scene:" error;
           DeleteActiveScene sceneId] /\
        activeScenes st' !! sceneId = None /\
        isSceneActive st' sceneId = bool_decide (sceneId ∈ inherited)
    | Settles (Resolved _) =>
        match callService_result env (activationCall sceneId) with
        | Settles (Resolved _) =>
            completion = Returned /\
            effects st' = effects st ++ pre ++
              [SetActiveScene sceneId record;
               CallService (activationCall sceneId)] /\
            activeScenes st' !! sceneId = Some record /\
            isSceneActive st' sceneId = true
        | Settles (Rejected error) =>
            completion = Returned /\
            effects st' = effects st ++ pre ++
              [SetActiveScene sceneId record;
               CallService (activationCall sceneId);
               ConsoleError "Failed to activate scene:" error;
               DeleteActiveScene sceneId] /\
            activeScenes st' !! sceneId = None /\
            isSceneActive st' sceneId = bool_decide (sceneId ∈ inherited)
        | NeverSettles =>
            completion = Suspended /\
            effects st' = effects st ++ pre ++
              [SetActiveScene sceneId record;
               CallService (activationCall sceneId)] /\
            activeScenes st' !! sceneId = Some record /\
            isSceneActive st' sceneId = true
        end
    end.
Proof.
  intros Hscene st' completion members record. subst st' completion members record.
  unfold activateScene. rewrite Hscene. run_state.
  destruct (getSceneEntities_effects sceneEntity st) as [Ha1 (pre1 & He1 & Hc1)].
  revert Ha1 He1. run_state.
  destruct (getSceneEntities sceneEntity st) as [ids st1]. simpl. intros Ha1 He1.
  destruct (refreshEntities_result env) as [[refreshed|error]|]; simpl.
  - match goal with |- context [captureEntityStates entities ids ?s] =>
      destruct (captureEntityStates_effects entities ids s) as [Ha2 (pre2 & He2 & Hc2)];
      pose proof (captureEntityStates_eval entities ids s st) as Hev;
      revert Ha2 He2 Hev; run_state;
      destruct (captureEntityStates entities ids s) as [states st2] end.
    simpl. intros Ha2 He2 ->.
    exists (pre1 ++ RefreshEntities :: pre2). split.
    { rewrite serviceCalls_app, Hc1. exact Hc2. }
    fold (activationCall sceneId).
    destruct (callService_result env (activationCall sceneId)) as [[v|error]|]; simpl.
    + rewrite He2, He1. repeat (rewrite <- app_assoc; simpl).
      split; [done|]. split; [done|]. rewrite lookup_insert_eq. split; [done|].
      eapply isSceneActive_own. simpl. apply lookup_insert_eq.
    + rewrite He2, He1. repeat (rewrite <- app_assoc; simpl).
      split; [done|]. split; [done|]. rewrite lookup_delete_eq. split; [done|].
      apply isSceneActive_none. simpl. apply lookup_delete_eq.
    + rewrite He2, He1. repeat (rewrite <- app_assoc; simpl).
      split; [done|]. split; [done|]. rewrite lookup_insert_eq. split; [done|].
      eapply isSceneActive_own. simpl. apply lookup_insert_eq.
  - exists (pre1 ++ [RefreshEntities]). split.
    { rewrite serviceCalls_app, Hc1. done. }
    rewrite He1. repeat (rewrite <- app_assoc; simpl). split; [done|]. split; [done|].
    rewrite lookup_delete_eq. split; [done|].
    apply isSceneActive_none. simpl. apply lookup_delete_eq.
  - exists (pre1 ++ [RefreshEntities]). split.
    { rewrite serviceCalls_app, Hc1. done. }
    rewrite He1. by rewrite <- app_assoc.
Qed.

(** The restoring loop: the call for one entity, and the calls of the loop,
    which stops at a call that never settles. *)
Lemma restoreEntity_calls env s st :
  activeScenes (exec (restoreEntity env s) st) = activeScenes st /\
  serviceCalls (effects (exec (restoreEntity env s) st)) =
    serviceCalls (effects st) ++ option_list (restoreCall s) /\
  eval (restoreEntity env s) st =
    match restoreCall s with
    | Some call =>
        match callService_result env call with
        | Settles _ => Returned
        | NeverSettles => Suspended
        end
    | None => Returned
    end.
Proof.
  unfold restoreEntity. destruct (restoreCall s) as [call|]; run_state.
  - destruct call as [domain service data]. simpl.
    destruct (callService_result env _) as [[v|err]|]; simpl; (split; [done|]);
      (split; [|done]); rewrite !serviceCalls_app; simpl; by rewrite ?app_nil_r.
  - split; [done|]. split; [|done]. by rewrite app_nil_r.
Qed.

Lemma restore_loop_calls env states st :
  activeScenes (exec (for_await states (restoreEntity env)) st) = activeScenes st /\
  serviceCalls (effects (exec (for_await states (restoreEntity env)) st)) =
    serviceCalls (effects st) ++ issued env (omap restoreCall states).
Proof.
  revert st. induction states as [|s states IH]; intros st.
  - split; [done|]. simpl. by rewrite app_nil_r.
  - cbn [for_await]. rewrite exec_bind.
    destruct (restoreEntity_calls env s st) as (Ha & Hc & Hdone). rewrite Hdone.
    destruct (IH (exec (restoreEntity env s) st)) as [Ha' Hc'].
    cbn [omap list_omap]. destruct (restoreCall s) as [call|]; simpl in Hc.
    + cbn [issued]. destruct (callService_result env call) as [o|].
      * rewrite Ha', Hc', Ha, Hc. split; [done|]. by rewrite <- app_assoc.
      * unfold exec at 1 3. simpl. by rewrite Ha, Hc.
    + rewrite Ha', Hc', Ha, Hc. split; [done|]. by rewrite app_nil_r.
Qed.

Lemma deactivateScene_record env sceneId record st :
  activeScenes st !! sceneId = Some record ->
  let st' := exec (deactivateScene env sceneId) st in
  activeScenes st' = delete sceneId (activeScenes st) /\
  serviceCalls (effects st') =
    serviceCalls (effects st) ++ issued env (omap restoreCall (originalStates record)).
Proof.
  intros Hrec. unfold deactivateScene, lookupScene. run_state. rewrite Hrec.
  match goal with |- context [for_await _ _ ?s] =>
    destruct (restore_loop_calls env (originalStates record) s) as [Ha Hc];
    revert Ha Hc; unfold exec; intros Ha Hc end.
  split; [exact Ha|].
  rewrite Hc. simpl. rewrite serviceCalls_app. simpl. by rewrite app_nil_r.
Qed.

(** C7: with [scene.movie_night] listing [light.lamp] (on, brightness 180)
    and [switch.fan] (off) as its members, activation records exactly two
    snapshots, in that order; the one of the light keeps brightness 180,
    its colour temperature and RGB colour when it has them, and nothing
    else; deactivation then removes the record and calls [light.turn_on]
    with brightness 180 (and those colours) for the light and, once that
    call has settled, whether it resolved or was rejected,
    [switch.turn_off] for the switch. *)
Theorem movie_night_snapshot_and_restore
    entities env sc members lamp fan refreshed v st :
  getEntity entities "scene.movie_night" = Some sc ->
  get "entities" (attributes sc) = Some (JObj members) ->
  keys members = ["light.lamp"; "switch.fan"]%string ->
  getEntity entities "light.lamp" = Some lamp ->
  state lamp = "on" ->
  get "brightness" (attributes lamp) = Some (JNum 180) ->
  getEntity entities "switch.fan" = Some fan ->
  state fan = "off" ->
  refreshEntities_result env = Settles (Resolved refreshed) ->
  callService_result env (activationCall "scene.movie_night") = Settles (Resolved v) ->
  let kept : Obj :=
    [("brightness", JNum 180)]
    ++ optProp "color_temp" (get "color_temp" (attributes lamp))
    ++ optProp "rgb_color" (get "rgb_color" (attributes lamp)) in
  let lightOn :=
    {| call_domain := "light"; call_service := "turn_on";
       call_data := [("entity_id", JStr "light.lamp"); ("transition", JNum 1)]
                    ++ kept |} in
  let st1 := exec (activateScene entities env "scene.movie_night") st in
  let st2 := exec (deactivateScene env "scene.movie_night") st1 in
  activeScenes st1 !! "scene.movie_night" =
    Some {| sceneId := "scene.movie_night";
            originalStates :=
              [ {| entityId := "light.lamp"; es_state := "on";
                   es_attributes := kept |};
                {| entityId := "switch.fan"; es_state := "off";
                   es_attributes := assign [] (attributes fan) |} ] |} /\
  activeScenes st2 !! "scene.movie_night" = None /\
  serviceCalls (effects st2) =
    serviceCalls (effects st1) ++
      lightOn ::
      match callService_result env lightOn with
      | Settles _ =>
          [ {| call_domain := "switch"; call_service := "turn_off";
               call_data := [("entity_id", JStr "switch.fan")] |} ]
      | NeverSettles => []
      end.
Proof.
  intros Hsc Hmem Hkeys Hlamp Hon Hbri Hfan Hoff Hrefresh Hcall kept lightOn st1 st2.
  assert (Hkept :
    copyIfDefined "rgb_color" (attributes lamp)
      (copyIfDefined "color_temp" (attributes lamp)
        (copyIfDefined "brightness" (attributes lamp) [])) = kept).
  { unfold copyIfDefined, kept. rewrite Hbri.
    destruct (get "color_temp" (attributes lamp)),
      (get "rgb_color" (attributes lamp)); reflexivity. }
  assert (Hlight :
    restoreCall {| entityId := "light.lamp"; es_state := "on"; es_attributes := kept |}
    = Some lightOn).
  { unfold restoreCall, copyIfDefined, kept, lightOn. simpl.
    destruct (get "color_temp" (attributes lamp)),
      (get "rgb_color" (attributes lamp)); reflexivity. }
  set (record :=
    {| sceneId := "scene.movie_night";
       originalStates :=
         [ {| entityId := "light.lamp"; es_state := "on"; es_attributes := kept |};
           {| entityId := "switch.fan"; es_state := "off";
              es_attributes := assign [] (attributes fan) |} ] |}).
  assert (Hst1 : activeScenes st1 !! "scene.movie_night" = Some record).
  { subst st1. unfold activateScene. rewrite Hsc.
    unfold getSceneEntities. rewrite Hmem. simpl truthy. cbv iota.
    unfold objectKeys. rewrite Hkeys. run_state. rewrite Hrefresh.
    unfold captureEntityState. rewrite Hlamp, Hfan, Hon, Hoff. run_state.
    rewrite Hkept.
    fold (activationCall "scene.movie_night"). rewrite Hcall. simpl.
    apply lookup_insert_eq. }
  split; [exact Hst1|].
  destruct (deactivateScene_record env "scene.movie_night" record st1 Hst1) as [Ha Hc].
  fold st2 in Ha, Hc. split; [rewrite Ha; apply lookup_delete_eq|].
  rewrite Hc. f_equal. subst record. cbn [originalStates omap list_omap].
  rewrite Hlight.
  change (restoreCall {| entityId := "switch.fan"; es_state := "off";
                         es_attributes := assign [] (attributes fan) |})
    with (Some {| call_domain := "switch"; call_service := "turn_off";
                  call_data := [("entity_id", JStr "switch.fan")] |}).
  cbn [issued].
  f_equal. destruct (callService_result env lightOn) as [o|].
  - f_equal.
    match goal with
    | |- context [callService_result env ?c] => by destruct (callService_result env c)
    end.
  - reflexivity.
Qed.

(** The theorem on the example table: the lamp has a friendly name and a
    list of colour modes besides its brightness, and neither is kept. *)
Lemma movie_night_witness :
  let st1 :=
    exec (activateScene Examples.table Examples.envOk "scene.movie_night")
         Examples.noScenes in
  let st2 := exec (deactivateScene Examples.envOk "scene.movie_night") st1 in
  activeScenes st1 !! "scene.movie_night" =
    Some {| sceneId := "scene.movie_night";
            originalStates :=
              [ {| entityId := "light.lamp"; es_state := "on";
                   es_attributes := [("brightness", JNum 180)] |};
                {| entityId := "switch.fan"; es_state := "off";
                   es_attributes := [("friendly_name", JStr "Fan")] |} ] |} /\
  activeScenes st2 !! "scene.movie_night" = None /\
  serviceCalls (effects st2) =
    serviceCalls (effects st1) ++
      [ {| call_domain := "light"; call_service := "turn_on";
           call_data := [("entity_id", JStr "light.lamp"); ("transition", JNum 1);
                         ("brightness", JNum 180)] |};
        {| call_domain := "switch"; call_service := "turn_off";
           call_data := [("entity_id", JStr "switch.fan")] |} ].
Proof.
  exact (movie_night_snapshot_and_restore
           Examples.table Examples.envOk Examples.movieNight
           [("light.lamp", JObj [("state", JStr "on"); ("brightness", JNum 40)]);
            ("switch.fan", JObj [("state", JStr "on")])]
           Examples.lampOn Examples.fanOff Examples.table JNull Examples.noScenes
           eq_refl eq_refl eq_refl eq_refl eq_refl eq_refl eq_refl eq_refl
           eq_refl eq_refl).
Defined.

End SceneProperties.

(** ** The pull transport *)

Section RestProperties.
Import Json Types Protocol RestApiAdapter.
Local Open Scope list_scope.

Variable stringify : Obj -> string.

Local Abbreviation poll := (pollEntity stringify).

(** One turn of the loop: nothing happens when the test finds no change;
    otherwise every listener is called with the fetched entity and the
    entity becomes the last observed one. *)
Lemma pollEntity_spec e a :
  let old := lastStates a !! entity_id e in
  exec (poll e) a =
    if unchanged stringify old e then a
    else set_lastStates (<[entity_id e := e]> (lastStates a))
           (set_effects
              (effects a ++
               map (fun cb => EntityCallback cb (entity_id e) e old) (entityCallbacks a))
              a).
Proof.
  unfold pollEntity, exec, gets, callAll, modify, mbind, state_bind, mret, state_ret.
  simpl. destruct (unchanged stringify (lastStates a !! entity_id e) e); reflexivity.
Qed.

Lemma pollEntity_callbacks e a :
  entityCallbacks (exec (poll e) a) = entityCallbacks a.
Proof. rewrite pollEntity_spec. simpl. by destruct (unchanged _ _ _). Qed.

Lemma pollEntity_lastStates_other e a i :
  entity_id e <> i ->
  lastStates (exec (poll e) a) !! i = lastStates a !! i.
Proof.
  intros Hne. rewrite pollEntity_spec. simpl.
  destruct (unchanged _ _ _); [done|]. simpl. by rewrite lookup_insert_ne.
Qed.

Lemma unchanged_true old e :
  unchanged stringify old e = true <->
  exists x, old = Some x /\ sameAs stringify x e.
Proof.
  unfold unchanged, sameAs. destruct old as [x|]; split.
  - intros [H1 H2]%andb_prop.
    apply bool_decide_eq_true in H1, H2. exists x. by rewrite H1, H2.
  - intros (y & [= <-] & H1 & H2). rewrite H1, H2.
    apply andb_true_intro. split; by apply bool_decide_eq_true.
  - done.
  - by intros (y & ? & _).
Qed.

(** After its turn, an entity agrees with the last observed value for its
    id. *)
Lemma pollEntity_observed e a :
  exists x, lastStates (exec (poll e) a) !! entity_id e = Some x /\
            sameAs stringify x e.
Proof.
  rewrite pollEntity_spec. simpl.
  destruct (unchanged _ _ _) eqn:Hu; simpl.
  - by apply unchanged_true in Hu as (x & Hx & Hsame); eauto.
  - exists e. rewrite lookup_insert_eq. by split.
Qed.

Lemma poll_loop_callbacks es a :
  entityCallbacks (exec (for_of es poll) a) = entityCallbacks a.
Proof.
  revert a. induction es as [|e es IH]; intros a; [done|].
  by rewrite exec_for_of_cons, IH, pollEntity_callbacks.
Qed.

Lemma poll_loop_lastStates_other es a i :
  (forall e, e ∈ es -> entity_id e <> i) ->
  lastStates (exec (for_of es poll) a) !! i = lastStates a !! i.
Proof.
  revert a. induction es as [|e es IH]; intros a Hes; [done|].
  rewrite exec_for_of_cons, IH.
  - apply pollEntity_lastStates_other, Hes. by left.
  - intros e' He'. apply Hes. by right.
Qed.

(** With pairwise distinct ids in the response, every fetched entity agrees
    with the value last observed for its id once the cycle is over. *)
Lemma poll_loop_observed es a e :
  NoDup (map entity_id es) -> e ∈ es ->
  exists x, lastStates (exec (for_of es poll) a) !! entity_id e = Some x /\
            sameAs stringify x e.
Proof.
  revert a. induction es as [|h es IH]; intros a Hnd Hin.
  - by apply elem_of_nil in Hin.
  - simpl in Hnd. apply NoDup_cons in Hnd as [Hh Hnd].
    rewrite exec_for_of_cons. apply elem_of_cons in Hin as [->|Hin].
    + rewrite poll_loop_lastStates_other; [apply pollEntity_observed|].
      intros e' He' Heq. apply Hh. rewrite <- Heq.
      apply list_elem_of_fmap. by exists e'.
    + by apply IH.
Qed.

(** Every call made during a cycle passes a fetched entity that failed the
    test. *)
Lemma poll_loop_fired es a :
  exists out,
    effects (exec (for_of es poll) a) = effects a ++ out /\
    Forall (firedForChange stringify (entityCallbacks a) es) out.
Proof.
  revert a. induction es as [|e es IH]; intros a.
  - exists []. by rewrite app_nil_r.
  - rewrite exec_for_of_cons.
    destruct (IH (exec (poll e) a)) as (out & Hout & Hall).
    rewrite pollEntity_callbacks in Hall.
    assert (Hweak : Forall (firedForChange stringify (entityCallbacks a) (e :: es)) out).
    { eapply Forall_impl; [exact Hall|]. intros [cb i n o| |]; simpl; [|done..].
      intros (? & ? & ? & ?). repeat split; try done. by right. }
    rewrite Hout, pollEntity_spec. simpl.
    destruct (unchanged _ _ _) eqn:Hu; simpl.
    + by exists out.
    + eexists (_ ++ out). rewrite app_assoc. split; [done|].
      apply Forall_app. split; [|done].
      apply Forall_forall. intros x (cb & -> & Hcb)%list_elem_of_fmap. simpl.
      repeat split; try done. by left.
Qed.

(** A cycle in which every entity with id [i] agrees with the value last
    observed for [i] calls no listener for [i]. *)
Lemma poll_loop_quiet es a i x :
  lastStates a !! i = Some x ->
  (forall e, e ∈ es -> entity_id e = i -> sameAs stringify x e) ->
  exists out,
    effects (exec (for_of es poll) a) = effects a ++ out /\
    Forall (fun e => ~ notifies i e) out.
Proof.
  revert a. induction es as [|e es IH]; intros a Hx Hes.
  - exists []. by rewrite app_nil_r.
  - rewrite exec_for_of_cons.
    assert (Hes' : forall e', e' ∈ es -> entity_id e' = i -> sameAs stringify x e').
    { intros e' He'. apply Hes. by right. }
    destruct (decide (entity_id e = i)) as [Heq|Hne].
    + assert (Hu : unchanged stringify (lastStates a !! entity_id e) e = true).
      { apply unchanged_true. exists x. rewrite Heq. split; [done|].
        apply Hes; [by left|done]. }
      rewrite pollEntity_spec. simpl. rewrite Hu. by apply IH.
    + destruct (IH (exec (poll e) a)) as (out & Hout & Hall); [|done|].
      { by rewrite pollEntity_lastStates_other. }
      rewrite Hout, pollEntity_spec. simpl.
      destruct (unchanged _ _ _); simpl; [by exists out|].
      eexists (_ ++ out). rewrite app_assoc. split; [done|].
      apply Forall_app. split; [|done].
      apply Forall_forall. intros y (cb & -> & _)%list_elem_of_fmap. simpl. done.
Qed.

Lemma pollEntities_resolved a es :
  connected a = true -> entityCallbacks a <> [] ->
  exec (_pollEntities stringify (Resolved es)) a = exec (for_of es poll) a.
Proof.
  intros Hc Hcb. unfold _pollEntities, pollReturns, pollSettled, exec, gets, mbind, state_bind. simpl.
  rewrite Hc. destruct (entityCallbacks a); [done|]. reflexivity.
Qed.

Lemma poll_loop_connected es a :
  connected (exec (for_of es poll) a) = connected a.
Proof.
  revert a. induction es as [|e es IH]; intros a; [done|].
  rewrite exec_for_of_cons, IH, pollEntity_spec. simpl.
  by destruct (unchanged _ _ _).
Qed.

(** C8: when a poll cycle returns an entity (each id once) and the next
    cycle returns, under that id, only entities with the same state value
    and the same serialised attributes, the second cycle calls no listener
    for that id; and every call that the second cycle does make passes a
    whole fetched entity that failed the comparison with the old value
    passed along. *)
Theorem identical_polls_fire_no_notification a es1 es2 e1 :
  connected a = true ->
  entityCallbacks a <> [] ->
  NoDup (map entity_id es1) ->
  e1 ∈ es1 ->
  (forall e2, e2 ∈ es2 -> entity_id e2 = entity_id e1 -> sameAs stringify e1 e2) ->
  let a1 := exec (_pollEntities stringify (Resolved es1)) a in
  let a2 := exec (_pollEntities stringify (Resolved es2)) a1 in
  exists out,
    effects a2 = effects a1 ++ out /\
    Forall (fun e => ~ notifies (entity_id e1) e) out /\
    Forall (firedForChange stringify (entityCallbacks a) es2) out.
Proof.
  intros Hc Hcb Hnd Hin Hsame a1 a2. subst a1 a2.
  rewrite (pollEntities_resolved a es1) by done.
  rewrite pollEntities_resolved;
    [|by rewrite poll_loop_connected|by rewrite poll_loop_callbacks].
  destruct (poll_loop_observed es1 a e1 Hnd Hin) as (x & Hx & Hx1 & Hx2).
  destruct (poll_loop_quiet es2 _ _ x Hx) as (out & Hout & Hquiet).
  { intros e2 He2 Hid. destruct (Hsame e2 He2 Hid) as [H1 H2].
    split; congruence. }
  destruct (poll_loop_fired es2 (exec (for_of es1 poll) a)) as (out' & Hout' & Hfired).
  rewrite poll_loop_callbacks in Hfired.
  assert (out' = out) as -> by (eapply app_inv_head; by rewrite <- Hout, <- Hout').
  by exists out.
Qed.

End RestProperties.

(** The theorem on two polls that both return the example table, with the
    example serialiser: the second poll has nothing to report about the
    lamp. *)
Lemma identical_polls_witness :
  let a := Examples.polling in
  let a1 :=
    exec (RestApiAdapter._pollEntities Examples.stringify (Types.Resolved Examples.table)) a in
  let a2 :=
    exec (RestApiAdapter._pollEntities Examples.stringify (Types.Resolved Examples.table)) a1 in
  (RestApiAdapter.connected a = true /\
   NoDup (map Types.entity_id Examples.table) /\
   Examples.lampOn ∈ Examples.table) /\
  exists out,
    RestApiAdapter.effects a2 = (RestApiAdapter.effects a1 ++ out)%list /\
    Forall (fun e => ~ RestApiAdapter.notifies "light.lamp" e) out /\
    Forall (RestApiAdapter.firedForChange Examples.stringify [2%nat] Examples.table) out.
Proof.
  assert (Hnd : NoDup (map Types.entity_id Examples.table)).
  { apply (bool_decide_unpack _). vm_compute. exact I. }
  assert (Hin : Examples.lampOn ∈ Examples.table) by (right; left).
  intros a a1 a2.
  split; [split; [reflexivity|split; [exact Hnd|exact Hin]]|].
  apply (identical_polls_fire_no_notification Examples.stringify Examples.polling
           Examples.table Examples.table Examples.lampOn eq_refl).
  - discriminate.
  - exact Hnd.
  - exact Hin.
  - intros e2 He2 Hid.
    repeat (apply elem_of_cons in He2 as [->|He2]);
      [discriminate Hid|split; reflexivity|discriminate Hid|].
    by apply elem_of_nil in He2.
Defined.

(** ** Invariants of the push transport *)

Section Hoare.
Context {S : Type} (Inv : S -> Prop).

Lemma keeps_ret {A} (a : A) (R : A -> Prop) : R a -> keeps Inv (mret a) R.
Proof. intros Ha s Hs. by split. Qed.

Lemma hoare_bind {A B} (P : S -> Prop) (m : State S A) (k : A -> State S B)
    (R : A -> S -> Prop) (Q : B -> S -> Prop) :
  hoare P m R -> (forall a, hoare (R a) (k a) Q) -> hoare P (m ≫= k) Q.
Proof.
  intros Hm Hk s Hs. specialize (Hm s Hs). unfold hoare, eval, exec in *.
  unfold mbind, state_bind. destruct (m s) as [a s']. simpl in *. by apply Hk.
Qed.

Lemma keeps_bind {A B} (m : State S A) (k : A -> State S B) R Q :
  keeps Inv m R -> (forall a, R a -> keeps Inv (k a) Q) -> keeps Inv (m ≫= k) Q.
Proof.
  intros Hm Hk. eapply hoare_bind; [exact Hm|].
  intros a s [Ha Hs]. by apply Hk.
Qed.

Lemma keeps_weaken {A} (m : State S A) (R R' : A -> Prop) :
  keeps Inv m R -> (forall a, R a -> R' a) -> keeps Inv m R'.
Proof. intros Hm HR s Hs. destruct (Hm s Hs). split; auto. Qed.

Lemma keeps_if {A} (b : bool) (m1 m2 : State S A) R :
  keeps Inv m1 R -> keeps Inv m2 R -> keeps Inv (if b then m1 else m2) R.
Proof. by destruct b. Qed.

Lemma hoare_keeps_bind {A B} (m : State S A) (k : A -> State S B) R
    (Q : B -> S -> Prop) :
  keeps Inv m R -> (forall a, R a -> hoare Inv (k a) Q) -> hoare Inv (m ≫= k) Q.
Proof.
  intros Hm Hk. eapply hoare_bind; [exact Hm|].
  intros a s [Ha Hs]. by apply Hk.
Qed.

Lemma hoare_if {A} (b : bool) (m1 m2 : State S A) (Q : A -> S -> Prop) :
  hoare Inv m1 Q -> hoare Inv m2 Q -> hoare Inv (if b then m1 else m2) Q.
Proof. by destruct b. Qed.

Lemma keeps_for_of {A} (xs : list A) (body : A -> State S unit) :
  (forall x, keeps Inv (body x) (fun _ => True)) ->
  keeps Inv (for_of xs body) (fun _ => True).
Proof.
  intros Hbody. induction xs as [|x xs IH]; [by apply keeps_ret|].
  simpl. eapply keeps_bind; [apply Hbody|]. intros _ _. exact IH.
Qed.
End Hoare.

Section Heap.
Import Json Types Protocol WebSocketApi.
Local Open Scope list_scope.

(** An invariant of the objects that the client has made; [Own q] is what
    is known of a promise [q] between its creation and the moment the
    client stores or settles it, and [Ref c] what is known of a promise
    read from [pendingCommands] or from a socket. *)
Variable Inv : Api -> Prop.
Variable Own : nat -> Api -> Prop.
Variable Ref : nat -> Prop.

Hypothesis Inv_frame : forall st st', sameHeap st st' -> Inv st -> Inv st'.
Hypothesis Own_frame : forall q st st', sameHeap st st' -> Own q st -> Own q st'.
Hypothesis Inv_new : forall initial st,
  Inv st ->
  Inv (set_promises (promises st ++ [initial]) st) /\
  Own (length (promises st)) (set_promises (promises st ++ [initial]) st).
Hypothesis Inv_settle_own : forall q outcome st,
  Inv st -> Own q st -> Inv (exec (settle q outcome) st).
Hypothesis Inv_newSocket : forall q st,
  Inv st -> Own q st ->
  Inv (set_sockets (sockets st ++ [{| readyState := WS_CONNECTING; connectPromise := q |}]) st).
Hypothesis Inv_setPending : forall id q st,
  Inv st -> Own q st ->
  Inv (set_pendingCommands (<[id := q]> (pendingCommands st)) st).
Hypothesis Inv_pending : forall st id c,
  Inv st -> pendingCommands st !! id = Some c -> Ref c.
Hypothesis Inv_socket : forall st s o,
  Inv st -> sockets st !! s = Some o -> Ref (connectPromise o).
Hypothesis Inv_settle_ref : forall c outcome st,
  Ref c -> Inv st -> Inv (exec (settle c outcome) st).
Hypothesis Inv_delete : forall id st,
  Inv st -> Inv (set_pendingCommands (delete id (pendingCommands st)) st).
Hypothesis Inv_ready : forall s rs st, Inv st -> Inv (exec (setReadyState s rs) st).

(** The invariant while the client holds the new promise [q]. *)
Let Holding (q : nat) : Api -> Prop := fun st => Inv st /\ Own q st.

Section Framed.
Variable J : Api -> Prop.
Hypothesis J_frame : forall st st', sameHeap st st' -> J st -> J st'.

Lemma keeps_gets {A} (f : Api -> A) (R : A -> Prop) :
  (forall st, J st -> R (f st)) -> keeps J (gets f) R.
Proof. intros H s Hs. split; [by apply H|done]. Qed.

Lemma keeps_read {A} (f : Api -> A) : keeps J (gets f) (fun _ => True).
Proof. by apply keeps_gets. Qed.

Lemma keeps_modify (f : Api -> Api) :
  (forall st, J st -> J (f st)) -> keeps J (modify f) (fun _ => True).
Proof. intros H s Hs. split; [done|by apply H]. Qed.

Lemma keeps_set (f : Api -> Api) :
  (forall st, sameHeap st (f st)) -> keeps J (modify f) (fun _ => True).
Proof. intros H. apply keeps_modify. intros st. apply J_frame, H. Qed.

Lemma keeps_emit e : keeps J (emit e) (fun _ => True).
Proof. by apply keeps_set. Qed.

Lemma keeps_callAll cbs call : keeps J (callAll cbs call) (fun _ => True).
Proof. by apply keeps_set. Qed.

Local Ltac keeps_step :=
  first
    [ apply keeps_ret; done
    | apply keeps_if
    | apply keeps_emit
    | apply keeps_callAll
    | apply keeps_read
    | apply keeps_set; done
    | eapply keeps_bind; [|intros ? ?] ].

Lemma keeps_updateConnectionState state :
  keeps J (updateConnectionState state) (fun _ => True).
Proof. unfold updateConnectionState. repeat keeps_step. Qed.

Lemma keeps_notifyError error : keeps J (notifyError error) (fun _ => True).
Proof. unfold notifyError. repeat keeps_step. Qed.

Lemma keeps_clearTimers : keeps J clearTimers (fun _ => True).
Proof. unfold clearTimers. repeat keeps_step. Qed.

Lemma keeps_setupHeartbeat : keeps J setupHeartbeat (fun _ => True).
Proof.
  unfold setupHeartbeat.
  eapply keeps_bind; [apply keeps_clearTimers|intros ? ?]. keeps_step.
Qed.

Lemma keeps_authenticate : keeps J authenticate (fun _ => True).
Proof.
  unfold authenticate.
  eapply keeps_bind; [apply keeps_read|intros [s|] _]; repeat keeps_step.
Qed.

Lemma keeps_handleEvent event_type data :
  keeps J (handleEvent event_type data) (fun _ => True).
Proof. unfold handleEvent. repeat keeps_step. Qed.

Lemma keeps_attemptReconnect : keeps J attemptReconnect (fun _ => True).
Proof.
  unfold attemptReconnect.
  eapply keeps_bind; [apply keeps_read|intros [d|] _]; [keeps_step|].
  eapply keeps_bind; [apply keeps_read|intros attempts _].
  apply keeps_if.
  - eapply keeps_bind; [apply keeps_updateConnectionState|intros ? ?].
    apply keeps_notifyError.
  - eapply keeps_bind; [apply keeps_updateConnectionState|intros ? ?]. keeps_step.
Qed.
End Framed.

Local Ltac keeps_step :=
  first
    [ apply keeps_ret; done
    | apply keeps_if
    | apply keeps_emit; done
    | apply keeps_callAll; done
    | apply keeps_read
    | apply keeps_set; done
    | eapply keeps_bind; [|intros ? ?] ].

Lemma Holding_frame q st st' : sameHeap st st' -> Holding q st -> Holding q st'.
Proof. intros Hsame [HI HO]. split; [by eapply Inv_frame|by eapply Own_frame]. Qed.

Lemma hoare_modify (P : Api -> Prop) (f : Api -> Api) (Q : unit -> Api -> Prop) :
  (forall st, P st -> Q tt (f st)) -> hoare P (modify f) Q.
Proof. intros H st Hst. by apply H. Qed.

Lemma hoare_newPromise initial :
  hoare Inv (newPromise initial) (fun q st => Holding q st).
Proof. intros st Hst. by apply Inv_new. Qed.

Lemma hoare_settle_own q outcome :
  hoare (Holding q) (settle q outcome) (fun _ st => Inv st).
Proof. intros st [HI HO]. by apply Inv_settle_own. Qed.

Lemma keeps_settle_ref c outcome :
  Ref c -> keeps Inv (settle c outcome) (fun _ => True).
Proof. intros Hc st Hst. split; [done|]. by apply Inv_settle_ref. Qed.

Lemma keeps_setReadyState s rs : keeps Inv (setReadyState s rs) (fun _ => True).
Proof. intros st Hst. split; [done|]. by apply Inv_ready. Qed.

(** From the moment the promise is made, the executors of [connect] and
    [sendCommand] hold it until they store or settle it. *)
Lemma hoare_connectExecutor created q :
  hoare (Holding q) (connectExecutor created q) (fun _ st => Inv st).
Proof.
  pose proof (Holding_frame q) as HF. unfold connectExecutor, resolve, reject.
  eapply hoare_keeps_bind; [by apply keeps_read|intros rs _].
  apply hoare_if; [apply hoare_settle_own|].
  eapply hoare_keeps_bind; [by apply keeps_updateConnectionState|intros ? ?].
  destruct created as [[]|error].
  - eapply hoare_keeps_bind; [by apply keeps_read|intros s _].
    eapply hoare_bind.
    { apply (hoare_modify _ _ (fun _ st => Inv st)).
      intros st [HI HO]. by apply Inv_newSocket. }
    intros []. apply hoare_modify. intros st. by apply Inv_frame.
  - eapply hoare_keeps_bind; [by apply keeps_updateConnectionState|intros ? ?].
    eapply hoare_keeps_bind; [by apply keeps_notifyError|intros ? ?].
    apply hoare_settle_own.
Qed.

Lemma keeps_connect created : keeps Inv (connect created) (fun _ => True).
Proof.
  unfold connect. eapply hoare_bind; [apply hoare_newPromise|].
  intros q. eapply hoare_bind; [apply hoare_connectExecutor|].
  intros []. by apply keeps_ret.
Qed.

Lemma keeps_disconnect : keeps Inv disconnect (fun _ => True).
Proof.
  unfold disconnect.
  eapply keeps_bind; [by apply keeps_clearTimers|intros ? ?].
  eapply keeps_bind; [by apply keeps_read|intros s _].
  eapply keeps_bind; [|intros ? ?; by apply keeps_updateConnectionState].
  destruct s as [s|]; [|keeps_step].
  eapply keeps_bind; [by apply keeps_emit|intros ? ?].
  eapply keeps_bind; [by apply keeps_read|intros rs _].
  eapply keeps_bind; [|intros ? ?; keeps_step].
  apply keeps_if; [apply keeps_setReadyState|keeps_step].
Qed.

Lemma hoare_sendCommandExecutor command params q :
  hoare (Holding q) (sendCommandExecutor command params q) (fun _ st => Inv st).
Proof.
  pose proof (Holding_frame q) as HF. unfold sendCommandExecutor, reject.
  eapply hoare_keeps_bind; [by apply keeps_read|intros st _].
  destruct (socket st) as [s|]; [|apply hoare_settle_own].
  apply hoare_if; [|apply hoare_settle_own].
  eapply hoare_keeps_bind; [by apply keeps_set|intros ? ?].
  eapply hoare_bind.
  { apply (hoare_modify _ _ (fun _ st => Inv st)).
    intros st' [HI HO]. by apply Inv_setPending. }
  intros []. apply hoare_modify. intros st'. by apply Inv_frame.
Qed.

Lemma keeps_sendCommand command params :
  keeps Inv (sendCommand command params) (fun _ => True).
Proof.
  unfold sendCommand. eapply hoare_bind; [apply hoare_newPromise|].
  intros q. eapply hoare_bind; [apply hoare_sendCommandExecutor|].
  intros []. by apply keeps_ret.
Qed.

Lemma keeps_subscribeEntities callback entityIds :
  keeps Inv (subscribeEntities callback entityIds) (fun _ => True).
Proof.
  unfold subscribeEntities.
  eapply keeps_bind; [by apply keeps_set|intros ? ?].
  eapply keeps_bind; [by apply keeps_read|intros cur _].
  apply keeps_if; [apply keeps_sendCommand|].
  intros st Hst. split; [done|]. by apply Inv_new.
Qed.

Lemma keeps_handleResult id success result error :
  keeps Inv (handleResult id success result error) (fun _ => True).
Proof.
  unfold handleResult, resolve.
  eapply keeps_bind.
  { apply (keeps_gets Inv (fun st => pendingCommands st !! id)
             (fun c => forall c', c = Some c' -> Ref c')).
    intros st Hst c' Hc'. by eapply Inv_pending. }
  intros [callback|] Hc; [|keeps_step].
  eapply keeps_bind.
  { apply keeps_modify. intros st. apply Inv_delete. }
  intros ? ?.
  apply keeps_if; [apply keeps_settle_ref; by apply Hc|by apply keeps_notifyError].
Qed.

Lemma keeps_handleMessage data connectP :
  Ref connectP -> keeps Inv (handleMessage data connectP) (fun _ => True).
Proof.
  intros Hc. unfold handleMessage, resolve, reject.
  destruct data as [[| |message|id success result error|id event_type data| |type]|error].
  - eapply keeps_bind; [by apply keeps_updateConnectionState|intros ? ?].
    by apply keeps_authenticate.
  - eapply keeps_bind; [by apply keeps_updateConnectionState|intros ? ?].
    by apply keeps_settle_ref.
  - eapply keeps_bind; [by apply keeps_updateConnectionState|intros ? ?].
    eapply keeps_bind; [by apply keeps_notifyError|intros ? ?].
    by apply keeps_settle_ref.
  - apply keeps_handleResult.
  - by apply keeps_handleEvent.
  - keeps_step.
  - keeps_step.
  - by apply keeps_notifyError.
Qed.

Lemma keeps_socket s :
  keeps Inv (gets (fun st => sockets st !! s))
        (fun o => forall o', o = Some o' -> Ref (connectPromise o')).
Proof. apply keeps_gets. intros st Hst o' Ho'. by eapply Inv_socket. Qed.

(** Whatever happens to the client keeps the invariant. *)
Lemma keeps_step_input (i : Input) : keeps Inv (step i) (fun _ => True).
Proof.
  destruct i; simpl.
  - eapply keeps_bind; [apply keeps_connect|intros ? ?; keeps_step].
  - apply keeps_disconnect.
  - eapply keeps_bind; [apply keeps_sendCommand|intros ? ?; keeps_step].
  - eapply keeps_bind; [apply keeps_subscribeEntities|intros ? ?; keeps_step].
  - unfold subscribeConnectionState. repeat keeps_step.
  - unfold subscribeError. repeat keeps_step.
  - unfold onopen.
    eapply keeps_bind; [apply keeps_setReadyState|intros ? ?].
    eapply keeps_bind; [keeps_step|intros ? ?]. by apply keeps_setupHeartbeat.
  - unfold onmessage.
    eapply keeps_bind; [apply keeps_socket|intros [o|] Ho]; [|keeps_step].
    apply keeps_handleMessage. by apply Ho.
  - unfold onclose.
    eapply keeps_bind; [apply keeps_setReadyState|intros ? ?].
    eapply keeps_bind; [by apply keeps_updateConnectionState|intros ? ?].
    eapply keeps_bind; [by apply keeps_clearTimers|intros ? ?].
    by apply keeps_attemptReconnect.
  - unfold onerror, reject.
    eapply keeps_bind; [apply keeps_socket|intros [o|] Ho]; [|keeps_step].
    eapply keeps_bind; [by apply keeps_updateConnectionState|intros ? ?].
    eapply keeps_bind; [by apply keeps_notifyError|intros ? ?].
    apply keeps_settle_ref. by apply Ho.
  - unfold heartbeatTick.
    eapply keeps_bind; [by apply keeps_read|intros [d|] _]; [|keeps_step].
    eapply keeps_bind; [by apply keeps_read|intros st _].
    destruct (socket st) as [s|]; [|keeps_step].
    apply keeps_if; [|keeps_step]. repeat keeps_step.
  - unfold reconnectTimeout.
    eapply keeps_bind; [by apply keeps_read|intros [d|] _]; [|keeps_step].
    eapply keeps_bind; [keeps_step|intros ? ?].
    eapply keeps_bind; [keeps_step|intros ? ?].
    eapply keeps_bind; [apply keeps_connect|intros ? ?; keeps_step].
Qed.

Lemma keeps_run inputs : keeps Inv (run inputs) (fun _ => True).
Proof. apply keeps_for_of, keeps_step_input. Qed.
End Heap.

Section Forever.
Import Json Types Protocol WebSocketApi.
Local Open Scope list_scope.

Lemma settle_heap q outcome st :
  pendingCommands (exec (settle q outcome) st) = pendingCommands st /\
  sockets (exec (settle q outcome) st) = sockets st /\
  length (promises (exec (settle q outcome) st)) = length (promises st) /\
  forall p, p <> q ->
    promises (exec (settle q outcome) st) !! p = promises st !! p.
Proof.
  unfold settle, modify, exec. simpl.
  destruct (promises st !! q) as [[]|]; simpl; repeat split; try done.
  - by rewrite length_insert.
  - intros p Hp. by rewrite list_lookup_insert_ne.
Qed.

Lemma setReadyState_heap s rs st :
  promises (exec (setReadyState s rs) st) = promises st /\
  pendingCommands (exec (setReadyState s rs) st) = pendingCommands st /\
  forall s' o', sockets (exec (setReadyState s rs) st) !! s' = Some o' ->
    exists o, sockets st !! s' = Some o /\ connectPromise o = connectPromise o'.
Proof.
  unfold setReadyState, modify, exec. simpl.
  destruct (sockets st !! s) as [o|] eqn:Ho; simpl; repeat split; try done;
    [|by eauto].
  intros s' o' Ho'. destruct (decide (s = s')) as [<-|Hne].
  - rewrite list_lookup_insert_eq in Ho' by (by eapply lookup_lt_Some).
    injection Ho' as <-. by exists o.
  - rewrite list_lookup_insert_ne in Ho' by done. by exists o'.
Qed.

(** A pending promise to which nothing refers stays so, whatever
    happens. *)
Lemma abandoned_run p inputs st :
  abandoned st p -> abandoned (exec (run inputs) st) p.
Proof.
  intros Hst.
  apply (keeps_run (fun st => abandoned st p) (fun q _ => q <> p) (fun c => c <> p));
    try done.
  - intros st1 st2 (Hp & Hc & Hs). unfold abandoned, unreferenced.
    by rewrite Hp, Hc, Hs.
  - intros initial st1 (Hp & Hpend & Hsock). split.
    + split; [|done]. simpl. by rewrite lookup_app_l by (by eapply lookup_lt_Some).
    + apply lookup_lt_Some in Hp. lia.
  - intros q outcome st1 (Hp & Hunref) Hq.
    destruct (settle_heap q outcome st1) as (Hc & Hs & _ & Hother).
    unfold abandoned, unreferenced. by rewrite Hc, Hs, Hother.
  - intros q st1 (Hp & Hpend & Hsock) Hq. split; [done|]. split; [done|].
    simpl. intros s o Ho.
    apply lookup_app_Some in Ho as [Ho|[_ Ho]]; [by eapply Hsock|].
    apply list_lookup_singleton_Some in Ho as [_ <-]. done.
  - intros id q st1 (Hp & Hpend & Hsock) Hq. split; [done|]. split; [|done].
    simpl. intros id'. destruct (decide (id = id')) as [<-|Hne].
    + rewrite lookup_insert_eq. congruence.
    + by rewrite lookup_insert_ne.
  - intros st1 id c (_ & Hpend & _) Hc ->. by eapply Hpend.
  - intros st1 s o (_ & _ & Hsock) Ho. by eapply Hsock.
  - intros c outcome st1 Hc (Hp & Hunref).
    destruct (settle_heap c outcome st1) as (Hc' & Hs & _ & Hother).
    unfold abandoned, unreferenced. by rewrite Hc', Hs, Hother.
  - intros id st1 (Hp & Hpend & Hsock). split; [done|]. split; [|done].
    simpl. intros id' Hid'. apply lookup_delete_Some in Hid' as [_ Hid'].
    by eapply Hpend.
  - intros s rs st1 (Hp & Hpend & Hsock).
    destruct (setReadyState_heap s rs st1) as (Hp' & Hc' & Hs').
    unfold abandoned, unreferenced. rewrite Hp', Hc'. split; [done|].
    split; [done|]. intros s' o' Ho'.
    destruct (Hs' s' o' Ho') as (o & Ho & <-). by eapply Hsock.
Qed.

(** The references that the client keeps to its promises are to promises
    that exist, and no promise is referred to twice. *)
Lemma wellFormed_run inputs st :
  wellFormed st -> wellFormed (exec (run inputs) st).
Proof.
  intros Hst.
  apply (keeps_run wellFormed (fun q st => fresh st q) (fun _ => True));
    try done.
  - intros st1 st2 (Hp & Hc & Hs). unfold wellFormed. by rewrite Hp, Hc, Hs.
  - intros q st1 st2 (Hp & Hc & Hs). unfold fresh, unreferenced.
    by rewrite Hp, Hc, Hs.
  - intros initial st1 (H1 & H2 & H3 & H4). split.
    + unfold wellFormed. simpl. rewrite length_app. simpl.
      repeat split; try done.
      * intros id q Hq. specialize (H1 id q Hq). lia.
      * intros s o Ho. specialize (H2 s o Ho). lia.
    + unfold fresh, unreferenced. simpl. rewrite length_app. simpl.
      split; [lia|]. split.
      * intros id Hid. specialize (H1 id _ Hid). lia.
      * intros s o Ho Heq. specialize (H2 s o Ho). lia.
  - intros q outcome st1 (H1 & H2 & H3 & H4) _.
    destruct (settle_heap q outcome st1) as (Hc & Hs & Hlen & _).
    unfold wellFormed. by rewrite Hc, Hs, Hlen.
  - intros q st1 (H1 & H2 & H3 & H4) (Hlt & Hpend & Hsock).
    unfold wellFormed. simpl. repeat split; try done.
    + intros s o Ho.
      apply lookup_app_Some in Ho as [Ho|[_ Ho]]; [by eapply H2|].
      apply list_lookup_singleton_Some in Ho as [_ <-]. done.
    + intros s o id Ho.
      apply lookup_app_Some in Ho as [Ho|[_ Ho]]; [by eapply H4|].
      apply list_lookup_singleton_Some in Ho as [_ <-]. simpl. apply Hpend.
  - intros id q st1 (H1 & H2 & H3 & H4) (Hlt & Hpend & Hsock).
    unfold wellFormed. simpl. repeat split; try done.
    + intros id' q'. destruct (decide (id = id')) as [<-|Hne].
      * rewrite lookup_insert_eq. by intros [= <-].
      * rewrite lookup_insert_ne by done. apply H1.
    + intros id1 id2 q'.
      destruct (decide (id = id1)) as [<-|Hne1], (decide (id = id2)) as [<-|Hne2];
        rewrite ?lookup_insert_eq, ?lookup_insert_ne by done; try done.
      * intros [= <-] Hid2. by destruct (Hpend id2).
      * intros Hid1 [= <-]. by destruct (Hpend id1).
      * apply H3.
    + intros s o id' Ho. destruct (decide (id = id')) as [<-|Hne].
      * rewrite lookup_insert_eq. intros [= ->]. by eapply Hsock.
      * rewrite lookup_insert_ne by done. by eapply H4.
  - intros c outcome st1 _ (H1 & H2 & H3 & H4).
    destruct (settle_heap c outcome st1) as (Hc & Hs & Hlen & _).
    unfold wellFormed. by rewrite Hc, Hs, Hlen.
  - intros id st1 (H1 & H2 & H3 & H4). unfold wellFormed. simpl.
    repeat split; try done.
    + intros id' q Hq. apply lookup_delete_Some in Hq as [_ Hq]. by eapply H1.
    + intros id1 id2 q Hq1 Hq2.
      apply lookup_delete_Some in Hq1 as [_ Hq1].
      apply lookup_delete_Some in Hq2 as [_ Hq2]. by eapply H3.
    + intros s o id' Ho Hid'. apply lookup_delete_Some in Hid' as [_ Hid'].
      by eapply H4.
  - intros s rs st1 (H1 & H2 & H3 & H4).
    destruct (setReadyState_heap s rs st1) as (Hp' & Hc' & Hs').
    unfold wellFormed. rewrite Hp', Hc'. repeat split; try done.
    + intros s' o' Ho'. destruct (Hs' s' o' Ho') as (o & Ho & <-). by eapply H2.
    + intros s' o' id Ho'. destruct (Hs' s' o' Ho') as (o & Ho & <-). by eapply H4.
Qed.

Lemma wellFormed_new token : wellFormed (new token).
Proof. unfold wellFormed. simpl. repeat split; done. Qed.
End Forever.

(** ** The push transport *)

Section WebSocketProperties.
Import Json Types Protocol WebSocketApi.
Local Open Scope list_scope.

Local Arguments Z.leb : simpl never.
Local Arguments Z.ltb : simpl never.
Local Arguments Z.pow : simpl never.
Local Arguments Z.mul : simpl never.
Local Arguments Z.add : simpl never.

Local Ltac run_ws :=
  unfold exec, eval, disconnect, onclose, onerror, onmessage, onopen,
    handleMessage, handleResult, handleEvent, authenticate, attemptReconnect,
    reconnectTimeout, connect, connectExecutor, setupHeartbeat, clearTimers, updateConnectionState,
    notifyError, resolve, reject, settle, newPromise, setReadyState, callAll, emit,
    modify, gets, mbind, state_bind, mret, state_ret;
  simpl.

(** C3 (as the code has it): [disconnect] stops both timers, closes the
    socket that the client holds ([close] is called on it, and only then
    are the connection-state listeners told of [CLOSED], if that is a
    change; a socket that was open or opening is closing afterwards, and no
    other socket is touched), drops it and leaves the client in [CLOSED];
    it settles no promise and keeps [pendingCommands] as it is, so that
    every outstanding invocation stays outstanding. *)
Theorem disconnect_closes_and_settles_nothing (st : Api) :
  let st' := exec disconnect st in
  connectionState st' = CLOSED /\
  heartbeatTimer st' = None /\
  reconnectTimer st' = None /\
  socket st' = None /\
  effects st' = effects st ++
    match socket st with Some s => [Close s] | None => [] end ++
    (if bool_decide (connectionState st = CLOSED) then []
     else map (fun cb => ConnectionStateChanged cb CLOSED) (connectionStateCallbacks st)) /\
  (forall s o, socket st = Some s -> sockets st !! s = Some o ->
     sockets st' !! s =
       Some {| readyState :=
                 if bool_decide (readyState o = WS_OPEN)
                    || bool_decide (readyState o = WS_CONNECTING)
                 then WS_CLOSING else readyState o;
               connectPromise := connectPromise o |}) /\
  (forall s, socket st <> Some s -> sockets st' !! s = sockets st !! s) /\
  pendingCommands st' = pendingCommands st /\
  promises st' = promises st /\
  forall id p, outstanding st id p -> outstanding st' id p.
Proof.
  destruct st as [tok sock cs mid pend scb ccb ecb rt ht ra socks proms effs].
  unfold outstanding. run_ws.
  destruct sock as [s|]; simpl.
  - assert (Hother : forall x s', Some s <> Some s' -> <[s := x]> socks !! s' = socks !! s').
    { intros x s' Hne. apply list_lookup_insert_ne. congruence. }
    assert (Hsame : forall x, is_Some (socks !! s) -> <[s := x]> socks !! s = Some x).
    { intros x [o Ho]. apply list_lookup_insert_eq. by eapply lookup_lt_Some. }
    destruct (socks !! s) as [[rs p]|] eqn:Ho; simpl; rewrite ?Ho; simpl.
    + destruct rs, cs; simpl; rewrite ?Ho; simpl;
        repeat split; try done; try tauto;
        try (by rewrite <- app_assoc);
        try (intros s' o' [= <-] Ho'; rewrite ?Hsame by eauto; by simplify_eq);
        try (intros s' o' [= <-] Ho'; by simplify_eq);
        try (intros s' Hne; by rewrite ?Hother by done).
    + destruct cs; simpl; repeat split; try done; try tauto;
        try (by rewrite <- app_assoc);
        intros s' o' [= <-] Ho'; by simplify_eq.
  - destruct cs; simpl; repeat split; try done; try tauto;
      by rewrite ?app_nil_r.
Qed.

(** C3 (as stated) fails: the service call in flight on [inflightApi] is
    still pending after [disconnect]. *)
Lemma disconnect_does_not_cancel : ~ disconnectCancels inflightApi.
Proof.
  intros H. destruct (H 1%Z 1%nat) as [e He].
  - split; reflexivity.
  - vm_compute in He. discriminate.
Qed.

(** C4 (what the code does): when the reply to an outstanding invocation
    has [success = false], the entry is removed from [pendingCommands] and
    every error listener is called with [Command failed: ...] (the message
    of the controller, without its code), but the promise of the call is
    not rejected: it is pending, the callback that could settle it is
    gone, and it stays pending whatever happens to the client
    afterwards. *)
Theorem command_failure_never_settles st s o id p result error :
  wellFormed st ->
  sockets st !! s = Some o ->
  outstanding st id p ->
  let st' := exec (onmessage s (Parsed (Result id false result error))) st in
  pendingCommands st' !! id = None /\
  effects st' = effects st ++
    map (fun cb => ErrorRaised cb (mkError ("Command failed: " ++ failureText error)))
        (errorCallbacks st) /\
  forall later, promises (exec (run later) st') !! p = Some Pending.
Proof.
  intros (_ & _ & Hinj & Hdisj) Ho [Hid Hp] st'.
  assert (Hst' : pendingCommands st' = delete id (pendingCommands st) /\
                 promises st' = promises st /\ sockets st' = sockets st /\
                 effects st' = effects st ++
                   map (fun cb => ErrorRaised cb
                          (mkError ("Command failed: " ++ failureText error)))
                       (errorCallbacks st)).
  { subst st'.
    destruct st as [tok sock cs mid pend scb ccb ecb rt ht ra socks proms effs].
    simpl in *. run_ws. rewrite Ho. simpl. by rewrite Hid. }
  destruct Hst' as (Hpend' & Hproms' & Hsocks' & Heff').
  split; [rewrite Hpend'; apply lookup_delete_eq|]. split; [exact Heff'|].
  intros later. apply abandoned_run. split; [by rewrite Hproms'|]. split.
  - intros id' Hid'. rewrite Hpend' in Hid'.
    apply lookup_delete_Some in Hid' as [Hne Hid']. by destruct (Hinj id id' p).
  - intros s' o' Ho' <-. rewrite Hsocks' in Ho'. by eapply Hdisj.
Qed.

(** Every state that the client can reach from its construction is well
    formed. *)
Lemma reachable_wellFormed token inputs :
  wellFormed (exec (run inputs) (new token)).
Proof. apply wellFormed_run, wellFormed_new. Qed.

(** The theorem on the service call in flight on [inflightApi], rejected by
    the controller with code [not_found]; afterwards the socket closes and
    the client is disconnected. *)
Lemma command_failure_witness :
  let reply :=
    Parsed (Result 1 false None
              (Some {| code := "not_found"; error_message := "Service not found" |})) in
  let st' := exec (onmessage 0 reply) inflightApi in
  outstanding inflightApi 1 1 /\
  pendingCommands st' !! 1%Z = None /\
  effects st' = effects inflightApi ++
    [ErrorRaised 0 (mkError "Command failed: Service not found")] /\
  promises (exec (run [SocketClose 0; Disconnect]) st') !! 1%nat = Some Pending.
Proof.
  assert (H : outstanding inflightApi 1 1) by (split; reflexivity).
  split; [exact H|].
  destruct (command_failure_never_settles inflightApi 0
              {| readyState := WS_OPEN; connectPromise := 0 |} 1 1 None
              (Some {| code := "not_found"; error_message := "Service not found" |})
              (reachable_wellFormed "token" _) eq_refl H)
    as (Hpend & Heff & Hlater).
  split; [exact Hpend|]. split; [exact Heff|]. apply Hlater.
Defined.

(** C5: an [auth_invalid] message on a socket whose [connect] promise is
    pending puts the client in [ERROR], rejects that promise with the error
    [Authentication failed: <message>], and passes the same error to every
    error listener (after the connection-state listeners have been told of
    [ERROR], if that is a change). *)
Theorem auth_invalid_rejects_connect st s o msg :
  sockets st !! s = Some o ->
  promises st !! connectPromise o = Some Pending ->
  let error := mkError ("Authentication failed: " ++ msg) in
  let st' := exec (onmessage s (Parsed (AuthInvalid msg))) st in
  connectionState st' = ERROR /\
  promises st' !! connectPromise o = Some (RejectedWith error) /\
  effects st' = effects st ++
    (if bool_decide (connectionState st = ERROR) then []
     else map (fun cb => ConnectionStateChanged cb ERROR) (connectionStateCallbacks st)) ++
    map (fun cb => ErrorRaised cb error) (errorCallbacks st).
Proof.
  intros Ho Hp.
  destruct st as [tok sock cs mid pend scb ccb ecb rt ht ra socks proms effs].
  simpl in *. run_ws. rewrite Ho. simpl.
  destruct cs; simpl; rewrite Hp; simpl;
    (split; [done|]); (split; [apply list_lookup_insert_eq; by eapply lookup_lt_Some|]);
    by rewrite <- ?app_assoc.
Qed.

(** The theorem on a client that has sent its token and is told that it is
    not valid. *)
Lemma auth_invalid_witness :
  let st' := exec (onmessage 0 (Parsed (AuthInvalid "Invalid access token"))) authenticatingApi in
  promises authenticatingApi !! 0%nat = Some Pending /\
  connectionState st' = ERROR /\
  promises st' !! 0%nat =
    Some (RejectedWith (mkError "Authentication failed: Invalid access token")) /\
  effects st' = effects authenticatingApi ++
    [ConnectionStateChanged 7 ERROR;
     ErrorRaised 0 (mkError "Authentication failed: Invalid access token")].
Proof.
  split; [reflexivity|].
  exact (auth_invalid_rejects_connect authenticatingApi 0
           {| readyState := WS_OPEN; connectPromise := 0 |} "Invalid access token"
           eq_refl eq_refl).
Defined.

(** Whatever the client was doing, the close of a socket that is its
    current one (or when it has none) leaves it waiting for the next
    attempt, due after [reconnectDelay * 2 ^ reconnectAttempts], or in
    [ERROR] when the attempts are used up. *)
Lemma onclose_reconnecting st s o :
  (forall s', socket st = Some s' -> s' = s) ->
  sockets st !! s = Some o ->
  reconnecting (reconnectAttempts st) (exec (onclose s) st).
Proof.
  intros Hs Ho.
  destruct st as [tok sock cs mid pend scb ccb ecb rt ht ra socks proms effs].
  simpl in *.
  assert (Hclosed : forall x, <[s := x]> socks !! s = Some x).
  { intros x. apply list_lookup_insert_eq. by eapply lookup_lt_Some. }
  unfold reconnecting, socketReadyState, maxReconnectAttempts. run_ws.
  rewrite Ho. simpl. unfold maxReconnectAttempts.
  destruct sock as [s'|]; [rewrite (Hs s' eq_refl)|];
    destruct cs; simpl; rewrite Z.leb_antisym; destruct (ra <? 5)%Z; simpl;
    rewrite ?Hclosed; simpl; repeat split; done.
Qed.

(** The close of any socket that the client has made, current or not, has
    the same effect on the schedule. *)
Lemma onclose_schedule st s o :
  sockets st !! s = Some o ->
  let st' := exec (onclose s) st in
  reconnectAttempts st' = reconnectAttempts st /\
  heartbeatTimer st' = None /\
  if (reconnectAttempts st <? maxReconnectAttempts)%Z then
    connectionState st' = RECONNECTING /\
    reconnectTimer st' = Some (reconnectDelay * 2 ^ reconnectAttempts st)%Z
  else
    connectionState st' = ERROR /\ reconnectTimer st' = None.
Proof.
  intros Ho.
  destruct st as [tok sock cs mid pend scb ccb ecb rt ht ra socks proms effs].
  simpl in *. unfold maxReconnectAttempts. run_ws.
  rewrite Ho. simpl. unfold maxReconnectAttempts.
  destruct cs; simpl; rewrite Z.leb_antisym; destruct (ra <? 5)%Z; simpl;
    repeat split; done.
Qed.














(** X23: the handlers stay on a socket that [disconnect] has dropped: when
    its close event arrives, the client leaves [CLOSED] and schedules a
    reconnection as after any other close. *)
Lemma close_event_after_disconnect st s o :
  socket st = Some s ->
  sockets st !! s = Some o ->
  reconnecting (reconnectAttempts st) (exec (onclose s) (exec disconnect st)).
Proof.
  intros Hs Ho.
  assert (Hd : socket (exec disconnect st) = None /\
               reconnectAttempts (exec disconnect st) = reconnectAttempts st /\
               exists o', sockets (exec disconnect st) !! s = Some o').
  { destruct st as [tok sock cs mid pend scb ccb ecb rt ht ra socks proms effs].
    simpl in *. subst sock. run_ws. rewrite Ho. simpl.
    assert (Hins : forall x, <[s := x]> socks !! s = Some x).
    { intros x. apply list_lookup_insert_eq. by eapply lookup_lt_Some. }
    destruct o as [[] p]; simpl; rewrite ?Ho; simpl; destruct cs; simpl;
      (split; [done|]); (split; [done|]); eauto. }
  destruct Hd as (Hnone & Hra & o' & Ho').
  rewrite <- Hra. apply (onclose_reconnecting _ _ o'); [|done].
  intros s'. by rewrite Hnone.
Qed.

(** A command that the controller refuses is abandoned: its promise stays
    pending whatever happens to the client afterwards. *)
Lemma refused_command_abandoned st s o id p result error later :
  wellFormed st ->
  sockets st !! s = Some o ->
  outstanding st id p ->
  promises
    (exec (run later) (exec (onmessage s (Parsed (Result id false result error))) st))
    !! p = Some Pending.
Proof.
  intros (_ & _ & Hinj & Hdisj) Ho [Hid Hp].
  set (st' := exec (onmessage s (Parsed (Result id false result error))) st).
  assert (Hst' : pendingCommands st' = delete id (pendingCommands st) /\
                 promises st' = promises st /\ sockets st' = sockets st).
  { subst st'.
    destruct st as [tok sock cs mid pend scb ccb ecb rt ht ra socks proms effs].
    simpl in *. run_ws. rewrite Ho. simpl. by rewrite Hid. }
  destruct Hst' as (Hpend' & Hproms' & Hsocks').
  apply abandoned_run. split; [by rewrite Hproms'|]. split.
  - intros id' Hid'. rewrite Hpend' in Hid'.
    apply lookup_delete_Some in Hid' as [Hne Hid']. by destruct (Hinj id id' p).
  - intros s' o' Ho' <-. rewrite Hsocks' in Ho'. by eapply Hdisj.
Qed.

End WebSocketProperties.

(** ** Scenes over the two transports *)

Section ScenesOverTransports.
Import Json Types Protocol.
Local Open Scope list_scope.

(** C2 on the movie-night scene.  Over the push transport, the controller
    refuses the call that [activateScene] awaits (command 1 of
    [activatingApi]): the promise of the call stays pending whatever
    happens to the client afterwards, [activateScene] never gets past its
    [await], and the record that it has stored stays, with nothing on the
    console.  Over the pull transport the promise is rejected and the
    record is deleted. *)
Lemma activate_rolls_back_witness :
  let refusal :=
    Parsed (Result 1 false None
              (Some {| code := "not_found"; error_message := "Service not found" |})) in
  let record :=
    {| SceneContext.sceneId := "scene.movie_night";
       SceneContext.originalStates :=
         [ {| SceneContext.entityId := "light.lamp"; SceneContext.es_state := "on";
              SceneContext.es_attributes := [("brightness", JNum 180)] |};
           {| SceneContext.entityId := "switch.fan"; SceneContext.es_state := "off";
              SceneContext.es_attributes := [("friendly_name", JStr "Fan")] |} ] |} in
  let pushed :=
    SceneContext.activateScene Examples.table Examples.envPushRefused "scene.movie_night" in
  let pulled :=
    SceneContext.activateScene Examples.table Examples.envRejecting "scene.movie_night" in
  Facade.getEntity Examples.table "scene.movie_night" = Some Examples.movieNight /\
  WebSocketApi.outstanding WebSocketApi.activatingApi 1 1 /\
  (forall later,
     WebSocketApi.promises
       (exec (WebSocketApi.run later)
          (exec (WebSocketApi.onmessage 0 refusal) WebSocketApi.activatingApi))
       !! 1%nat = Some WebSocketApi.Pending) /\
  eval pushed Examples.noScenes = Suspended /\
  (exists pre,
     SceneContext.serviceCalls pre = [] /\
     SceneContext.effects (exec pushed Examples.noScenes) = pre ++
       [SceneContext.SetActiveScene "scene.movie_night" record;
        SceneContext.CallService (SceneContext.activationCall "scene.movie_night")]) /\
  SceneContext.isSceneActive (exec pushed Examples.noScenes) "scene.movie_night" = true /\
  (exists pre,
     SceneContext.serviceCalls pre = [] /\
     SceneContext.effects (exec pulled Examples.noScenes) = pre ++
       [SceneContext.SetActiveScene "scene.movie_night" record;
        SceneContext.CallService (SceneContext.activationCall "scene.movie_night");
        SceneContext.ConsoleError "Failed to activate scene:"
          (mkError "API request failed: 500 Internal Server Error");
        SceneContext.DeleteActiveScene "scene.movie_night"]) /\
  SceneContext.isSceneActive (exec pulled Examples.noScenes) "scene.movie_night" = false.
Proof.
  intros refusal record pushed pulled.
  assert (Hout : WebSocketApi.outstanding WebSocketApi.activatingApi 1 1)
    by (split; reflexivity).
  split; [reflexivity|]. split; [exact Hout|]. split.
  { intros later.
    apply (refused_command_abandoned WebSocketApi.activatingApi 0
             {| WebSocketApi.readyState := WS_OPEN; WebSocketApi.connectPromise := 0 |});
      [apply reachable_wellFormed|reflexivity|exact Hout]. }
  destruct (activate_records_before_call_and_rolls_back
              Examples.table Examples.envPushRefused "scene.movie_night"
              Examples.movieNight Examples.noScenes eq_refl)
    as (pre & Hcalls & Hdone & Heff & _ & Hact).
  destruct (activate_records_before_call_and_rolls_back
              Examples.table Examples.envRejecting "scene.movie_night"
              Examples.movieNight Examples.noScenes eq_refl)
    as (pre' & Hcalls' & _ & Heff' & _ & Hact').
  split; [exact Hdone|]. split; [by exists pre|]. split; [exact Hact|].
  split; [by exists pre'|exact Hact'].
Defined.

End ScenesOverTransports.

(** ** Both transports *)

Section DisconnectTwice.
Import Protocol.
Local Open Scope list_scope.

Lemma ws_errorsRaised_app l1 l2 :
  WebSocketApi.errorsRaised (l1 ++ l2) =
  WebSocketApi.errorsRaised l1 ++ WebSocketApi.errorsRaised l2.
Proof. apply omap_app. Qed.

Lemma ws_errorsRaised_states (cbs : list nat) state :
  WebSocketApi.errorsRaised
    (map (fun cb => WebSocketApi.ConnectionStateChanged cb state) cbs) = [].
Proof. induction cbs as [|cb cbs IH]; [done|]. exact IH. Qed.

Lemma rest_errorsRaised_app l1 l2 :
  RestApiAdapter.errorsRaised (l1 ++ l2) =
  RestApiAdapter.errorsRaised l1 ++ RestApiAdapter.errorsRaised l2.
Proof. apply omap_app. Qed.

Lemma rest_errorsRaised_states (cbs : list nat) state :
  RestApiAdapter.errorsRaised
    (map (fun cb => RestApiAdapter.ConnectionCallback cb state) cbs) = [].
Proof. induction cbs as [|cb cbs IH]; [done|]. exact IH. Qed.

(** What [disconnect] does to the pull transport. *)
Lemma rest_disconnect_spec (a : RestApiAdapter.Adapter) :
  exec RestApiAdapter.disconnect a =
    RestApiAdapter.set_effects
      (RestApiAdapter.effects a ++
       map (fun cb => RestApiAdapter.ConnectionCallback cb CLOSED)
           (RestApiAdapter.connectionCallbacks a))
      (RestApiAdapter.set_pollingInterval None (RestApiAdapter.set_connected false a)).
Proof. reflexivity. Qed.

Lemma ws_disconnect_no_error (st : WebSocketApi.Api) :
  WebSocketApi.errorsRaised (WebSocketApi.effects (exec WebSocketApi.disconnect st)) =
  WebSocketApi.errorsRaised (WebSocketApi.effects st).
Proof.
  destruct st as [tok sock cs mid pend scb ccb ecb rt ht ra socks proms effs].
  unfold exec, WebSocketApi.disconnect, WebSocketApi.clearTimers,
    WebSocketApi.updateConnectionState, WebSocketApi.setReadyState,
    WebSocketApi.callAll, WebSocketApi.emit, WebSocketApi.modify, WebSocketApi.gets,
    mbind, state_bind, mret, state_ret.
  simpl.
  destruct sock as [s|]; simpl; [destruct (socks !! s) as [[[] p]|] eqn:Ho|];
    simpl; rewrite ?Ho; simpl; destruct cs; simpl;
    rewrite ?ws_errorsRaised_app, ?ws_errorsRaised_states; simpl;
    by rewrite ?app_nil_r.
Qed.

Lemma ws_disconnect_closed (st : WebSocketApi.Api) :
  WebSocketApi.connectionState (exec WebSocketApi.disconnect st) = CLOSED.
Proof.
  destruct st as [tok sock cs mid pend scb ccb ecb rt ht ra socks proms effs].
  unfold exec, WebSocketApi.disconnect, WebSocketApi.clearTimers,
    WebSocketApi.updateConnectionState, WebSocketApi.setReadyState,
    WebSocketApi.callAll, WebSocketApi.emit, WebSocketApi.modify, WebSocketApi.gets,
    mbind, state_bind, mret, state_ret.
  simpl.
  destruct sock as [s|]; simpl; [destruct (socks !! s) as [[[] p]|] eqn:Ho|];
    simpl; rewrite ?Ho; simpl; destruct cs; simpl; done.
Qed.

(** [disconnect] changes nothing on a client that is closed, without socket
    and without timers. *)
Lemma ws_disconnect_fixed (st : WebSocketApi.Api) :
  WebSocketApi.socket st = None ->
  WebSocketApi.heartbeatTimer st = None ->
  WebSocketApi.reconnectTimer st = None ->
  WebSocketApi.connectionState st = CLOSED ->
  exec WebSocketApi.disconnect st = st.
Proof.
  destruct st as [tok sock cs mid pend scb ccb ecb rt ht ra socks proms effs].
  simpl. by intros -> -> -> ->.
Qed.

Lemma ws_disconnect_fields (st : WebSocketApi.Api) :
  WebSocketApi.socket (exec WebSocketApi.disconnect st) = None /\
  WebSocketApi.heartbeatTimer (exec WebSocketApi.disconnect st) = None /\
  WebSocketApi.reconnectTimer (exec WebSocketApi.disconnect st) = None.
Proof.
  destruct st as [tok sock cs mid pend scb ccb ecb rt ht ra socks proms effs].
  unfold exec, WebSocketApi.disconnect, WebSocketApi.clearTimers,
    WebSocketApi.updateConnectionState, WebSocketApi.setReadyState,
    WebSocketApi.callAll, WebSocketApi.emit, WebSocketApi.modify, WebSocketApi.gets,
    mbind, state_bind, mret, state_ret.
  simpl.
  destruct sock as [s|]; simpl; [destruct (socks !! s) as [[[] p]|] eqn:Ho|];
    simpl; rewrite ?Ho; simpl; destruct cs; simpl; done.
Qed.

Lemma ws_disconnect_idempotent (st : WebSocketApi.Api) :
  exec WebSocketApi.disconnect (exec WebSocketApi.disconnect st) =
  exec WebSocketApi.disconnect st.
Proof.
  destruct (ws_disconnect_fields st) as (Hs & Hh & Hr).
  apply ws_disconnect_fixed; try done. apply ws_disconnect_closed.
Qed.

(** C9: on either transport the connection state is [CLOSED] after a
    first [disconnect] and after a second one, and neither call passes
    anything to the error listeners.  On the push transport the second
    call changes nothing at all; on the pull transport it only tells the
    connection-state listeners of [CLOSED] once more. *)
Theorem disconnect_twice_closed (st : WebSocketApi.Api) (a : RestApiAdapter.Adapter) :
  let st1 := exec WebSocketApi.disconnect st in
  let st2 := exec WebSocketApi.disconnect st1 in
  let a1 := exec RestApiAdapter.disconnect a in
  let a2 := exec RestApiAdapter.disconnect a1 in
  (WebSocketApi.getConnectionState st1 = CLOSED /\
   WebSocketApi.getConnectionState st2 = CLOSED /\
   st2 = st1 /\
   WebSocketApi.errorsRaised (WebSocketApi.effects st2) =
     WebSocketApi.errorsRaised (WebSocketApi.effects st)) /\
  (RestApiAdapter.getConnectionState a1 = CLOSED /\
   RestApiAdapter.getConnectionState a2 = CLOSED /\
   a2 = RestApiAdapter.set_effects
          (RestApiAdapter.effects a1 ++
           map (fun cb => RestApiAdapter.ConnectionCallback cb CLOSED)
               (RestApiAdapter.connectionCallbacks a))
          a1 /\
   RestApiAdapter.errorsRaised (RestApiAdapter.effects a2) =
     RestApiAdapter.errorsRaised (RestApiAdapter.effects a)).
Proof.
  intros st1 st2 a1 a2. split.
  - assert (H2 : st2 = st1) by apply ws_disconnect_idempotent.
    assert (H1 : WebSocketApi.getConnectionState st1 = CLOSED)
      by apply ws_disconnect_closed.
    rewrite H2. repeat split; try done. apply ws_disconnect_no_error.
  - subst a2 a1. rewrite !rest_disconnect_spec. simpl.
    repeat split.
    rewrite !rest_errorsRaised_app, !rest_errorsRaised_states.
    by rewrite !app_nil_r.
Qed.

End DisconnectTwice.

(* ------------------------------------------------------------------ *)
(** * Further properties *)

Section FacadeFurther.
Import Json Types Facade.
Local Open Scope list_scope.

Lemma handle_nil entityId e oldState :
  handleEntityStateChange entityId (Some e) oldState [] = [e].
Proof. reflexivity. Qed.

Lemma handle_cons entityId e oldState x entities :
  handleEntityStateChange entityId (Some e) oldState (x :: entities) =
    if bool_decide (entity_id x = entityId) then e :: entities
    else x :: handleEntityStateChange entityId (Some e) oldState entities.
Proof.
  unfold handleEntityStateChange. simpl.
  destruct (bool_decide (entity_id x = entityId)); [done|].
  by destruct (findIndex _ entities).
Qed.

(** X1: a notification for one entity leaves what a query for any other id
    returns. *)
Theorem notification_leaves_other_entities entityId e oldState entities other :
  entity_id e = entityId ->
  other <> entityId ->
  getEntity (handleEntityStateChange entityId (Some e) oldState entities) other =
  getEntity entities other.
Proof.
  intros He Hother. unfold getEntity.
  induction entities as [|x entities IH].
  - simpl. rewrite bool_decide_eq_false_2; [done|]. congruence.
  - rewrite handle_cons. destruct (bool_decide (entity_id x = entityId)) eqn:Hx.
    + apply bool_decide_eq_true in Hx. simpl.
      rewrite !bool_decide_eq_false_2; [done|congruence..].
    + simpl. destruct (bool_decide (entity_id x = other)); [done|]. exact IH.
Qed.

Lemma notification_leaves_other_entities_witness :
  getEntity (handleEntityStateChange "light.lamp" (Some Examples.lampOffEarlier) None
               Examples.table) "switch.fan" = Some Examples.fanOff.
Proof.
  rewrite (notification_leaves_other_entities "light.lamp" Examples.lampOffEarlier None
             Examples.table "switch.fan" eq_refl); [reflexivity|discriminate].
Defined.

(** X2: the ids in the table, in order, after a notification that carries an
    entity: unchanged when the id is in the table, with the id added at the
    end when it is not; ids that were pairwise distinct stay so. *)
Theorem notification_keeps_ids entityId e oldState entities :
  entity_id e = entityId ->
  let ids := map entity_id entities in
  let ids' := map entity_id (handleEntityStateChange entityId (Some e) oldState entities) in
  ids' = (if bool_decide (entityId ∈ ids) then ids else ids ++ [entityId]) /\
  (NoDup ids -> NoDup ids').
Proof.
  intros He ids ids'. subst ids ids'.
  assert (Heq : map entity_id (handleEntityStateChange entityId (Some e) oldState entities)
                = if bool_decide (entityId ∈ map entity_id entities)
                  then map entity_id entities else map entity_id entities ++ [entityId]).
  { induction entities as [|x entities IH].
    - rewrite handle_nil. cbn [map].
      rewrite (bool_decide_eq_false_2 (entityId ∈ [])); [by rewrite He|].
      apply not_elem_of_nil.
    - rewrite handle_cons. destruct (bool_decide (entity_id x = entityId)) eqn:Hx.
      + apply bool_decide_eq_true in Hx. cbn [map]. rewrite He, Hx.
        rewrite bool_decide_eq_true_2; [done|]. by left.
      + apply bool_decide_eq_false in Hx. cbn [map]. rewrite IH.
        destruct (bool_decide (entityId ∈ map entity_id entities)) eqn:Hin.
        * apply bool_decide_eq_true in Hin. rewrite bool_decide_eq_true_2; [done|].
          by right.
        * apply bool_decide_eq_false in Hin. rewrite bool_decide_eq_false_2; [done|].
          intros [Heq|Hin']%elem_of_cons; [congruence|done]. }
  split; [exact Heq|]. intros Hnd. rewrite Heq.
  destruct (bool_decide (entityId ∈ map entity_id entities)) eqn:Hin; [done|].
  apply bool_decide_eq_false in Hin. apply NoDup_app. split; [done|].
  split; [|apply NoDup_singleton].
  intros y Hy ->%list_elem_of_singleton. done.
Qed.

Lemma notification_keeps_ids_witness :
  entity_id Examples.lampOffEarlier = "light.lamp" /\
  map entity_id (handleEntityStateChange "light.lamp" (Some Examples.lampOffEarlier) None
                   Examples.table)
  = ["scene.movie_night"; "light.lamp"; "switch.fan"]%string.
Proof.
  split; [reflexivity|].
  exact (proj1 (notification_keeps_ids "light.lamp" Examples.lampOffEarlier None
                  Examples.table eq_refl)).
Defined.
End FacadeFurther.

Section SceneFurther.
Import Json Types Facade SceneContext.
Local Open Scope list_scope.

Local Ltac run_scene :=
  unfold exec, eval, mbind, state_bind, mret, state_ret; simpl.

(** X3: what [deactivateScene] does, by what [activeScenes[sceneId]] is.
    For a scene with a record it removes the record and makes, in order,
    the restoring call of every snapshot that has one, going on after a
    call that is rejected and stopping for good at a call whose promise
    never settles.  For a name without record that [activeScenes] inherits
    from [Object.prototype] it passes the test, updates the state without
    changing the records and logs the [TypeError] of its loop.  For any
    other name it does nothing. *)
Theorem deactivate_restores_every_member env sceneId st :
  let st' := exec (deactivateScene env sceneId) st in
  match activeScenes st !! sceneId with
  | Some record =>
      activeScenes st' = delete sceneId (activeScenes st) /\
      isSceneActive st' sceneId = bool_decide (sceneId ∈ inherited) /\
      serviceCalls (effects st') =
        serviceCalls (effects st) ++ issued env (omap restoreCall (originalStates record))
  | None =>
      if bool_decide (sceneId ∈ inherited) then
        activeScenes st' = activeScenes st /\
        effects st' = effects st ++
          [DeleteActiveScene sceneId;
           ConsoleError "Failed to deactivate scene:"
             (mkError "activeScene.originalStates is not iterable")]
      else st' = st
  end.
Proof.
  intros st'. destruct (activeScenes st !! sceneId) as [record|] eqn:Hrec.
  - destruct (deactivateScene_record env sceneId record st Hrec) as [Ha Hc].
    fold st' in Ha, Hc. split; [exact Ha|]. split; [|exact Hc].
    apply isSceneActive_none. rewrite Ha. apply lookup_delete_eq.
  - subst st'. unfold deactivateScene, lookupScene. run_scene. rewrite Hrec.
    destruct (bool_decide (sceneId ∈ inherited)); run_scene.
    + split; [by apply delete_id|]. by rewrite <- app_assoc.
    + by destruct st.
Qed.

(** The theorem on a scene whose first restoring call never settles, on a
    name that is inherited, and on a name that is not. *)
Lemma deactivate_witness :
  let record :=
    {| sceneId := "scene.movie_night";
       originalStates :=
         [ {| entityId := "light.lamp"; es_state := "on";
              es_attributes := [("brightness", JNum 180)] |};
           {| entityId := "switch.fan"; es_state := "off"; es_attributes := [] |} ] |} in
  let active :=
    {| activeScenes := {["scene.movie_night" := record]}; effects := [] |} in
  serviceCalls
    (effects (exec (deactivateScene Examples.envPushRefused "scene.movie_night") active)) =
    [ {| call_domain := "light"; call_service := "turn_on";
         call_data := [("entity_id", JStr "light.lamp"); ("transition", JNum 1);
                       ("brightness", JNum 180)] |} ] /\
  effects (exec (deactivateScene Examples.envOk "constructor") Examples.noScenes) =
    [DeleteActiveScene "constructor";
     ConsoleError "Failed to deactivate scene:"
       (mkError "activeScene.originalStates is not iterable")] /\
  exec (deactivateScene Examples.envOk "scene.other") Examples.noScenes = Examples.noScenes.
Proof.
  intros record active. split; [|split].
  - pose proof (deactivate_restores_every_member Examples.envPushRefused
                  "scene.movie_night" active) as H.
    cbv zeta in H. subst active. simpl activeScenes in H.
    rewrite lookup_singleton_eq in H. destruct H as (_ & _ & ->). reflexivity.
  - pose proof (deactivate_restores_every_member Examples.envOk "constructor"
                  Examples.noScenes) as H.
    cbv zeta in H. simpl activeScenes in H. rewrite lookup_empty in H.
    destruct H as [_ ->]. reflexivity.
  - pose proof (deactivate_restores_every_member Examples.envOk "scene.other"
                  Examples.noScenes) as H.
    cbv zeta in H. simpl activeScenes in H. rewrite lookup_empty in H.
    exact H.
Defined.

(** X4: the restoring call of a snapshot whose state is "off" is never a
    [turn_on]: it is [close_cover] for a cover and [turn_off] on the domain
    of the entity otherwise, and names the entity. *)
Theorem restore_of_off_turns_off s :
  es_state s = "off" ->
  exists data,
    restoreCall s =
      Some {| call_domain := domainOf (entityId s);
              call_service :=
                if bool_decide (domainOf (entityId s) = "cover")
                then "close_cover" else "turn_off";
              call_data := data |} /\
    get "entity_id" data = Some (JStr (entityId s)).
Proof.
  intros Hoff. unfold restoreCall. rewrite Hoff. simpl.
  destruct (bool_decide (domainOf (entityId s) = "light")) eqn:Hl.
  { apply bool_decide_eq_true in Hl. rewrite Hl. simpl. eexists. split; reflexivity. }
  destruct (bool_decide (domainOf (entityId s) = "switch")) eqn:Hs.
  { apply bool_decide_eq_true in Hs. rewrite Hs. simpl. eexists. split; reflexivity. }
  destruct (bool_decide (domainOf (entityId s) = "input_boolean")) eqn:Hi.
  { apply bool_decide_eq_true in Hi. rewrite Hi. simpl. eexists. split; reflexivity. }
  simpl.
  destruct (bool_decide (domainOf (entityId s) = "cover")) eqn:Hc;
    eexists; split; reflexivity.
Qed.

Lemma restore_of_off_witness :
  exists data,
    restoreCall {| entityId := "switch.fan"; es_state := "off";
                   es_attributes := [("friendly_name", JStr "Fan")] |} =
      Some {| call_domain := "switch"; call_service := "turn_off"; call_data := data |} /\
    get "entity_id" data = Some (JStr "switch.fan").
Proof.
  exact (restore_of_off_turns_off
           {| entityId := "switch.fan"; es_state := "off";
              es_attributes := [("friendly_name", JStr "Fan")] |} eq_refl).
Defined.

(** X5: a member that is not in the entity table when the scene is activated
    is captured with state "unknown" and no attributes; on deactivation it is
    switched off when it is a light, a switch or an input boolean, closed
    when it is a cover, and left alone otherwise. *)
Theorem missing_member_is_switched_off entities id st :
  getEntity entities id = None ->
  let snapshot := eval (captureEntityState entities id) st in
  let domain := domainOf id in
  snapshot = {| entityId := id; es_state := "unknown"; es_attributes := [] |} /\
  restoreCall snapshot =
    if bool_decide (domain = "light") then
      Some {| call_domain := domain; call_service := "turn_off";
              call_data := [("entity_id", JStr id); ("transition", JNum 1)] |}
    else if bool_decide (domain = "switch") || bool_decide (domain = "input_boolean") then
      Some {| call_domain := domain; call_service := "turn_off";
              call_data := [("entity_id", JStr id)] |}
    else if bool_decide (domain = "cover") then
      Some {| call_domain := domain; call_service := "close_cover";
              call_data := [("entity_id", JStr id)] |}
    else None.
Proof.
  intros Hnone. unfold captureEntityState. rewrite Hnone. run_scene.
  split; [done|]. unfold restoreCall. simpl.
  repeat match goal with |- context [bool_decide ?P] => destruct (bool_decide P) end;
    reflexivity.
Qed.

Lemma missing_member_witness :
  getEntity Examples.table "light.porch" = None /\
  restoreCall (eval (captureEntityState Examples.table "light.porch") Examples.noScenes) =
    Some {| call_domain := "light"; call_service := "turn_off";
            call_data := [("entity_id", JStr "light.porch"); ("transition", JNum 1)] |}.
Proof.
  split; [reflexivity|].
  exact (proj2 (missing_member_is_switched_off Examples.table "light.porch"
                  Examples.noScenes eq_refl)).
Defined.

(** X6: the snapshot has one entry for every member id, in the order of the
    ids, whether or not the entity is in the table. *)
Theorem capture_has_one_entry_per_member entities ids st :
  map entityId (eval (captureEntityStates entities ids) st) = ids.
Proof.
  revert st. induction ids as [|id ids IH]; intros st; [done|].
  rewrite captureEntityStates_cons. unfold captureEntityState.
  destruct (getEntity entities id) as [e|]; run_scene.
  - specialize (IH st). revert IH. run_scene.
    destruct (captureEntityStates entities ids st) as [l st1]. simpl. by intros ->.
  - match goal with |- context [captureEntityStates entities ids ?s] =>
      specialize (IH s); revert IH; run_scene;
      destruct (captureEntityStates entities ids s) as [l st1] end.
    simpl. by intros ->.
Qed.


(** A name for which [isSceneActive] is false has no record and is not
    inherited. *)
Lemma isSceneActive_false st sceneId :
  isSceneActive st sceneId = false ->
  activeScenes st !! sceneId = None /\ bool_decide (sceneId ∈ inherited) = false.
Proof.
  unfold isSceneActive, lookupScene.
  destruct (activeScenes st !! sceneId); [done|].
  by destruct (bool_decide (sceneId ∈ inherited)).
Qed.

(** X7: toggling a scene that has no member entities activates it with the
    scene call alone, under a record with an empty snapshot; toggling it
    again deactivates it without any call. *)
Theorem toggle_scene_without_members entities env sceneId scene refreshed v st :
  getEntity entities sceneId = Some scene ->
  get "entities" (attributes scene) = None ->
  refreshEntities_result env = Settles (Resolved refreshed) ->
  callService_result env (activationCall sceneId) = Settles (Resolved v) ->
  isSceneActive st sceneId = false ->
  let st1 := exec (toggleScene entities env sceneId) st in
  let st2 := exec (toggleScene entities env sceneId) st1 in
  activeScenes st1 !! sceneId =
    Some {| SceneContext.sceneId := sceneId; originalStates := [] |} /\
  isSceneActive st1 sceneId = true /\
  isSceneActive st2 sceneId = false /\
  serviceCalls (effects st2) = serviceCalls (effects st) ++ [activationCall sceneId].
Proof.
  intros Hscene Hmem Hrefresh Hcall Hinactive st1 st2.
  assert (Hst1 : st1 =
    {| activeScenes :=
         <[sceneId := {| SceneContext.sceneId := sceneId; originalStates := [] |}]>
           (activeScenes st);
       effects := effects st ++
         [ConsoleWarn ("Scene has no entities defined: " ++ entity_id scene)%string;
          RefreshEntities;
          SetActiveScene sceneId {| SceneContext.sceneId := sceneId; originalStates := [] |};
          CallService (activationCall sceneId)] |}).
  { subst st1. unfold toggleScene, exec. rewrite Hinactive.
    unfold activateScene. rewrite Hscene. unfold getSceneEntities. rewrite Hmem.
    run_scene. rewrite Hrefresh. simpl.
    fold (activationCall sceneId). rewrite Hcall. simpl.
    by repeat (rewrite <- app_assoc; simpl). }
  assert (Hrec : activeScenes st1 !! sceneId =
                 Some {| SceneContext.sceneId := sceneId; originalStates := [] |}).
  { rewrite Hst1. simpl. apply lookup_insert_eq. }
  split; [exact Hrec|].
  assert (Hactive : isSceneActive st1 sceneId = true)
    by (by eapply isSceneActive_own).
  split; [exact Hactive|].
  assert (Hst2 : st2 = exec (deactivateScene env sceneId) st1).
  { subst st2. unfold toggleScene, exec. cbv beta. by rewrite Hactive. }
  destruct (deactivateScene_record env sceneId _ st1 Hrec) as (Ha & Hcalls).
  rewrite Hst2. split.
  - rewrite isSceneActive_none by (rewrite Ha; apply lookup_delete_eq).
    by destruct (isSceneActive_false st sceneId Hinactive).
  - rewrite Hcalls, Hst1. simpl.
    rewrite serviceCalls_app. simpl. by rewrite app_nil_r.
Qed.

Lemma toggle_scene_without_members_witness :
  let scene := Examples.mkEntity "scene.empty" "scening" [] "2024-05-01T18:00:00+00:00" in
  let st1 := exec (toggleScene [scene] Examples.envOk "scene.empty") Examples.noScenes in
  let st2 := exec (toggleScene [scene] Examples.envOk "scene.empty") st1 in
  activeScenes st1 !! "scene.empty" =
    Some {| sceneId := "scene.empty"; originalStates := [] |} /\
  isSceneActive st1 "scene.empty" = true /\
  isSceneActive st2 "scene.empty" = false /\
  serviceCalls (effects st2) = [activationCall "scene.empty"].
Proof.
  exact (toggle_scene_without_members
           [Examples.mkEntity "scene.empty" "scening" [] "2024-05-01T18:00:00+00:00"]
           Examples.envOk "scene.empty" _ Examples.table JNull Examples.noScenes
           eq_refl eq_refl eq_refl eq_refl eq_refl).
Defined.

End SceneFurther.

Section DomainOfIds.
Import Json Types Facade SceneContext.

(** Strings: what comes before the first dot. *)
Lemma string_append_assoc (a b c : string) : ((a ++ b) ++ c = a ++ (b ++ c))%string.
Proof.
  induction a as [|x a IH]; [done|].
  change (String x ((a ++ b) ++ c) = String x (a ++ (b ++ c)))%string.
  by rewrite IH.
Qed.

Lemma string_length_append (a b : string) :
  String.length (a ++ b) = (String.length a + String.length b)%nat.
Proof.
  induction a as [|x a IH]; [done|].
  change (S (String.length (a ++ b)) = S (String.length a + String.length b)).
  by rewrite IH.
Qed.

Lemma domainOf_app_dot d rest :
  domainOf d = d -> domainOf (d ++ "." ++ rest) = d.
Proof.
  induction d as [|c d IH]; [done|].
  change (domainOf (String c d) = String c d ->
          domainOf (String c (d ++ "." ++ rest)) = String c d).
  simpl. destruct (Ascii.eqb c ".") eqn:Hc; [done|].
  intros [= Hd]. by rewrite IH.
Qed.

Lemma string_prefix_app_inv d id :
  String.prefix d id = true -> exists rest, id = d ++ rest.
Proof.
  revert id. induction d as [|c d IH]; intros id.
  - intros _. by exists id.
  - destruct id as [|c' id]; simpl; [done|].
    destruct (ascii_dec c c') as [<-|]; [|done].
    intros (rest & ->)%IH. by exists rest.
Qed.

Lemma string_prefix_app d rest : String.prefix d (d ++ rest) = true.
Proof.
  induction d as [|c d IH]; [by destruct rest|].
  change (String.prefix (String c d) (String c (d ++ rest)) = true).
  simpl. by destruct (ascii_dec c c).
Qed.

Lemma domainOf_split id :
  id = domainOf id \/ exists rest, id = domainOf id ++ "." ++ rest.
Proof.
  induction id as [|c id IH]; simpl; [by left|].
  destruct (Ascii.eqb c ".") eqn:Hc.
  - apply Ascii.eqb_eq in Hc as ->. right. by exists id.
  - destruct IH as [IH|[rest IH]].
    + left. by f_equal.
    + right. exists rest.
      change (String c id = String c (domainOf id ++ "." ++ rest)). by f_equal.
Qed.

(** X8: for a domain name without a dot, an id starts with the domain
    followed by a dot (the test of [captureEntityStates] and of
    [getEntitiesByDomain]) exactly when the part of the id before its first
    dot is the domain (the test of [deactivateScene]) and the id is not the
    bare domain name. *)
Theorem prefix_test_agrees_with_split domain id :
  domainOf domain = domain ->
  String.prefix (domain ++ ".") id = true <-> domainOf id = domain /\ id <> domain.
Proof.
  intros Hd. split.
  - intros (rest & ->)%string_prefix_app_inv. rewrite string_append_assoc.
    split; [by apply domainOf_app_dot|].
    intros Heq. apply (f_equal String.length) in Heq.
    rewrite !string_length_append in Heq. simpl in Heq. lia.
  - intros [Hid Hne]. destruct (domainOf_split id) as [Heq|[rest Heq]].
    + congruence.
    + rewrite Heq, Hid, <- string_append_assoc. apply string_prefix_app.
Qed.

Lemma prefix_test_witness :
  (String.prefix "light." "light.lamp" = true <->
   domainOf "light.lamp" = "light" /\ "light.lamp" <> "light") /\
  String.prefix "light." "light" = false.
Proof.
  split; [|reflexivity].
  exact (prefix_test_agrees_with_split "light" "light.lamp" eq_refl).
Defined.

End DomainOfIds.

Section RestFurther.
Import Json Types Protocol RestApiAdapter.
Local Open Scope list_scope.

Variable stringify : Obj -> string.

Local Abbreviation poll := (pollEntity stringify).

Lemma pollEntities_guard fetched a :
  connected a = false \/ entityCallbacks a = [] ->
  exec (_pollEntities stringify fetched) a = a.
Proof.
  intros H. unfold _pollEntities, pollReturns, pollSettled, exec, gets, mbind, state_bind. simpl.
  destruct H as [-> | ->]; [done|]. simpl. by rewrite orb_true_r.
Qed.

(** The loop reads the listeners and the remembered states only: on two
    adapters that agree on them it makes the same calls and remembers the
    same. *)
Lemma poll_loop_frame es a b :
  entityCallbacks b = entityCallbacks a ->
  lastStates b = lastStates a ->
  exists out,
    effects (exec (for_of es poll) a) = effects a ++ out /\
    effects (exec (for_of es poll) b) = effects b ++ out /\
    lastStates (exec (for_of es poll) b) = lastStates (exec (for_of es poll) a).
Proof.
  revert a b. induction es as [|e es IH]; intros a b Hcb Hlast.
  - exists []. by rewrite !exec_for_of_nil, !app_nil_r.
  - rewrite !exec_for_of_cons, !pollEntity_spec. cbn zeta. rewrite Hlast, Hcb.
    destruct (unchanged stringify (lastStates a !! entity_id e) e).
    + by apply IH.
    + set (new := map (fun cb => EntityCallback cb (entity_id e) e
                                   (lastStates a !! entity_id e)) (entityCallbacks a)).
      set (a1 := set_lastStates _ (set_effects (effects a ++ new) a)).
      set (b1 := set_lastStates _ (set_effects (effects b ++ new) b)).
      destruct (IH a1 b1) as (out & Ha & Hb & Hl).
      { by destruct a, b. }
      { done. }
      exists (new ++ out). rewrite Ha, Hb, Hl. subst a1 b1. simpl.
      by rewrite !app_assoc.
Qed.

(** X9: [disconnect] stops the loop for the polls that begin after it: the
    interval timer is cleared, and a poll that begins later returns at once
    whatever its request would give.  It does not stop a poll whose request
    is under way: when that request settles, the poll calls the listeners
    and remembers the entities exactly as it would have done had
    [disconnect] not been called. *)
Theorem poll_in_flight_outlives_disconnect es a :
  let a' := exec disconnect a in
  pollingInterval a' = None /\
  (forall fetched, exec (_pollEntities stringify fetched) a' = a') /\
  exists out,
    effects (exec (pollSettled stringify (Resolved es)) a) = effects a ++ out /\
    effects (exec (pollSettled stringify (Resolved es)) a') = effects a' ++ out /\
    lastStates (exec (pollSettled stringify (Resolved es)) a') =
      lastStates (exec (pollSettled stringify (Resolved es)) a).
Proof.
  intros a'. split; [done|]. split.
  { intros fetched. apply pollEntities_guard. by left. }
  apply poll_loop_frame; by destruct a.
Qed.

(** A cycle whose entities all pass the test changes nothing. *)
Lemma poll_loop_all_unchanged es a :
  (forall e, e ∈ es -> unchanged stringify (lastStates a !! entity_id e) e = true) ->
  exec (for_of es poll) a = a.
Proof.
  induction es as [|e es IH]; intros Hall; [done|].
  rewrite exec_for_of_cons, pollEntity_spec. simpl.
  rewrite Hall by (by left). apply IH. intros e' He'. apply Hall. by right.
Qed.

(** X10: a poll is idempotent: when the controller returns the same entities
    again (each id once), the second cycle changes nothing and calls no
    listener. *)
Theorem second_identical_poll_changes_nothing es a :
  NoDup (map entity_id es) ->
  let a1 := exec (_pollEntities stringify (Resolved es)) a in
  exec (_pollEntities stringify (Resolved es)) a1 = a1.
Proof.
  intros Hnd a1.
  destruct (connected a) eqn:Hc;
    [|subst a1; by rewrite !(pollEntities_guard _ a) by auto].
  destruct (entityCallbacks a) as [|cb cbs] eqn:Hcb;
    [subst a1; by rewrite !(pollEntities_guard _ a) by auto|].
  assert (Hcb' : entityCallbacks a <> []) by (by rewrite Hcb).
  subst a1. rewrite (pollEntities_resolved stringify a es) by done.
  rewrite pollEntities_resolved;
    [|by rewrite poll_loop_connected|by rewrite poll_loop_callbacks].
  apply poll_loop_all_unchanged. intros e He.
  destruct (poll_loop_observed stringify es a e Hnd He) as (x & Hx & Hsame).
  apply unchanged_true. by exists x.
Qed.

(** A cycle over entities none of which has been observed yet calls every
    listener for each of them, in order, with no old state. *)
Lemma poll_loop_first es a :
  NoDup (map entity_id es) ->
  (forall e, e ∈ es -> lastStates a !! entity_id e = None) ->
  let a' := exec (for_of es poll) a in
  effects a' = effects a ++
    flat_map (fun e => map (fun cb => EntityCallback cb (entity_id e) e None)
                           (entityCallbacks a)) es /\
  (forall e, e ∈ es -> lastStates a' !! entity_id e = Some e).
Proof.
  revert a. induction es as [|e es IH]; intros a Hnd Hnone.
  - split; [by rewrite app_nil_r|]. by intros e He%elem_of_nil.
  - simpl in Hnd. apply NoDup_cons in Hnd as [He Hnd].
    rewrite exec_for_of_cons, pollEntity_spec. cbn zeta.
    rewrite (Hnone e) by (by left). simpl unchanged. cbv iota.
    set (a1 := set_lastStates _ _).
    assert (Hfresh : forall e', e' ∈ es -> entity_id e' <> entity_id e).
    { intros e' He' Heq. apply He. rewrite <- Heq. apply list_elem_of_fmap. by exists e'. }
    destruct (IH a1 Hnd) as [Heff Hlast].
    { intros e' He'. subst a1. simpl. rewrite lookup_insert_ne by (symmetry; by apply Hfresh).
      apply Hnone. by right. }
    split.
    + rewrite Heff. subst a1. simpl. by rewrite <- app_assoc.
    + intros e' [->|He']%elem_of_cons; [|by apply Hlast].
      rewrite poll_loop_lastStates_other by done.
      subst a1. simpl. apply lookup_insert_eq.
Qed.

(** X11: the first poll of a connected adapter that has observed nothing yet
    calls every listener once for every fetched entity (each id once), in
    the order of the response, with [null] as the old state, and remembers
    every entity. *)
Theorem first_poll_notifies_everything es a :
  connected a = true ->
  entityCallbacks a <> [] ->
  lastStates a = ∅ ->
  NoDup (map entity_id es) ->
  let a' := exec (_pollEntities stringify (Resolved es)) a in
  effects a' = effects a ++
    flat_map (fun e => map (fun cb => EntityCallback cb (entity_id e) e None)
                           (entityCallbacks a)) es /\
  (forall e, e ∈ es -> lastStates a' !! entity_id e = Some e).
Proof.
  intros Hc Hcb Hempty Hnd a'. subst a'.
  rewrite (pollEntities_resolved stringify a es) by done.
  apply poll_loop_first; [done|]. intros e _. by rewrite Hempty, lookup_empty.
Qed.

(** X12: an entity that a response leaves out is not reported: no listener
    is called for its id and the adapter keeps the value it last observed
    for it. *)
Theorem missing_entity_is_not_reported es a i :
  (forall e, e ∈ es -> entity_id e <> i) ->
  let a' := exec (_pollEntities stringify (Resolved es)) a in
  lastStates a' !! i = lastStates a !! i /\
  exists out, effects a' = effects a ++ out /\ Forall (fun e => ~ notifies i e) out.
Proof.
  intros Hes a'. subst a'.
  destruct (connected a) eqn:Hc;
    [|rewrite pollEntities_guard by auto; split; [done|exists []; by rewrite app_nil_r]].
  destruct (entityCallbacks a) as [|cb cbs] eqn:Hcb;
    [rewrite pollEntities_guard by auto; split; [done|exists []; by rewrite app_nil_r]|].
  rewrite (pollEntities_resolved stringify a es) by (by rewrite ?Hcb).
  split; [by apply poll_loop_lastStates_other|].
  destruct (poll_loop_fired stringify es a) as (out & Hout & Hfired).
  exists out. split; [done|].
  eapply Forall_impl; [exact Hfired|]. intros [c j n o| |]; simpl; [|done..].
  intros (_ & Hn & -> & _) Hj. by apply (Hes n).
Qed.

(** X13: the poll loop runs once the adapter is connected and has a listener,
    in whichever order the two happen; connecting without a listener does
    not start it. *)
Theorem polling_starts_in_either_order es cb a :
  pollingInterval a = None ->
  pollingInterval (exec (subscribeToEntities cb ;; connect (Resolved es)) a)
    = Some pollingFrequency /\
  pollingInterval (exec (connect (Resolved es) ;; subscribeToEntities cb) a)
    = Some pollingFrequency /\
  (entityCallbacks a = [] ->
   pollingInterval (exec (connect (Resolved es)) a) = None).
Proof.
  intros Hp. destruct a as [c p ecb ccb errcb last effs]. simpl in Hp. subst p.
  unfold exec, subscribeToEntities, connect, _startPolling, _notifyConnectionState,
    callAll, modify, gets, mbind, state_bind, mret, state_ret. simpl.
  repeat split.
  - destruct c; simpl; rewrite length_app; simpl;
      by replace (0 <? length ecb + 1)%nat with true
        by (symmetry; apply Nat.ltb_lt; lia).
  - by destruct ecb.
  - by intros ->.
Qed.

End RestFurther.

Section RestFurtherWitnesses.
Import Json Types Protocol RestApiAdapter.
Local Open Scope list_scope.

(** A poll of the connected adapter whose request is under way when
    [disconnect] is called: the listener is called for the lamp once the
    request has settled, although the adapter is disconnected by then. *)
Lemma poll_in_flight_witness :
  let a' := exec disconnect Examples.polling in
  pollReturns Examples.polling = false /\
  connected a' = false /\
  effects (exec (pollSettled Examples.stringify (Resolved [Examples.lampOn])) a') =
    effects a' ++ [EntityCallback 2 "light.lamp" Examples.lampOn None].
Proof.
  intros a'. split; [reflexivity|]. split; [reflexivity|].
  destruct (poll_in_flight_outlives_disconnect Examples.stringify [Examples.lampOn]
              Examples.polling) as (_ & _ & out & Ha & Ha' & _).
  fold a' in Ha'. rewrite Ha'. f_equal.
  apply (app_inv_head (effects Examples.polling)). rewrite <- Ha. reflexivity.
Defined.

Lemma second_identical_poll_witness :
  NoDup (map entity_id Examples.table) /\
  let a1 :=
    exec (_pollEntities Examples.stringify (Resolved Examples.table)) Examples.polling in
  exec (_pollEntities Examples.stringify (Resolved Examples.table)) a1 = a1.
Proof.
  assert (Hnd : NoDup (map entity_id Examples.table)).
  { apply (bool_decide_unpack _). vm_compute. exact I. }
  split; [exact Hnd|].
  exact (second_identical_poll_changes_nothing Examples.stringify Examples.table
           Examples.polling Hnd).
Defined.

Lemma first_poll_witness :
  let a' :=
    exec (_pollEntities Examples.stringify (Resolved Examples.table))
         Examples.polling in
  lastStates Examples.polling = ∅ /\
  effects a' =
    (effects Examples.polling ++
     [EntityCallback 2 "scene.movie_night" Examples.movieNight None;
      EntityCallback 2 "light.lamp" Examples.lampOn None;
      EntityCallback 2 "switch.fan" Examples.fanOff None])%list.
Proof.
  split; [reflexivity|].
  refine (proj1 (first_poll_notifies_everything Examples.stringify Examples.table
                   Examples.polling eq_refl _ eq_refl _)).
  - discriminate.
  - apply (bool_decide_unpack _). vm_compute. exact I.
Defined.

Lemma missing_entity_witness :
  let a1 :=
    exec (_pollEntities Examples.stringify (Resolved Examples.table))
         Examples.polling in
  let a2 :=
    exec (_pollEntities Examples.stringify
            (Resolved [Examples.movieNight; Examples.lampOn])) a1 in
  lastStates a2 !! "switch.fan" = Some Examples.fanOff.
Proof.
  intros a1 a2.
  destruct (missing_entity_is_not_reported Examples.stringify
              [Examples.movieNight; Examples.lampOn] a1 "switch.fan") as [Hlast _].
  - intros e He. repeat (apply elem_of_cons in He as [->|He]); [discriminate..|].
    by apply elem_of_nil in He.
  - fold a2 in Hlast. rewrite Hlast. reflexivity.
Defined.

Lemma polling_starts_witness :
  pollingInterval
    (exec (subscribeToEntities 2 ;;
           connect (Resolved Examples.table)) new)
  = Some 3000%Z.
Proof.
  exact (proj1 (polling_starts_in_either_order Examples.table 2 new eq_refl)).
Defined.

End RestFurtherWitnesses.

Section RestErrors.
Import Json Types Protocol RestApiAdapter RestClient.
Local Open Scope list_scope.

Variable stringify : Obj -> string.

(** X14: what a failed poll does to a connected adapter with listeners.  The
    error always goes to the error listeners and nothing is reported about
    entities.  On HTTP 401 the adapter disconnects and stops polling; on a
    status of 500 or more, and when the request itself fails with an error
    without status, it tells the connection-state listeners of [ERROR] but
    stays connected and goes on polling; on any other status it does nothing
    more. *)
Theorem failed_poll_classification a (fetched : Fetched (list Entity)) error :
  connected a = true ->
  entityCallbacks a <> [] ->
  request fetched = Rejected error ->
  let a' := exec (_pollEntities stringify (request fetched)) a in
  let reported :=
    effects a ++ map (fun cb => ErrorCallback cb error) (errorCallbacks a) in
  let told state :=
    map (fun cb => ConnectionCallback cb state) (connectionCallbacks a) in
  lastStates a' = lastStates a /\
  match status error with
  | Some s =>
      if (s =? 401)%Z then
        connected a' = false /\ pollingInterval a' = None /\
        effects a' = reported ++ told CLOSED
      else if (500 <=? s)%Z then
        connected a' = true /\ pollingInterval a' = pollingInterval a /\
        effects a' = reported ++ told ERROR
      else
        connected a' = true /\ pollingInterval a' = pollingInterval a /\
        effects a' = reported
  | None =>
      connected a' = true /\ pollingInterval a' = pollingInterval a /\
      effects a' = reported ++ told ERROR
  end.
Proof.
  intros Hc Hcb Hreq. rewrite Hreq.
  destruct a as [c p ecb ccb errcb last effs]. simpl in *. subst c.
  unfold exec, _pollEntities, pollReturns, pollSettled, _handleApiError, _notifyError, _notifyConnectionState,
    disconnect, callAll, modify, gets, mbind, state_bind, mret, state_ret. simpl.
  destruct ecb as [|cb ecb]; [done|]. simpl.
  destruct (status error) as [s|]; [|done].
  destruct (s =? 401)%Z; [done|]. by destruct (500 <=? s)%Z.
Qed.

End RestErrors.

Section RestErrorsWitness.
Import Json Types Protocol RestApiAdapter RestClient.
Local Open Scope list_scope.

Lemma failed_poll_witness :
  let unauthorized : Fetched (list Entity) :=
    Responded {| resp_status := 401; resp_statusText := "Unauthorized";
                 resp_json := Resolved [] |} in
  let a' := exec (_pollEntities Examples.stringify (request unauthorized)) Examples.polling in
  request unauthorized =
    Rejected {| message := "API request failed: 401 Unauthorized"; status := Some 401%Z |} /\
  connected a' = false /\ pollingInterval a' = None.
Proof.
  intros unauthorized a'. split; [reflexivity|].
  destruct (failed_poll_classification Examples.stringify Examples.polling unauthorized
              {| message := "API request failed: 401 Unauthorized"; status := Some 401%Z |}
              eq_refl) as (_ & Hc & Hp & _); [discriminate|reflexivity|].
  split; [exact Hc|exact Hp].
Defined.
End RestErrorsWitness.

Section WebSocketFurther.
Import Json Types Protocol WebSocketApi.
Local Open Scope list_scope.

Local Arguments Z.add : simpl never.

Local Ltac run_ws :=
  unfold exec, eval, disconnect, onclose, onerror, onmessage, onopen,
    handleMessage, handleResult, handleEvent, authenticate, attemptReconnect,
    reconnectTimeout, connect, connectExecutor, sendCommand, sendCommandExecutor,
    subscribeEntities, heartbeatTick, setupHeartbeat, clearTimers,
    updateConnectionState, notifyError, resolve, reject, settle, newPromise,
    setReadyState, callAll, emit, modify, gets, mbind, state_bind, mret, state_ret;
  simpl.

(** X15: a command issued while the client is not connected (no socket, a
    socket that is not open, or a state other than [CONNECTED]) is rejected
    at once with [WebSocket not connected]: nothing is sent, no id is used
    and nothing is added to the pending commands. *)
Theorem command_when_not_connected_is_rejected command params st :
  ~ (socketReadyState st = Some WS_OPEN /\ connectionState st = CONNECTED) ->
  eval (sendCommand command params) st = length (promises st) /\
  exec (sendCommand command params) st =
    set_promises (promises st ++ [RejectedWith (mkError "WebSocket not connected")]) st.
Proof.
  intros Hnot. split.
  { unfold sendCommand, eval, newPromise, mbind, state_bind, mret, state_ret. simpl.
    by destruct (sendCommandExecutor _ _ _ _) as [[] s']. }
  assert (Hp : forall (l : list Promise),
            <[length l := RejectedWith (mkError "WebSocket not connected")]> (l ++ [Pending])
            = l ++ [RejectedWith (mkError "WebSocket not connected")]).
  { intros l. rewrite insert_app_r_alt by lia. by rewrite Nat.sub_diag. }
  assert (Hl : forall (l : list Promise), (l ++ [Pending]) !! length l = Some Pending)
    by (intros l; by apply list_lookup_middle).
  destruct st as [tok sock cs mid pend scb ccb ecb rt ht ra socks proms effs].
  unfold socketReadyState in Hnot. simpl in Hnot. run_ws.
  destruct sock as [s|]; simpl in *; [|by rewrite Hl, Hp].
  unfold socketReadyState. simpl.
  destruct (socks !! s) as [[rs p]|]; simpl in *;
    [|by rewrite Hl, Hp].
  destruct rs, cs; simpl; rewrite ?Hl, ?Hp; try done.
  by destruct Hnot.
Qed.

Lemma command_when_not_connected_witness :
  promises (exec (callService "light" "turn_on" []) authenticatingApi) =
    promises authenticatingApi ++ [RejectedWith (mkError "WebSocket not connected")] /\
  effects (exec (callService "light" "turn_on" []) authenticatingApi) =
    effects authenticatingApi.
Proof.
  destruct (command_when_not_connected_is_rejected "call_service"
              [("domain", JStr "light"); ("service", JStr "turn_on");
               ("service_data", JObj [])] authenticatingApi) as [_ H].
  - intros [_ H]. discriminate H.
  - unfold callService. rewrite H. split; vm_compute; reflexivity.
Defined.

(** X16: a reply whose id is not among the pending commands is dropped: the
    state of the client does not change and nobody is called. *)
Theorem unknown_reply_is_dropped st s id success result error :
  pendingCommands st !! id = None ->
  exec (onmessage s (Parsed (Result id success result error))) st = st.
Proof.
  intros Hid. run_ws. destruct (sockets st !! s); [|done]. simpl. by rewrite Hid.
Qed.

Lemma unknown_reply_witness :
  exec (onmessage 0 (Parsed (Result 42 true (Some JNull) None))) inflightApi = inflightApi.
Proof. exact (unknown_reply_is_dropped inflightApi 0 42 true (Some JNull) None eq_refl). Defined.

(** X17: a reply with [success = true] to an outstanding invocation fulfils
    its promise with the result and removes the entry, calling nobody; a
    further reply with the same id, whatever it says, then changes
    nothing. *)
Theorem successful_reply_settles_once st s o id p result :
  sockets st !! s = Some o ->
  outstanding st id p ->
  let st' := exec (onmessage s (Parsed (Result id true result None))) st in
  promises st' !! p = Some (Fulfilled result) /\
  pendingCommands st' = delete id (pendingCommands st) /\
  effects st' = effects st /\
  forall success' result' error',
    exec (onmessage s (Parsed (Result id success' result' error'))) st' = st'.
Proof.
  intros Ho [Hid Hp] st'.
  assert (Hst' : st' = set_promises (<[p := Fulfilled result]> (promises st))
                         (set_pendingCommands (delete id (pendingCommands st)) st)).
  { subst st'. destruct st as [tok sock cs mid pend scb ccb ecb rt ht ra socks proms effs].
    simpl in *. run_ws. rewrite Ho. simpl. rewrite Hid. simpl. by rewrite Hp. }
  rewrite Hst'. simpl. split.
  { apply list_lookup_insert_eq. by eapply lookup_lt_Some. }
  split; [done|]. split; [done|]. intros success' result' error'.
  run_ws. rewrite Ho. simpl. by rewrite lookup_delete_eq.
Qed.

Lemma successful_reply_witness :
  let st' := exec (onmessage 0 (Parsed (Result 1 true (Some JNull) None))) inflightApi in
  outstanding inflightApi 1 1 /\
  promises st' !! 1%nat = Some (Fulfilled (Some JNull)) /\
  exec (onmessage 0 (Parsed (Result 1 false None None))) st' = st'.
Proof.
  assert (H : outstanding inflightApi 1 1) by (split; reflexivity).
  split; [exact H|].
  destruct (successful_reply_settles_once inflightApi 0
              {| readyState := WS_OPEN; connectPromise := 0 |} 1 1 (Some JNull) eq_refl H)
    as (Hp & _ & _ & Hagain).
  split; [exact Hp|apply Hagain].
Defined.

(** X18: [connect] on a client whose socket is open or opening returns a
    promise that is already fulfilled and does nothing else: no socket is
    made and the connection state is not touched. *)
Theorem connect_while_open_resolves_at_once created st :
  socketReadyState st = Some WS_OPEN \/ socketReadyState st = Some WS_CONNECTING ->
  eval (connect created) st = length (promises st) /\
  exec (connect created) st = set_promises (promises st ++ [Fulfilled None]) st.
Proof.
  intros Hrs. split.
  { unfold connect, eval, newPromise, mbind, state_bind, mret, state_ret. simpl.
    by destruct (connectExecutor _ _ _) as [[] s']. }
  assert (Hp : forall (l : list Promise),
            <[length l := Fulfilled None]> (l ++ [Pending]) = l ++ [Fulfilled None]).
  { intros l. rewrite insert_app_r_alt by lia. by rewrite Nat.sub_diag. }
  assert (Hl : forall (l : list Promise), (l ++ [Pending]) !! length l = Some Pending)
    by (intros l; by apply list_lookup_middle).
  destruct st as [tok sock cs mid pend scb ccb ecb rt ht ra socks proms effs].
  unfold socketReadyState in Hrs. simpl in Hrs.
  unfold exec, connect, connectExecutor, resolve, settle, newPromise, modify, gets,
    mbind, state_bind, mret, state_ret. simpl.
  unfold socketReadyState. simpl.
  destruct Hrs as [-> | ->]; simpl; by rewrite Hl, Hp.
Qed.

Lemma connect_while_open_witness :
  socketReadyState connectedApi = Some WS_OPEN /\
  sockets (exec (connect (Resolved tt)) connectedApi) = sockets connectedApi /\
  promises (exec (connect (Resolved tt)) connectedApi) =
    promises connectedApi ++ [Fulfilled None].
Proof.
  split; [reflexivity|].
  destruct (connect_while_open_resolves_at_once (Resolved tt) connectedApi) as [_ H];
    [by left|].
  rewrite H. split; vm_compute; reflexivity.
Defined.


Lemma connect_fresh_fields st :
  socketReadyState st <> Some WS_OPEN ->
  socketReadyState st <> Some WS_CONNECTING ->
  let st' := exec (connect (Resolved tt)) st in
  let p := length (promises st) in
  let s := length (sockets st) in
  eval (connect (Resolved tt)) st = p /\
  socket st' = Some s /\
  sockets st' !! s = Some {| readyState := WS_CONNECTING; connectPromise := p |} /\
  promises st' !! p = Some Pending /\
  accessToken st' = accessToken st.
Proof.
  intros Hopen Hconn st' p s. subst st' p s.
  split.
  { unfold connect, eval, newPromise, mbind, state_bind, mret, state_ret.
    simpl. by destruct (connectExecutor _ _ _) as [[] s']. }
  destruct st as [tok sock cs mid pend scb ccb ecb rt ht ra socks proms effs].
  unfold socketReadyState in Hopen, Hconn. simpl in Hopen, Hconn.
  unfold exec, connect, connectExecutor, newPromise, gets, mbind, state_bind,
    mret, state_ret. simpl.
  unfold socketReadyState. simpl.
  rewrite (bool_decide_eq_false_2 _ Hopen), (bool_decide_eq_false_2 _ Hconn). simpl.
  run_ws.
  destruct cs; simpl; repeat split; try done;
    by apply list_lookup_middle.
Qed.

Lemma onopen_fields st s o :
  sockets st !! s = Some o ->
  let st' := exec (onopen s) st in
  sockets st' !! s = Some {| readyState := WS_OPEN; connectPromise := connectPromise o |} /\
  socket st' = socket st /\
  promises st' = promises st /\
  accessToken st' = accessToken st /\
  effects st' = effects st /\
  reconnectAttempts st' = 0%Z /\
  heartbeatTimer st' = Some 30000%Z /\
  reconnectTimer st' = None.
Proof.
  intros Ho st'. subst st'.
  destruct st as [tok sock cs mid pend scb ccb ecb rt ht ra socks proms effs].
  simpl in Ho. run_ws. rewrite Ho. simpl. repeat split; try done.
  apply list_lookup_insert_eq. by eapply lookup_lt_Some.
Qed.

Lemma auth_required_fields st s o :
  sockets st !! s = Some o ->
  socket st = Some s ->
  let st' := exec (onmessage s (Parsed AuthRequired)) st in
  Send s (OutAuth (accessToken st)) ∈ effects st' /\
  sockets st' = sockets st /\
  socket st' = socket st /\
  promises st' = promises st /\
  reconnectAttempts st' = reconnectAttempts st /\
  heartbeatTimer st' = heartbeatTimer st /\
  reconnectTimer st' = reconnectTimer st.
Proof.
  intros Ho Hs st'. subst st'.
  destruct st as [tok sock cs mid pend scb ccb ecb rt ht ra socks proms effs].
  simpl in Ho, Hs. subst sock. run_ws. rewrite Ho. simpl.
  destruct cs; simpl; repeat split; try done;
    rewrite elem_of_app; right; by left.
Qed.

Lemma auth_ok_fields st s o :
  sockets st !! s = Some o ->
  promises st !! connectPromise o = Some Pending ->
  let st' := exec (onmessage s (Parsed AuthOk)) st in
  connectionState st' = CONNECTED /\
  promises st' !! connectPromise o = Some (Fulfilled None) /\
  (exists l, effects st' = effects st ++ l) /\
  sockets st' = sockets st /\
  socket st' = socket st /\
  reconnectAttempts st' = reconnectAttempts st /\
  heartbeatTimer st' = heartbeatTimer st /\
  reconnectTimer st' = reconnectTimer st.
Proof.
  intros Ho Hp st'. subst st'.
  destruct st as [tok sock cs mid pend scb ccb ecb rt ht ra socks proms effs].
  simpl in Ho, Hp. run_ws. rewrite Ho. simpl.
  destruct cs; simpl; rewrite Hp; simpl; repeat split; try done;
    try (apply list_lookup_insert_eq; by eapply lookup_lt_Some);
    try (by eexists);
    exists []; by rewrite app_nil_r.
Qed.

(** X19: the handshake.  On a client without an open or opening socket,
    [connect] makes a socket; when that socket opens, the server asks for
    authentication and accepts the token, the client has sent its token on
    that socket and is [CONNECTED], the promise that [connect] returned is
    fulfilled, the 30-second heartbeat runs, no reconnection is scheduled
    and the count of failed attempts is 0. *)
Theorem handshake_connects st :
  socketReadyState st <> Some WS_OPEN ->
  socketReadyState st <> Some WS_CONNECTING ->
  let p := eval (connect (Resolved tt)) st in
  let s := length (sockets st) in
  let st' :=
    exec (connect (Resolved tt) ;; onopen s ;;
          onmessage s (Parsed AuthRequired) ;; onmessage s (Parsed AuthOk)) st in
  connectionState st' = CONNECTED /\
  promises st' !! p = Some (Fulfilled None) /\
  socket st' = Some s /\
  socketReadyState st' = Some WS_OPEN /\
  heartbeatTimer st' = Some 30000%Z /\
  reconnectTimer st' = None /\
  reconnectAttempts st' = 0%Z /\
  Send s (OutAuth (accessToken st)) ∈ effects st'.
Proof.
  intros Hopen Hconn p s st'. subst p st'.
  destruct (connect_fresh_fields st Hopen Hconn) as (-> & Hs1 & Hk1 & Hp1 & Ht1).
  fold s in Hs1, Hk1. rewrite !exec_bind.
  set (st1 := exec (connect (Resolved tt)) st) in *.
  destruct (onopen_fields st1 s _ Hk1)
    as (Hk2 & Hs2 & Hp2 & Ht2 & _ & Hra2 & Hht2 & Hrt2).
  set (st2 := exec (onopen s) st1) in *. simpl in Hk2.
  assert (Hs2' : socket st2 = Some s) by congruence.
  destruct (auth_required_fields st2 s _ Hk2 Hs2')
    as (Hsend & Hk3 & Hs3 & Hp3 & Hra3 & Hht3 & Hrt3).
  set (st3 := exec (onmessage s (Parsed AuthRequired)) st2) in *.
  assert (Hk3' : sockets st3 !! s =
                 Some {| readyState := WS_OPEN; connectPromise := length (promises st) |})
    by (by rewrite Hk3).
  assert (Hp3' : promises st3 !! length (promises st) = Some Pending)
    by (by rewrite Hp3, Hp2).
  destruct (auth_ok_fields st3 s _ Hk3' Hp3')
    as (Hcs & Hp4 & [l Heff] & Hk4 & Hs4 & Hra4 & Hht4 & Hrt4).
  set (st4 := exec (onmessage s (Parsed AuthOk)) st3) in *. simpl in Hp4.
  repeat split.
  - exact Hcs.
  - exact Hp4.
  - congruence.
  - unfold socketReadyState. rewrite Hs4, Hs3, Hs2'. simpl. by rewrite Hk4, Hk3'.
  - congruence.
  - congruence.
  - congruence.
  - rewrite Heff, elem_of_app. left. by rewrite Ht2, Ht1 in Hsend.
Qed.

Lemma handshake_witness :
  let st' :=
    exec (connect (Resolved tt) ;; onopen 0 ;;
          onmessage 0 (Parsed AuthRequired) ;; onmessage 0 (Parsed AuthOk))
         (new "token") in
  connectionState st' = CONNECTED /\ promises st' !! 0%nat = Some (Fulfilled None).
Proof.
  destruct (handshake_connects (new "token")) as (Hcs & Hp & _); [discriminate..|].
  split; [exact Hcs|exact Hp].
Defined.

(** X20: no heartbeat is sent once [disconnect] has been called or a socket
    has closed: the heartbeat timer is cleared, and its tick then changes
    nothing. *)
Theorem no_heartbeat_after_close_or_disconnect st :
  (heartbeatTimer (exec disconnect st) = None /\
   exec heartbeatTick (exec disconnect st) = exec disconnect st) /\
  forall s,
    heartbeatTimer (exec (onclose s) st) = None /\
    exec heartbeatTick (exec (onclose s) st) = exec (onclose s) st.
Proof.
  assert (Hidle : forall st0, heartbeatTimer st0 = None ->
            heartbeatTimer st0 = None /\ exec heartbeatTick st0 = st0).
  { intros st0 H0. split; [done|].
    unfold heartbeatTick, exec, gets, mbind, state_bind. simpl.
    by rewrite H0. }
  split.
  - apply Hidle. apply ws_disconnect_fields.
  - intros s. apply Hidle.
    destruct (sockets st !! s) as [o|] eqn:Ho.
    + by destruct (onclose_schedule st s o Ho) as (_ & H & _).
    + destruct st as [tok sock cs mid pend scb ccb ecb rt ht ra socks proms effs].
      simpl in Ho. run_ws. rewrite Ho. simpl.
      destruct cs; simpl; destruct (maxReconnectAttempts <=? ra)%Z; done.
Qed.

(** X21: a socket that opens resets the backoff: however many attempts had
    failed before, when that socket closes again the next attempt is due
    after one second. *)
Theorem open_resets_backoff st s o :
  sockets st !! s = Some o ->
  let st' := exec (onopen s ;; onclose s) st in
  connectionState st' = RECONNECTING /\
  reconnectTimer st' = Some 1000%Z /\
  reconnectAttempts st' = 0%Z.
Proof.
  intros Ho st'. subst st'. rewrite exec_bind.
  assert (Hopened : reconnectAttempts (exec (onopen s) st) = 0%Z /\
                    exists o', sockets (exec (onopen s) st) !! s = Some o').
  { destruct st as [tok sock cs mid pend scb ccb ecb rt ht ra socks proms effs].
    simpl in Ho. run_ws. rewrite Ho. simpl. split; [done|].
    eexists. apply list_lookup_insert_eq. by eapply lookup_lt_Some. }
  destruct Hopened as (Hra & o' & Ho').
  destruct (onclose_schedule (exec (onopen s) st) s o' Ho') as (Hra' & _ & Hsched).
  rewrite Hra in Hsched, Hra'. simpl in Hsched. destruct Hsched as [Hcs Hrt].
  repeat split; done.
Qed.

Lemma open_resets_backoff_witness :
  let failing := exec (onclose 0 ;; failedAttempts 3) connectedApi in
  reconnectTimer failing = Some 8000%Z /\
  reconnectTimer (exec (onopen 3 ;; onclose 3) failing) = Some 1000%Z.
Proof.
  split; [vm_compute; reflexivity|].
  apply (open_resets_backoff _ 3 {| readyState := WS_CLOSED; connectPromise := 3 |}).
  vm_compute. reflexivity.
Defined.

Lemma sendCommand_keeps_listeners command params st :
  stateChangedCallbacks (sendCommand command params st).2 = stateChangedCallbacks st /\
  sockets (sendCommand command params st).2 = sockets st.
Proof.
  destruct st as [tok sock cs mid pend scb ccb ecb rt ht ra socks proms effs].
  run_ws. unfold socketReadyState. simpl.
  destruct sock as [s0|]; simpl;
    [destruct (bool_decide _ && bool_decide _); simpl|];
    repeat match goal with
           | |- context [(?l ++ [Pending]) !! length ?l] =>
               rewrite (list_lookup_middle l [] Pending (length l) eq_refl); simpl
           end; done.
Qed.

(** X22: a [state_changed] event is passed to every registered listener, in
    the order of registration, whatever entity ids the listener gave when it
    subscribed; an event of another type is passed to nobody. *)
Theorem events_reach_every_listener st s o callback entityIds i event_type data :
  sockets st !! s = Some o ->
  let st1 := exec (subscribeEntities callback entityIds) st in
  let st2 := exec (onmessage s (Parsed (Event i event_type data))) st1 in
  stateChangedCallbacks st1 = stateChangedCallbacks st ++ [callback] /\
  st2 =
    if bool_decide (event_type = "state_changed") then
      set_effects
        (effects st1 ++
         map (fun cb => StateChanged cb (data_entity_id data) (new_state data) (old_state data))
             (stateChangedCallbacks st ++ [callback]))
        st1
    else st1.
Proof.
  intros Ho st1 st2.
  assert (H1 : stateChangedCallbacks st1 = stateChangedCallbacks st ++ [callback] /\
               sockets st1 = sockets st).
  { subst st1. unfold subscribeEntities, exec, modify, gets, mbind, state_bind. simpl.
    destruct (bool_decide (connectionState st = CONNECTED)).
    - match goal with
      | |- context [sendCommand ?c ?ps ?s0] =>
          destruct (sendCommand_keeps_listeners c ps s0) as [-> ->]
      end. by destruct st.
    - by destruct st. }
  destruct H1 as [Hcbs Hsocks]. split; [exact Hcbs|].
  subst st2. unfold onmessage, exec, gets, mbind, state_bind. simpl.
  rewrite Hsocks, Ho. unfold handleMessage, handleEvent.
  destruct (bool_decide (event_type = "state_changed")); [|done].
  unfold callAll, modify, gets, mbind, state_bind. simpl. by rewrite Hcbs.
Qed.

Lemma events_reach_every_listener_witness :
  let st1 := exec (subscribeEntities 5 (Some ["light.lamp"])) connectedApi in
  let data :=
    {| data_entity_id := "switch.fan"; new_state := Some Examples.fanOff;
       old_state := None |} in
  effects (exec (onmessage 0 (Parsed (Event 1 "state_changed" data))) st1) =
    effects st1 ++ [StateChanged 5 "switch.fan" (Some Examples.fanOff) None].
Proof.
  intros st1 data.
  destruct (events_reach_every_listener connectedApi 0
              {| readyState := WS_OPEN; connectPromise := 0 |} 5 (Some ["light.lamp"%string])
              1 "state_changed" data eq_refl) as [_ H].
  fold st1 in H. rewrite H. vm_compute. reflexivity.
Defined.

End WebSocketFurther.

Section Signals.
Import Json Types Protocol WebSocketApi.
Local Open Scope list_scope.

Variable J : Api -> Prop.
Hypothesis J_frame : forall st st', sameSignals st st' -> J st -> J st'.
Hypothesis J_silent : forall l st,
  Forall silent l -> J st -> J (set_effects (effects st ++ l) st).
Hypothesis J_update : forall state st,
  J st ->
  J (set_effects
       (effects st ++ map (fun cb => ConnectionStateChanged cb state) (connectionStateCallbacks st))
       (set_connectionState state st)).
Hypothesis J_subscribe : forall cb st,
  J st ->
  J (set_effects (effects st ++ [ConnectionStateChanged cb (connectionState st)])
       (set_connectionStateCallbacks (connectionStateCallbacks st ++ [cb]) st)).
(** The parameters that the invariant lets a command have, and what it
    asks of a message written under a new id. *)
Variable plain : Obj -> Prop.
Variable carries : Z -> Outgoing -> Prop.
Hypothesis J_send : forall s msg st,
  carries (messageId st) msg ->
  J st ->
  J (set_effects (effects st ++ [Send s msg]) (set_messageId (increment (messageId st)) st)).
Hypothesis carries_command : forall id command params,
  plain params -> carries id (OutCommand (commandMessage id command params)).
Hypothesis carries_ping : forall id, carries id (OutPing id).
Hypothesis plain_subscribe : forall entityIds : option (list string),
  plain (("event_type", JStr "state_changed")
         :: match entityIds with
            | Some ids => [("entity_ids", JArr (map JStr ids))]
            | None => []
            end).

Let allowed (i : Input) : Prop :=
  match i with
  | SendCommand _ params => plain params
  | _ => True
  end.

Lemma signals_seq {A B} (m : State Api A) (k : A -> State Api B) R :
  keeps J m (fun _ => True) -> (forall a, keeps J (k a) R) -> keeps J (m ≫= k) R.
Proof. intros Hm Hk. eapply keeps_bind; [exact Hm|]. intros a _. apply Hk. Qed.

Lemma signals_gets {A} (f : Api -> A) : keeps J (gets f) (fun _ => True).
Proof. intros st Hst. by split. Qed.

Lemma signals_set (f : Api -> Api) :
  (forall st, sameSignals st (f st)) -> keeps J (modify f) (fun _ => True).
Proof. intros H st Hst. split; [done|]. by eapply J_frame. Qed.

Lemma signals_emit e : silent e -> keeps J (emit e) (fun _ => True).
Proof. intros He st Hst. split; [done|]. apply J_silent; [|done]. by constructor. Qed.

Lemma signals_callAll cbs call :
  (forall cb, silent (call cb)) -> keeps J (callAll cbs call) (fun _ => True).
Proof.
  intros Hc st Hst. split; [done|]. apply J_silent; [|done].
  apply Forall_forall. intros e [cb [-> _]]%list_elem_of_fmap. apply Hc.
Qed.

Local Ltac signals_step :=
  first
    [ apply keeps_ret; done
    | apply keeps_if
    | apply signals_emit; done
    | apply signals_callAll; done
    | apply signals_gets
    | apply signals_set; done
    | apply signals_seq; [|intros ?] ].

Lemma signals_updateConnectionState state :
  keeps J (updateConnectionState state) (fun _ => True).
Proof.
  intros st Hst. split; [done|].
  unfold updateConnectionState, exec, callAll, modify, gets, mbind, state_bind, mret,
    state_ret. simpl.
  destruct (bool_decide (connectionState st = state)); simpl; [done|].
  replace (connectionStateCallbacks (set_connectionState state st))
    with (connectionStateCallbacks st) by (by destruct st).
  replace (effects (set_connectionState state st)) with (effects st) by (by destruct st).
  by apply J_update.
Qed.

Lemma signals_subscribeConnectionState cb :
  keeps J (subscribeConnectionState cb) (fun _ => True).
Proof.
  intros st Hst. split; [done|].
  specialize (J_subscribe cb st Hst). by destruct st.
Qed.

Lemma signals_notifyError error : keeps J (notifyError error) (fun _ => True).
Proof. unfold notifyError. repeat signals_step. Qed.

Lemma signals_clearTimers : keeps J clearTimers (fun _ => True).
Proof. unfold clearTimers. repeat signals_step. Qed.

Lemma signals_setupHeartbeat : keeps J setupHeartbeat (fun _ => True).
Proof.
  unfold setupHeartbeat.
  apply signals_seq; [apply signals_clearTimers|intros ?]. signals_step.
Qed.

Lemma signals_newPromise initial : keeps J (newPromise initial) (fun _ => True).
Proof. intros st Hst. split; [done|]. eapply J_frame; [|exact Hst]. done. Qed.

Lemma signals_settle p outcome : keeps J (settle p outcome) (fun _ => True).
Proof.
  apply signals_set. intros st. by destruct (promises st !! p) as [[]|].
Qed.

Lemma signals_setReadyState s rs : keeps J (setReadyState s rs) (fun _ => True).
Proof. apply signals_set. intros st. by destruct (sockets st !! s). Qed.

Lemma signals_authenticate : keeps J authenticate (fun _ => True).
Proof.
  unfold authenticate.
  apply signals_seq; [apply signals_gets|intros [s|]]; repeat signals_step.
Qed.

Lemma signals_handleEvent event_type data :
  keeps J (handleEvent event_type data) (fun _ => True).
Proof. unfold handleEvent. repeat signals_step. Qed.

Lemma signals_handleResult id success result error :
  keeps J (handleResult id success result error) (fun _ => True).
Proof.
  unfold handleResult.
  apply signals_seq; [apply signals_gets|intros [c|]]; [|signals_step].
  apply signals_seq; [by apply signals_set|intros ?].
  destruct success; [apply signals_settle|apply signals_notifyError].
Qed.

Lemma signals_handleMessage data p : keeps J (handleMessage data p) (fun _ => True).
Proof.
  destruct data as [[]|error]; simpl.
  - apply signals_seq; [apply signals_updateConnectionState|intros ?].
    apply signals_authenticate.
  - apply signals_seq; [apply signals_updateConnectionState|intros ?].
    apply signals_settle.
  - apply signals_seq; [apply signals_updateConnectionState|intros ?].
    apply signals_seq; [apply signals_notifyError|intros ?].
    apply signals_settle.
  - apply signals_handleResult.
  - apply signals_handleEvent.
  - by apply keeps_ret.
  - by apply keeps_ret.
  - apply signals_notifyError.
Qed.

Lemma signals_attemptReconnect : keeps J attemptReconnect (fun _ => True).
Proof.
  unfold attemptReconnect.
  apply signals_seq; [apply signals_gets|intros [d|]]; [signals_step|].
  apply signals_seq; [apply signals_gets|intros attempts].
  apply keeps_if.
  - apply signals_seq; [apply signals_updateConnectionState|intros ?].
    apply signals_notifyError.
  - apply signals_seq; [apply signals_updateConnectionState|intros ?]. signals_step.
Qed.

Lemma signals_connect created : keeps J (connect created) (fun _ => True).
Proof.
  unfold connect, connectExecutor.
  apply signals_seq; [apply signals_newPromise|intros p].
  apply signals_seq; [|intros ?; by apply keeps_ret].
  apply signals_seq; [apply signals_gets|intros rs].
  apply keeps_if; [apply signals_settle|].
  apply signals_seq; [apply signals_updateConnectionState|intros ?].
  destruct created as [[]|error].
  - repeat signals_step.
  - apply signals_seq; [apply signals_updateConnectionState|intros ?].
    apply signals_seq; [apply signals_notifyError|intros ?].
    apply signals_settle.
Qed.

Lemma signals_disconnect : keeps J disconnect (fun _ => True).
Proof.
  unfold disconnect.
  apply signals_seq; [apply signals_clearTimers|intros ?].
  apply signals_seq; [apply signals_gets|intros [s|]].
  - apply signals_seq; [|intros ?; apply signals_updateConnectionState].
    apply signals_seq; [by apply signals_emit|intros ?].
    apply signals_seq; [apply signals_gets|intros rs].
    apply signals_seq; [|intros ?; by apply signals_set].
    apply keeps_if; [apply signals_setReadyState|by apply keeps_ret].
  - apply signals_seq; [by apply keeps_ret|intros ?].
    apply signals_updateConnectionState.
Qed.

(** Taking the next id and writing a message that carries it. *)
Lemma signals_send s (out : Z -> Outgoing) (between : Z -> Api -> Api) :
  (forall id, carries id (out id)) ->
  (forall id st, sameSignals st (between id st)) ->
  forall st, J st ->
  J (exec (modify (set_messageId (increment (messageId st))) ;;
           modify (between (messageId st)) ;;
           emit (Send s (out (messageId st)))) st).
Proof.
  intros Hid Hbetween st Hst.
  unfold exec, emit, modify, mbind, state_bind. simpl.
  pose proof (J_send s (out (messageId st)) st (Hid _) Hst) as Hsent.
  set (st1 := set_messageId (increment (messageId st)) st) in *.
  destruct (Hbetween (messageId st) st1) as (Hcs & Hcbs & Hmid & Heff).
  eapply J_frame; [|exact Hsent].
  unfold sameSignals. simpl. by rewrite Hcs, Hcbs, Hmid, Heff.
Qed.

Lemma signals_sendCommand command params :
  plain params -> keeps J (sendCommand command params) (fun _ => True).
Proof.
  intros Hplain. unfold sendCommand, sendCommandExecutor.
  apply signals_seq; [apply signals_newPromise|intros p].
  apply signals_seq; [|intros ?; by apply keeps_ret].
  intros st Hst. split; [done|].
  unfold exec at 1, gets at 1, mbind at 1, state_bind at 1. simpl.
  destruct (socket st) as [s|]; [|by apply signals_settle].
  destruct (bool_decide _ && bool_decide _); [|by apply signals_settle].
  apply (signals_send s (fun id => OutCommand (commandMessage id command params))
           (fun id st => set_pendingCommands (<[id := p]> (pendingCommands st)) st));
    [intros id; by apply carries_command|done|done].
Qed.

Lemma signals_subscribeEntities callback entityIds :
  keeps J (subscribeEntities callback entityIds) (fun _ => True).
Proof.
  unfold subscribeEntities.
  apply signals_seq; [by apply signals_set|intros ?].
  apply signals_seq; [apply signals_gets|intros current].
  apply keeps_if; [apply signals_sendCommand, plain_subscribe|apply signals_newPromise].
Qed.

Lemma signals_onopen s : keeps J (onopen s) (fun _ => True).
Proof.
  unfold onopen.
  apply signals_seq; [apply signals_setReadyState|intros ?].
  apply signals_seq; [by apply signals_set|intros ?].
  apply signals_setupHeartbeat.
Qed.

Lemma signals_onmessage s data : keeps J (onmessage s data) (fun _ => True).
Proof.
  unfold onmessage.
  apply signals_seq; [apply signals_gets|intros [o|]];
    [apply signals_handleMessage|by apply keeps_ret].
Qed.

Lemma signals_onclose s : keeps J (onclose s) (fun _ => True).
Proof.
  unfold onclose.
  apply signals_seq; [apply signals_setReadyState|intros ?].
  apply signals_seq; [apply signals_updateConnectionState|intros ?].
  apply signals_seq; [apply signals_clearTimers|intros ?].
  apply signals_attemptReconnect.
Qed.

Lemma signals_onerror s description : keeps J (onerror s description) (fun _ => True).
Proof.
  unfold onerror.
  apply signals_seq; [apply signals_gets|intros [o|]]; [|by apply keeps_ret].
  apply signals_seq; [apply signals_updateConnectionState|intros ?].
  apply signals_seq; [apply signals_notifyError|intros ?].
  apply signals_settle.
Qed.

Lemma signals_heartbeatTick : keeps J heartbeatTick (fun _ => True).
Proof.
  unfold heartbeatTick.
  apply signals_seq; [apply signals_gets|intros [d|]]; [|by apply keeps_ret].
  intros st Hst. split; [done|].
  unfold exec at 1, gets at 1, mbind at 1, state_bind at 1. simpl.
  destruct (socket st) as [s|]; [|done].
  destruct (bool_decide _); [|done].
  pose proof (signals_send s OutPing (fun _ st => st)) as Hsend.
  specialize (Hsend carries_ping (fun _ _ => ltac:(done)) st Hst).
  revert Hsend. unfold exec, emit, modify, mbind, state_bind. simpl. done.
Qed.

Lemma signals_reconnectTimeout created :
  keeps J (reconnectTimeout created) (fun _ => True).
Proof.
  unfold reconnectTimeout.
  apply signals_seq; [apply signals_gets|intros [d|]]; [|by apply keeps_ret].
  apply signals_seq; [by apply signals_set|intros ?].
  apply signals_seq; [by apply signals_set|intros ?].
  apply signals_seq; [apply signals_connect|intros ?].
  by apply keeps_ret.
Qed.

Lemma signals_step_input i : allowed i -> keeps J (step i) (fun _ => True).
Proof.
  destruct i; simpl; intros Hi.
  - apply signals_seq; [apply signals_connect|intros ?]. by apply keeps_ret.
  - apply signals_disconnect.
  - apply signals_seq; [by apply signals_sendCommand|intros ?]. by apply keeps_ret.
  - apply signals_seq; [apply signals_subscribeEntities|intros ?]. by apply keeps_ret.
  - apply signals_subscribeConnectionState.
  - by apply signals_set.
  - apply signals_onopen.
  - apply signals_onmessage.
  - apply signals_onclose.
  - apply signals_onerror.
  - apply signals_heartbeatTick.
  - apply signals_reconnectTimeout.
Qed.

Lemma signals_run inputs st :
  Forall allowed inputs -> J st -> J (exec (run inputs) st).
Proof.
  intros Hinputs. revert st. unfold run.
  induction Hinputs as [|i inputs Hi _ IH]; intros st Hst; [done|].
  rewrite exec_for_of_cons. apply IH.
  by destruct (signals_step_input i Hi st Hst).
Qed.
End Signals.

Section Traces.
Import Json Types Protocol WebSocketApi.
Local Open Scope list_scope.

Lemma lastNotified_app cb l l' :
  lastNotified cb (l ++ l') =
    match lastNotified cb l' with
    | Some state => Some state
    | None => lastNotified cb l
    end.
Proof. unfold lastNotified. by rewrite omap_app, last_app. Qed.

Lemma omap_silent {A} (f : Effect -> option A) l :
  Forall (fun e => f e = None) l -> omap f l = [].
Proof. induction 1 as [|e l He _ IH]; [done|]. simpl. by rewrite He. Qed.

Lemma lastNotified_silent cb l : Forall silent l -> lastNotified cb l = None.
Proof.
  intros Hl. unfold lastNotified. rewrite omap_silent; [done|].
  eapply Forall_impl; [exact Hl|]. intros e [He _]. apply He.
Qed.

Lemma lastNotified_callAll cb state cbs :
  cb ∈ cbs ->
  lastNotified cb (map (fun c => ConnectionStateChanged c state) cbs) = Some state.
Proof.
  intros Hcb. unfold lastNotified.
  assert (Hall : forall x,
            x ∈ omap (notified cb) (map (fun c => ConnectionStateChanged c state) cbs) ->
            x = state).
  { intros x [e [[c [-> _]]%list_elem_of_fmap He]]%list_elem_of_omap.
    simpl in He. by destruct (bool_decide (c = cb)); simplify_eq. }
  destruct (last _) as [x|] eqn:Hlast.
  - apply last_Some in Hlast as [l' Hl']. f_equal. apply Hall.
    rewrite Hl', elem_of_app. right. by left.
  - apply last_None in Hlast.
    assert (Hin : state ∈ omap (notified cb)
                    (map (fun c => ConnectionStateChanged c state) cbs)).
    { apply list_elem_of_omap. exists (ConnectionStateChanged cb state). split.
      - apply list_elem_of_fmap. by exists cb.
      - simpl. by rewrite bool_decide_eq_true_2. }
    rewrite Hlast in Hin. by apply elem_of_nil in Hin.
Qed.

Lemma informed_frame st st' : sameSignals st st' -> informed st -> informed st'.
Proof.
  intros (Hcs & Hcbs & _ & Heff) Hst cb. rewrite Hcs, Hcbs, Heff. apply Hst.
Qed.

Lemma informed_silent l st :
  Forall silent l -> informed st -> informed (set_effects (effects st ++ l) st).
Proof.
  intros Hl Hst cb Hcb. simpl in *.
  rewrite lastNotified_app, lastNotified_silent by done. by apply Hst.
Qed.

Lemma informed_update state st :
  informed st ->
  informed
    (set_effects
       (effects st ++ map (fun cb => ConnectionStateChanged cb state) (connectionStateCallbacks st))
       (set_connectionState state st)).
Proof.
  intros _ cb Hcb. simpl in *.
  by rewrite lastNotified_app, lastNotified_callAll.
Qed.

Lemma informed_subscribe cb st :
  informed st ->
  informed
    (set_effects (effects st ++ [ConnectionStateChanged cb (connectionState st)])
       (set_connectionStateCallbacks (connectionStateCallbacks st ++ [cb]) st)).
Proof.
  intros Hst cb' Hcb'. simpl in *. rewrite lastNotified_app.
  unfold lastNotified at 1. simpl.
  destruct (bool_decide (cb = cb')) eqn:Hsame; simpl; [done|].
  apply bool_decide_eq_false in Hsame.
  apply elem_of_app in Hcb' as [Hold|Hnew%list_elem_of_singleton]; [by apply Hst|].
  by subst.
Qed.

Lemma informed_send s msg st :
  informed st ->
  informed (set_effects (effects st ++ [Send s msg]) (set_messageId (messageId st + 1)%Z st)).
Proof.
  intros Hst cb Hcb. simpl in *. rewrite lastNotified_app.
  unfold lastNotified at 1. simpl. by apply Hst.
Qed.

Lemma sentIds_app l l' : sentIds (l ++ l') = sentIds l ++ sentIds l'.
Proof. apply omap_app. Qed.

Lemma sentIds_silent l : Forall silent l -> sentIds l = [].
Proof.
  intros Hl. apply omap_silent. eapply Forall_impl; [exact Hl|]. by intros e [_ He].
Qed.

Lemma idsFresh_frame st st' : sameSignals st st' -> idsFresh st -> idsFresh st'.
Proof.
  intros (_ & _ & Hmid & Heff) Hst. unfold idsFresh. by rewrite Hmid, Heff.
Qed.

Lemma idsFresh_silent l st :
  Forall silent l -> idsFresh st -> idsFresh (set_effects (effects st ++ l) st).
Proof.
  intros Hl Hst. unfold idsFresh. simpl.
  by rewrite sentIds_app, (sentIds_silent l Hl), app_nil_r.
Qed.

Lemma idsFresh_update state st :
  idsFresh st ->
  idsFresh
    (set_effects
       (effects st ++ map (fun cb => ConnectionStateChanged cb state) (connectionStateCallbacks st))
       (set_connectionState state st)).
Proof.
  intros Hst. unfold idsFresh. simpl. rewrite sentIds_app.
  unfold sentIds at 2 4 6. rewrite omap_silent, app_nil_r; [exact Hst|].
  apply Forall_forall. by intros e [c [-> _]]%list_elem_of_fmap.
Qed.

Lemma idsFresh_subscribe cb st :
  idsFresh st ->
  idsFresh
    (set_effects (effects st ++ [ConnectionStateChanged cb (connectionState st)])
       (set_connectionStateCallbacks (connectionStateCallbacks st ++ [cb]) st)).
Proof.
  intros Hst. unfold idsFresh. simpl.
  rewrite sentIds_app. simpl. rewrite app_nil_r. exact Hst.
Qed.

(** [get], [set] and [assign] on objects. *)
Lemma get_set_ne k k' v (o : Obj) : k' <> k -> get k (set k' v o) = get k o.
Proof.
  intros Hne. induction o as [|[k0 v0] o IH]; simpl.
  - by rewrite bool_decide_eq_false_2.
  - destruct (bool_decide (k0 = k')) eqn:Hk0; simpl.
    + apply bool_decide_eq_true in Hk0 as ->.
      by rewrite !bool_decide_eq_false_2.
    + by rewrite IH.
Qed.

Lemma get_assign_None k (source target : Obj) :
  get k source = None -> get k (assign target source) = get k target.
Proof.
  unfold assign. revert target.
  induction source as [|[k0 v0] source IH]; intros target; simpl; [done|].
  destruct (bool_decide (k0 = k)) eqn:Hk0; [done|].
  apply bool_decide_eq_false in Hk0. intros Hsource.
  by rewrite IH, get_set_ne.
Qed.

(** A command whose parameters have no [id] is sent under the id that the
    client assigns. *)
Lemma sentId_command s id command params :
  get "id" params = None ->
  sentId (Send s (OutCommand (commandMessage id command params))) = Some id.
Proof.
  intros Hplain. unfold sentId, commandMessage.
  by rewrite get_assign_None.
Qed.

Lemma increment_exact n : (n < 2 ^ 53)%Z -> increment n = (n + 1)%Z.
Proof.
  intros Hn. unfold increment.
  by destruct (Z.ltb_spec n (2 ^ 53)); [|lia].
Qed.

Lemma increment_ge n : (n <= increment n)%Z.
Proof. unfold increment. destruct (n <? 2 ^ 53)%Z; lia. Qed.

Lemma idsFresh_send s msg st :
  sentId (Send s msg) = Some (messageId st) ->
  idsFresh st ->
  idsFresh (set_effects (effects st ++ [Send s msg]) (set_messageId (messageId st + 1)%Z st)).
Proof.
  intros Hid (Hincr & Hbound & Hpos). unfold idsFresh. simpl.
  assert (Hs : sentIds [Send s msg] = [messageId st])
    by (unfold sentIds; cbn [omap list_omap]; by rewrite Hid).
  rewrite sentIds_app, Hs. clear Hs Hid.
  split; [|split; [|lia]].
  - intros i j x y Hij Hi Hj.
    apply lookup_app_Some in Hj as [Hj|[Hlen Hj]].
    + rewrite lookup_app_l in Hi by (apply lookup_lt_Some in Hj; lia).
      by eapply Hincr.
    + apply list_lookup_singleton_Some in Hj as [Hj <-].
      rewrite lookup_app_l in Hi by lia.
      apply Hbound. by eapply list_elem_of_lookup_2.
  - intros x [Hx|Hx%list_elem_of_singleton]%elem_of_app.
    + specialize (Hbound x Hx). lia.
    + lia.
Qed.

(** X24: whatever happens to the client (calls of its methods, socket events
    and timers, in any order), every registered connection-state listener
    has been told the state that the client is in: its latest call carries
    the current connection state. *)
Theorem listeners_know_the_state inputs st :
  informed st -> informed (exec (run inputs) st).
Proof.
  apply (signals_run informed) with (plain := fun _ => True) (carries := fun _ _ => True);
    try done.
  - apply informed_frame.
  - apply informed_silent.
  - apply informed_update.
  - apply informed_subscribe.
  - intros s msg st0 _. apply informed_send.
  - apply Forall_forall. intros i _. by destruct i.
Qed.

(** X25: as long as the counter of message ids, a positive integer, has
    stayed below [2 ^ 53], where a JavaScript number stops counting, and no
    call of [sendCommand] had an [id] among its parameters, which would
    replace the id of the message, the ids that the commands and pings
    written to the sockets carry are strictly increasing, and all are below
    the counter: no id is used twice. *)
Theorem message_ids_are_never_reused inputs st :
  Forall plainCommand inputs ->
  idsFresh st ->
  (messageId (exec (run inputs) st) < 2 ^ 53)%Z ->
  idsFresh (exec (run inputs) st).
Proof.
  intros Hinputs Hst Hbound.
  set (bound := messageId (exec (run inputs) st)) in *.
  assert (Hrun : (messageId (exec (run inputs) st) <= bound)%Z ->
                 idsFresh (exec (run inputs) st)); [|apply Hrun; lia].
  clearbody bound.
  apply (signals_run (fun st0 => (messageId st0 <= bound)%Z -> idsFresh st0))
    with (plain := fun params => get "id" params = None)
         (carries := fun id msg => forall s, sentId (Send s msg) = Some id).
  - intros st0 st1 Hsame H0 H1. apply (idsFresh_frame st0); [done|].
    apply H0. destruct Hsame as (_ & _ & <- & _). done.
  - intros l st0 Hl H0 H1. apply idsFresh_silent; [done|]. by apply H0.
  - intros state st0 H0 H1. apply idsFresh_update. by apply H0.
  - intros cb st0 H0 H1. apply idsFresh_subscribe. by apply H0.
  - intros s msg st0 Hmsg H0 H1. simpl in H1.
    pose proof (increment_ge (messageId st0)) as Hge.
    assert (Hlt : (messageId st0 < 2 ^ 53)%Z) by lia.
    rewrite (increment_exact _ Hlt).
    apply idsFresh_send; [apply Hmsg|]. apply H0. lia.
  - intros id command params Hplain s. by apply sentId_command.
  - done.
  - by intros [ids|].
  - eapply Forall_impl; [exact Hinputs|]. by intros [].
  - by intros _.
Qed.
End Traces.

Section TracesWitnesses.
Import Json Types Protocol WebSocketApi.
Local Open Scope list_scope.

Lemma listeners_know_the_state_witness :
  let st :=
    exec (run [SubscribeConnectionState 7; Connect (Resolved tt); SocketOpen 0;
               SocketMessage 0 (Parsed AuthRequired); SocketMessage 0 (Parsed AuthOk);
               SocketClose 0])
         (new "token") in
  lastNotified 7 (effects st) = Some RECONNECTING.
Proof.
  intros st.
  assert (Hnew : informed (new "token")).
  { intros cb Hcb. simpl in Hcb. by apply elem_of_nil in Hcb. }
  apply (listeners_know_the_state
           [SubscribeConnectionState 7; Connect (Resolved tt); SocketOpen 0;
            SocketMessage 0 (Parsed AuthRequired); SocketMessage 0 (Parsed AuthOk);
            SocketClose 0] (new "token") Hnew 7).
  vm_compute. left.
Defined.

(** The theorem on three messages of the connected client; and a command
    with an [id] among its parameters, which is written to the socket under
    that id while its promise waits for a reply to the id 1 that the client
    assigned. *)
Lemma message_ids_witness :
  let st :=
    exec (run [SendCommand "get_states" []; HeartbeatTick; SendCommand "get_config" []])
         connectedApi in
  let overwritten :=
    exec (run [SendCommand "get_states" [("id", JNum 7)]]) connectedApi in
  sentIds (effects st) = [1; 2; 3]%Z /\ messageId st = 4%Z /\ idsFresh st /\
  sentIds (effects overwritten) = [7]%Z /\
  is_Some (pendingCommands overwritten !! 1%Z).
Proof.
  intros st overwritten.
  split; [vm_compute; reflexivity|]. split; [vm_compute; reflexivity|].
  split; [|split; [vm_compute; reflexivity|vm_compute; eauto]].
  apply (message_ids_are_never_reused
           [SendCommand "get_states" []; HeartbeatTick; SendCommand "get_config" []]
           connectedApi).
  - repeat constructor.
  - split; [|split].
    + intros i j x y Hij Hi. vm_compute in Hi. by destruct i.
    + intros x Hx. vm_compute in Hx. by apply elem_of_nil in Hx.
    + vm_compute. reflexivity.
  - vm_compute. reflexivity.
Defined.
End TracesWitnesses.

Section GroupingProperties.
Import Json Types SceneContext Grouping.
Local Open Scope list_scope.

Lemma ofDomain_cons d e es :
  ofDomain d (e :: es) =
    if bool_decide (domainOf (entity_id e) = d) then e :: ofDomain d es else ofDomain d es.
Proof.
  unfold ofDomain. rewrite filter_cons.
  destruct (decide (domainOf (entity_id e) = d)) as [H|H].
  - by rewrite bool_decide_eq_true_2.
  - by rewrite bool_decide_eq_false_2.
Qed.

Lemma forEach_groups entities :
  forall domains,
  Forall (fun e => domainOf (entity_id e) ∉ inherited) entities ->
  exists groups,
    forEach domains entities = Some groups /\
    forall d,
      groups !! d =
        match domains !! d, ofDomain d entities with
        | Some group, members => Some (group ++ members)
        | None, [] => None
        | None, members => Some members
        end.
Proof.
  induction entities as [|e es IH]; intros domains Hok.
  - exists domains. split; [done|]. intros d. simpl.
    destruct (domains !! d); [by rewrite app_nil_r|done].
  - apply Forall_cons in Hok as [He Hes]. simpl.
    destruct (domains !! domainOf (entity_id e)) as [group|] eqn:Hgroup.
    + destruct (IH (<[domainOf (entity_id e) := group ++ [e]]> domains) Hes)
        as (groups & -> & Hgroups).
      exists groups. split; [done|]. intros d. rewrite Hgroups, ofDomain_cons.
      destruct (decide (domainOf (entity_id e) = d)) as [<-|Hd].
      * rewrite lookup_insert_eq, Hgroup, bool_decide_eq_true_2 by done.
        by rewrite <- app_assoc.
      * by rewrite lookup_insert_ne, bool_decide_eq_false_2 by done.
    + rewrite bool_decide_eq_false_2 by done.
      destruct (IH (<[domainOf (entity_id e) := [e]]> domains) Hes)
        as (groups & -> & Hgroups).
      exists groups. split; [done|]. intros d. rewrite Hgroups, ofDomain_cons.
      destruct (decide (domainOf (entity_id e) = d)) as [<-|Hd].
      * by rewrite lookup_insert_eq, Hgroup, bool_decide_eq_true_2 by done.
      * by rewrite lookup_insert_ne, bool_decide_eq_false_2 by done.
Qed.

(** X26: when no entity has a domain that is a name inherited from
    [Object.prototype], [groupEntitiesByDomain] returns an object that has,
    for every domain of some entity, the entities of that domain in the order
    of the list, and no other property. *)
Theorem groups_hold_the_entities_of_each_domain entities :
  Forall (fun e => domainOf (entity_id e) ∉ inherited) entities ->
  exists groups,
    groupEntitiesByDomain entities = Some groups /\
    forall d,
      groups !! d =
        match ofDomain d entities with
        | [] => None
        | members => Some members
        end.
Proof.
  intros Hok. destruct (forEach_groups entities ∅ Hok) as (groups & Hrun & Hgroups).
  exists groups. split; [exact Hrun|]. intros d.
  rewrite Hgroups, lookup_empty. done.
Qed.

Lemma groups_witness :
  exists groups,
    groupEntitiesByDomain (Examples.table ++ [Examples.lampOffEarlier]) = Some groups /\
    groups !! "light" = Some [Examples.lampOn; Examples.lampOffEarlier] /\
    groups !! "cover" = None.
Proof.
  destruct (groups_hold_the_entities_of_each_domain
              (Examples.table ++ [Examples.lampOffEarlier]))
    as (groups & Hrun & Hgroups).
  - apply (bool_decide_unpack _). vm_compute. exact I.
  - exists groups. split; [exact Hrun|]. split; rewrite Hgroups; reflexivity.
Defined.

(** X27: an entity whose domain is a name inherited from [Object.prototype]
    (such as [constructor.x]) makes [groupEntitiesByDomain] throw, wherever
    it stands in the list. *)
Theorem inherited_domain_makes_grouping_throw entities e :
  e ∈ entities ->
  domainOf (entity_id e) ∈ inherited ->
  groupEntitiesByDomain entities = None.
Proof.
  intros He Hin. unfold groupEntitiesByDomain.
  assert (Hgen : forall domains,
            (forall d, d ∈ inherited -> domains !! d = None) ->
            forEach domains entities = None).
  { induction entities as [|x es IH]; intros domains Hdom;
      [by apply elem_of_nil in He|].
    simpl. destruct (decide (domainOf (entity_id x) ∈ inherited)) as [Hx|Hx].
    - by rewrite (Hdom _ Hx), bool_decide_eq_true_2.
    - assert (He' : e ∈ es).
      { apply elem_of_cons in He as [->|He]; [done|exact He]. }
      destruct (domains !! domainOf (entity_id x)) as [group|].
      + apply IH; [exact He'|]. intros d Hd.
        rewrite lookup_insert_ne by (intros <-; done). by apply Hdom.
      + rewrite bool_decide_eq_false_2 by done.
        apply IH; [exact He'|]. intros d Hd.
        rewrite lookup_insert_ne by (intros <-; done). by apply Hdom. }
  apply Hgen. intros d _. apply lookup_empty.
Qed.

Lemma inherited_domain_witness :
  groupEntitiesByDomain
    [Examples.lampOn;
     Examples.mkEntity "constructor.x" "on" [] "2024-05-01T18:00:00+00:00"] = None.
Proof.
  apply (inherited_domain_makes_grouping_throw _
           (Examples.mkEntity "constructor.x" "on" [] "2024-05-01T18:00:00+00:00")).
  - right. left.
  - left.
Defined.
End GroupingProperties.

Section CloseAfterDisconnect.
Import Json Types Protocol WebSocketApi.
Local Open Scope list_scope.

Lemma close_event_after_disconnect_witness :
  let st' := exec (onclose 0) (exec disconnect connectedApi) in
  connectionState (exec disconnect connectedApi) = CLOSED /\
  connectionState st' = RECONNECTING /\
  reconnectTimer st' = Some 1000%Z.
Proof.
  destruct (close_event_after_disconnect connectedApi 0
              {| readyState := WS_OPEN; connectPromise := 0 |} eq_refl eq_refl)
    as (_ & _ & _ & _ & Hcs & Hrt).
  split; [vm_compute; reflexivity|]. split; [exact Hcs|exact Hrt].
Defined.
End CloseAfterDisconnect.
